(** * Minotaur QuadHandler: bound propagation, envelopes, separation, branching

    A shallow embedding of [src/base/QuadHandler.cpp] (with the parts of
    [Problem.cpp] and [Relaxation.cpp] it calls) and the properties of the
    handler for the constraints [y = x^2] and [y = x0*x1].

    Numbers.  The C++ code computes with IEEE [double]s.  They are modelled
    by the type [double] below: the finite values are exact rationals kept
    in lowest terms, next to the two infinities and NaN.  Arithmetic on
    finite values is exact (rounding and overflow are idealised away, and
    there is a single zero); the behaviour of infinities and NaN in sums,
    products, quotients and comparisons follows IEEE 754.  Rounding is kept
    in two places where it decides the outcome: the sum [x + 0.5] of
    [isSolIntegral], and the search of [findLinPt_], which a last section
    runs with every operation rounded to binary64.

    Failure.  The embedding follows a build with assertions enabled: a
    failed [assert] and a vector access out of range give [Abort].  The two
    loops of the handler take fuel; running out of it gives [OutOfFuel]. *)

From Stdlib Require Import QArith Qabs Qminmax Qreduction Lqa Lia ZArith Bool.
From stdpp Require Import base option list.

Set Default Proof Using "Type".

(* ===================================================================== *)
(** ** Doubles *)
(* ===================================================================== *)

Inductive double : Type :=
  | NaN
  | NInf
  | Fin (q : Q)
  | PInf.

Arguments Fin q%_Q.

Declare Scope dbl_scope.
Delimit Scope dbl_scope with D.
Bind Scope dbl_scope with double.

(** Strict order on rationals as a boolean. *)
Definition Qltb (a b : Q) : bool := negb (Qle_bool b a).

(** The infinity (or NaN) with the sign given by a comparison with zero. *)
Definition inf_of_sign (c : comparison) : double :=
  match c with
  | Lt => NInf
  | Eq => NaN
  | Gt => PInf
  end.

Definition dopp (a : double) : double :=
  match a with
  | NaN => NaN
  | NInf => PInf
  | Fin q => Fin (Qred (- q))
  | PInf => NInf
  end.

Definition dadd (a b : double) : double :=
  match a, b with
  | NaN, _ | _, NaN => NaN
  | Fin p, Fin q => Fin (Qred (p + q))
  | PInf, NInf | NInf, PInf => NaN
  | PInf, _ | _, PInf => PInf
  | NInf, _ | _, NInf => NInf
  end.

Definition dsub (a b : double) : double :=
  match a, b with
  | NaN, _ | _, NaN => NaN
  | Fin p, Fin q => Fin (Qred (p - q))
  | PInf, PInf | NInf, NInf => NaN
  | PInf, _ | _, NInf => PInf
  | NInf, _ | _, PInf => NInf
  end.

Definition dmul (a b : double) : double :=
  match a, b with
  | NaN, _ | _, NaN => NaN
  | Fin p, Fin q => Fin (Qred (p * q))
  | Fin p, PInf | PInf, Fin p => inf_of_sign (p ?= 0)%Q
  | Fin p, NInf | NInf, Fin p => inf_of_sign (0 ?= p)%Q
  | PInf, PInf | NInf, NInf => PInf
  | PInf, NInf | NInf, PInf => NInf
  end.

Definition ddiv (a b : double) : double :=
  match a, b with
  | NaN, _ | _, NaN => NaN
  | Fin p, Fin q =>
      if Qeq_bool q 0 then inf_of_sign (p ?= 0)%Q else Fin (Qred (p / q))
  | Fin _, PInf | Fin _, NInf => Fin 0
  | PInf, Fin q => if Qltb q 0 then NInf else PInf
  | NInf, Fin q => if Qltb q 0 then PInf else NInf
  | PInf, PInf | PInf, NInf | NInf, PInf | NInf, NInf => NaN
  end.

(** [fabs] *)
Definition fabs (a : double) : double :=
  match a with
  | NaN => NaN
  | NInf | PInf => PInf
  | Fin q => Fin (Qred (Qabs q))
  end.

(** [a < b]; every comparison with NaN is false. *)
Definition dltb (a b : double) : bool :=
  match a, b with
  | NaN, _ | _, NaN => false
  | Fin p, Fin q => Qltb p q
  | NInf, NInf | PInf, _ | _, NInf => false
  | NInf, _ | _, PInf => true
  end.

(** [a <= b] *)
Definition dleb (a b : double) : bool :=
  match a, b with
  | NaN, _ | _, NaN => false
  | Fin p, Fin q => Qle_bool p q
  | NInf, _ | _, PInf => true
  | PInf, _ | _, NInf => false
  end.

Definition is_nan (a : double) : bool :=
  match a with
  | NaN => true
  | _ => false
  end.

Definition is_finite (a : double) : bool :=
  match a with
  | Fin _ => true
  | _ => false
  end.

(** Equality of doubles as numbers ([Fin] up to [Qeq]). *)
Definition deq (a b : double) : Prop :=
  match a, b with
  | NaN, NaN | NInf, NInf | PInf, PInf => True
  | Fin p, Fin q => p == q
  | _, _ => False
  end.

Notation "- a" := (dopp a) : dbl_scope.
Infix "+" := dadd : dbl_scope.
Infix "-" := dsub : dbl_scope.
Infix "*" := dmul : dbl_scope.
Infix "/" := ddiv : dbl_scope.
Infix "<?" := dltb (at level 70, no associativity) : dbl_scope.
Infix "<=?" := dleb (at level 70, no associativity) : dbl_scope.
Notation "a >? b" := (dltb b a) (at level 70, no associativity) : dbl_scope.
Notation "a >=? b" := (dleb b a) (at level 70, no associativity) : dbl_scope.

(** [std::min] and [std::max]: [(b < a) ? b : a] and [(a < b) ? b : a]. *)
Definition dmin (a b : double) : double := if (b <? a)%D then b else a.
Definition dmax (a b : double) : double := if (a <? b)%D then b else a.

(** The constant [INFINITY] of [<cmath>]. *)
Definition INFINITY : double := PInf.

(* ===================================================================== *)
(** ** Results of code that can abort or loop *)
(* ===================================================================== *)

Inductive result (A : Type) : Type :=
  | Ok (a : A)
  | Abort
  | OutOfFuel.

Arguments Ok {A} a.
Arguments Abort {A}.
Arguments OutOfFuel {A}.

Definition rbind {A B : Type} (m : result A) (f : A -> result B) : result B :=
  match m with
  | Ok a => f a
  | Abort => Abort
  | OutOfFuel => OutOfFuel
  end.

Notation "x <- m ;; k" := (rbind m (fun x => k))
  (at level 100, m at next level, right associativity).

(** [assert(b)] *)
Definition assert (b : bool) : result unit := if b then Ok tt else Abort.

(** A vector slot; an access out of range aborts. *)
Definition at_index {A : Type} (l : list A) (i : nat) : result A :=
  match l !! i with
  | Some a => Ok a
  | None => Abort
  end.

(** A pointer that may be NULL; dereferencing NULL aborts. *)
Definition deref {A : Type} (p : option A) : result A :=
  match p with
  | Some a => Ok a
  | None => Abort
  end.

(* ===================================================================== *)
(** ** Data model *)
(* ===================================================================== *)

Local Open Scope dbl_scope.

(** A [VariablePtr] is modelled by the index of the variable; the variable
    of the relaxation with the same index is its image under
    [Relaxation::getRelaxationVar].  Where the code compares two pointers,
    the owner of the variable is kept next to the index ([VarObj] below). *)
Abbreviation VariablePtr := nat (only parsing).

(** The class [Variable] ([Variable] is a reserved word here). *)
Record Var : Type := mkVariable {
  getLb : double;
  getUb : double
}.

(** Modelled from the spec: [LinearFunction] (LinearFunction.cpp is not among
    the sources), "an ordered mapping variable -> coefficient": the terms in
    the order [addTerm] received them; a variable without a term has
    weight zero. *)
Definition LinearFunction : Type := list (VariablePtr * double).

Definition addTerm (lf : LinearFunction) (v : VariablePtr) (a : double)
  : LinearFunction := lf ++ [(v, a)].

Fixpoint getWeight (lf : LinearFunction) (v : VariablePtr) : double :=
  match lf with
  | [] => Fin 0
  | (w, a) :: rest => if Nat.eqb w v then a else getWeight rest v
  end.

(** Value of a linear function at a point. *)
Fixpoint evalLf (lf : LinearFunction) (x : nat -> double) : double :=
  match lf with
  | [] => Fin 0
  | (v, a) :: rest => a * x v + evalLf rest x
  end.

Record Constraint : Type := mkConstraint {
  getLinearFunction : LinearFunction;
  conLb : double;
  conUb : double
}.

(** A point satisfies a constraint [lb <= lf(x) <= ub]. *)
Definition satisfies (c : Constraint) (x : nat -> double) : bool :=
  (conLb c <=? evalLf (getLinearFunction c) x)
  && (evalLf (getLinearFunction c) x <=? conUb c).

Record Problem : Type := mkProblem {
  vars_ : list Var;
  cons_ : list Constraint
}.

Definition Relaxation : Type := Problem.

Inductive BoundType : Type := Lower | Upper.
Inductive BranchDirection : Type := DownBranch | UpBranch.
Inductive SeparationStatus : Type :=
  SepaContinue | SepaResolve | SepaPrune | SepaNone | SepaError.

(** [Problem::getVariable], [Relaxation::getRelaxationVar]: [vars_[index]]. *)
Definition getVariable (p : Problem) (v : VariablePtr) : result Var :=
  at_index (vars_ p) v.

Definition setBound (lu : BoundType) (new_val : double) (v : Var)
  : Var :=
  match lu with
  | Lower => mkVariable new_val (getUb v)
  | Upper => mkVariable (getLb v) new_val
  end.

(** [Problem::changeBound(VariablePtr, BoundType, double)] *)
Definition changeBound (p : Problem) (var : VariablePtr) (lu : BoundType)
    (new_val : double) : result Problem :=
  v <- getVariable p var ;;
  Ok (mkProblem (<[var := setBound lu new_val v]> (vars_ p)) (cons_ p)).

(** [Problem::changeBound(VariablePtr, double, double)] *)
Definition changeBound2 (p : Problem) (var : VariablePtr)
    (new_lb new_ub : double) : result Problem :=
  _ <- getVariable p var ;;
  Ok (mkProblem (<[var := mkVariable new_lb new_ub]> (vars_ p)) (cons_ p)).

(** [Problem::newConstraint(f, lb, ub)]: the constraint is pushed at the back
    and its index is returned. *)
Definition newConstraint (p : Problem) (lf : LinearFunction) (lb ub : double)
  : nat * Problem :=
  (length (cons_ p),
   mkProblem (vars_ p) (cons_ p ++ [mkConstraint lf lb ub])).

(** [Problem::changeConstraint(con, lf, lb, ub)] *)
Definition changeConstraint (p : Problem) (con : nat) (lf : LinearFunction)
    (lb ub : double) : result Problem :=
  _ <- at_index (cons_ p) con ;;
  Ok (mkProblem (vars_ p) (<[con := mkConstraint lf lb ub]> (cons_ p))).

(** The modifications the handler creates. *)
Inductive Modification : Type :=
  | VarBoundMod (v : VariablePtr) (lu : BoundType) (b : double)
  | VarBoundMod2 (v : VariablePtr) (lb ub : double)
  | LinConMod (con : nat) (lf : LinearFunction) (lb ub : double)
  | SecantMod (con : option nat) (lf : option LinearFunction) (rhs : double)
      (x : VariablePtr) (lu : BoundType) (b : double) (y : VariablePtr)
  | LinMods (mods : list Modification).

Definition ModVector : Type := list Modification.

(** Modelled from the spec: [applyToProblem] of [VarBoundMod], [VarBoundMod2]
    and [LinConMod] (their sources are not among the files), "application
    writes new-state": the bound or the linear function and right-hand side
    is written through [changeBound] and [changeConstraint]. *)
Definition applyToProblem (m : Modification) (p : Problem) : result Problem :=
  match m with
  | VarBoundMod v lu b => changeBound p v lu b
  | VarBoundMod2 v lb ub => changeBound2 p v lb ub
  | LinConMod con lf lb ub => changeConstraint p con lf lb ub
  | _ => Abort
  end.

(** The record of [y = x^2]. *)
Record LinSqr : Type := mkLinSqr {
  sqY : VariablePtr;
  sqX : VariablePtr;
  oeCon : option nat
}.

(** The record of [y = x0*x1], with its four envelope constraints. *)
Record LinBil : Type := mkLinBil {
  getX0 : VariablePtr;
  getX1 : VariablePtr;
  getY : VariablePtr;
  getC0 : option nat;
  getC1 : option nat;
  getC2 : option nat;
  getC3 : option nat
}.

(** [LinBil::LinBil]: the operands are ordered by index. *)
Definition newLinBil (x0 x1 y : VariablePtr) : LinBil :=
  if Nat.ltb x1 x0
  then mkLinBil x1 x0 y None None None None
  else mkLinBil x0 x1 y None None None None.

(** Pointers as objects.  Where the code compares two [VariablePtr]s with
    [==] it compares the objects, and the relaxation holds copies of the
    variables of the problem ([Relaxation::Relaxation] clones every
    variable; a copy has the index of its original).  An object is given by
    its owner and its index there.  The records of the handler hold variables
    of the problem [p_]; the candidates that [getBranchingCandidates] makes
    hold variables of the relaxation ([getRelaxationVar]). *)
Inductive Owner : Type := OfProblem | OfRelaxation.

Record VarObj : Type := mkVarObj {
  ownerOf : Owner;
  indexOf : VariablePtr
}.

(** [==] on two pointers: the same object. *)
Definition ptr_eqb (u v : VarObj) : bool :=
  match ownerOf u, ownerOf v with
  | OfProblem, OfProblem | OfRelaxation, OfRelaxation =>
      Nat.eqb (indexOf u) (indexOf v)
  | _, _ => false
  end.

(** [LinBil::getOtherX]: [x0_] and [x1_] are variables of the problem, [x] is
    any pointer. *)
Definition getOtherX (b : LinBil) (x : VarObj) : option VariablePtr :=
  if ptr_eqb (mkVarObj OfProblem (getX0 b)) x then Some (getX1 b)
  else if ptr_eqb (mkVarObj OfProblem (getX1 b)) x then Some (getX0 b)
  else None.

(** [LinBil::setCons] *)
Definition setCons (b : LinBil) (c0 c1 c2 c3 : nat) : LinBil :=
  mkLinBil (getX0 b) (getX1 b) (getY b) (Some c0) (Some c1) (Some c2) (Some c3).

(** The handler: [x2Funs_] is the map from [x] to the record of [y = x^2],
    [x0x1Funs_] the set of bilinear records, both in iteration order. *)
Record QuadHandler : Type := mkQuadHandler {
  modProb_ : bool;
  modRel_ : bool;
  x2Funs_ : list (VariablePtr * LinSqr);
  x0x1Funs_ : list LinBil
}.

(** What the bound propagation of a node reads and writes: the problem
    [p_] of the handler, the relaxation, and the two vectors of
    modifications. *)
Record State : Type := mkState {
  p_ : Problem;
  rel_ : Relaxation;
  p_mods : ModVector;
  r_mods : ModVector
}.

Definition aTol_ : double := Fin 1e-5.
Definition rTol_ : double := Fin 1e-4.

(* ===================================================================== *)
(** ** Interval arithmetic (Operations.cpp) *)
(* ===================================================================== *)

(** Modelled from the spec: [BoundsOnSquare] (Operations.cpp is not among the
    sources), "tighten y with [min(x^2), max(x^2)] over x in [l,u]". *)
Definition BoundsOnSquare (x_lb x_ub : double) : double * double :=
  if (x_lb <? Fin 0) && (x_ub >? Fin 0)
  then (Fin 0, dmax (x_lb * x_lb) (x_ub * x_ub))
  else if x_ub <=? Fin 0
  then (x_ub * x_ub, x_lb * x_lb)
  else (x_lb * x_lb, x_ub * x_ub).

(** Modelled from the spec: [BoundsOnProduct] (Operations.cpp is not among
    the sources), "[min(ab), max(ab)] over the four corner products". *)
Definition BoundsOnProduct (l0 u0 l1 u1 : double) : double * double :=
  (dmin (dmin (l0 * l1) (l0 * u1)) (dmin (u0 * l1) (u0 * u1)),
   dmax (dmax (l0 * l1) (l0 * u1)) (dmax (u0 * l1) (u0 * u1))).

(** Modelled from the spec: [BoundsOnDiv] (Operations.cpp is not among the
    sources), "the interval quotient y / xj using the standard rules for
    zero-crossing denominators": the product with the reciprocal interval
    [1/u1, 1/l1] when zero is outside [l1, u1], and no information (the whole
    line) when the denominator interval contains zero. *)
Definition BoundsOnDiv (l0 u0 l1 u1 : double) : double * double :=
  if (l1 >? Fin 0) || (u1 <? Fin 0)
  then BoundsOnProduct l0 u0 (Fin 1 / u1) (Fin 1 / l1)
  else (- INFINITY, INFINITY).

(* ===================================================================== *)
(** ** QuadHandler *)
(* ===================================================================== *)

Section QuadHandler.

(** [sqrt] of [<cmath>] on the finite non-negative doubles is a parameter of
    the development: the handler only needs its value, and a rational
    argument has in general no rational root. *)
Variable sqrtQ : Q -> Q.

Definition sqrt (a : double) : double :=
  match a with
  | NaN | NInf => NaN
  | Fin q => if Qltb q 0 then NaN else Fin (Qred (sqrtQ q))
  | PInf => PInf
  end.

(** *** Golden-section search for the linearization point *)

(** The objective [(t - xval)^2 + (t^2 - yval)^2] evaluated in [findLinPt_]. *)
Definition distVal (xval yval t : double) : double :=
  (t - xval) * (t - xval) + (t * t - yval) * (t * t - yval).

Definition alfa : double := Fin 0.618.
Definition errlim : double := Fin 1e-4.

(** The [while ((b-a) > errlim)] loop of [findLinPt_]; it returns [la]. *)
Fixpoint findLinPt_loop (fuel : nat) (xval yval a b mu la mu_val la_val : double)
  : result double :=
  if (b - a) >? errlim then
    match fuel with
    | O => OutOfFuel
    | S fuel =>
        if mu_val <? la_val then
          let a := la in
          let la := mu in
          let la_val := mu_val in
          let mu := a + alfa * (b - a) in
          let mu_val := distVal xval yval mu in
          findLinPt_loop fuel xval yval a b mu la mu_val la_val
        else
          let b := mu in
          let mu := la in
          let mu_val := la_val in
          let la := b - alfa * (b - a) in
          let la_val := distVal xval yval la in
          findLinPt_loop fuel xval yval a b mu la mu_val la_val
    end
  else Ok la.

(** [QuadHandler::findLinPt_]: the point [(xl, yl)] on the parabola. *)
Definition findLinPt_ (fuel : nat) (xval yval : double)
  : result (double * double) :=
  let '(a, b) :=
    if xval >? Fin 0 then (sqrt yval, xval) else (xval, - sqrt yval) in
  let mu := a + alfa * (b - a) in
  let la := b - alfa * (b - a) in
  let mu_val := distVal xval yval mu in
  let la_val := distVal xval yval la in
  la <- findLinPt_loop fuel xval yval a b mu la mu_val la_val ;;
  Ok (la, la * la).

(** *** Linear functions of the envelopes *)

(** [QuadHandler::getNewBilLf_]: the linear function and the right-hand side
    of the McCormick inequality number [type]. *)
Definition getNewBilLf_ (x0 : VariablePtr) (lb0 ub0 : double)
    (x1 : VariablePtr) (lb1 ub1 : double) (y : VariablePtr) (type : nat)
  : result (LinearFunction * double) :=
  let lf : LinearFunction := [] in
  match type with
  | 0%nat =>
      (* y >= l0x1 + l1x0 - l1l0 *)
      let lf := addTerm lf x1 lb0 in
      let lf := addTerm lf x0 lb1 in
      let lf := addTerm lf y (Fin (-1)) in
      Ok (lf, lb0 * lb1)
  | 1%nat =>
      (* y >= u0x1 + u1x0 - u1u0 *)
      let lf := addTerm lf x1 ub0 in
      let lf := addTerm lf x0 ub1 in
      let lf := addTerm lf y (Fin (-1)) in
      Ok (lf, ub0 * ub1)
  | 2%nat =>
      (* y <= u1x0 + l0x1 - l0u1 *)
      let lf := addTerm lf x0 (Fin (-1) * ub1) in
      let lf := addTerm lf x1 (Fin (-1) * lb0) in
      let lf := addTerm lf y (Fin 1) in
      Ok (lf, - lb0 * ub1)
  | 3%nat =>
      (* y <= l1x0 + u0x1 - u0l1 *)
      let lf := addTerm lf x0 (Fin (-1) * lb1) in
      let lf := addTerm lf x1 (Fin (-1) * ub0) in
      let lf := addTerm lf y (Fin 1) in
      Ok (lf, - ub0 * lb1)
  | _ => Abort
  end.

(** [QuadHandler::getNewSqLf_]: the linear function and the right-hand side
    [r] of the secant. *)
Definition getNewSqLf_ (x y : VariablePtr) (lb ub : double)
  : result (LinearFunction * double) :=
  let r := - ub * lb in
  _ <- assert ((lb >? Fin (-1e21)) && (ub <? Fin 1e21)) ;;
  if fabs (ub + lb) >? aTol_ then
    let lf := addTerm [] y (Fin 1) in
    let lf := addTerm lf x (Fin (-1) * (ub + lb)) in
    Ok (lf, r)
  else
    let lf := addTerm [] y (Fin 1) in
    Ok (lf, r).

(** [QuadHandler::addCut_]: the relaxation and the flag [ifcuts]. *)
Definition addCut_ (x y : VariablePtr) (xl yl xval yval : double)
    (rel : Relaxation) : Relaxation * bool :=
  if (Fin 2 * xl * xval - yval - yl >? Fin 1e-5)
     && (Fin 2 * xl * xval - yval >? yl * (Fin 1 + Fin 1e-4))
  then
    let lf := addTerm [] x (Fin 2 * xl) in
    let lf := addTerm lf y (Fin (-1)) in
    let '(_, rel) := newConstraint rel lf (- INFINITY) (xl * xl) in
    (rel, true)
  else (rel, false).

(** [QuadHandler::isAtBnds_] *)
Definition isAtBnds_ (x : Var) (xval : double) : bool :=
  let lb := getLb x in
  let ub := getUb x in
  (fabs (xval - lb) <? aTol_) || (fabs (xval - ub) <? aTol_).

(** *** Feasibility *)

(** [LinBil::isViolated(const double *x)] *)
Definition isViolated (b : LinBil) (x : nat -> double) : bool :=
  let xval := x (getX0 b) * x (getX1 b) in
  let yval := x (getY b) in
  if (fabs (xval - yval) >? aTol_) && (fabs (xval - yval) >? fabs yval * rTol_)
  then true
  else false.

(** The test of the first loop of [isFeasible] on one square term. *)
Definition sqrViolated (xval yval : double) : bool :=
  (fabs (yval - xval * xval) / (fabs yval + Fin 1e-6) >? Fin 1e-4)
  && (fabs (yval - xval * xval) >? Fin 1e-5).

(** The first loop of [isFeasible]: [false] stands for the early
    [return false]. *)
Fixpoint isFeasible_sqr (its : list (VariablePtr * LinSqr)) (x : nat -> double)
  : bool :=
  match its with
  | [] => true
  | it :: rest =>
      let xval := x it.1 in
      let yval := x (sqY it.2) in
      if sqrViolated xval yval then false else isFeasible_sqr rest x
  end.

(** The second loop of [isFeasible]. *)
Fixpoint isFeasible_bil (its : list LinBil) (x : nat -> double) : bool :=
  match its with
  | [] => true
  | it :: rest => if isViolated it x then false else isFeasible_bil rest x
  end.

(** [QuadHandler::isFeasible]; [x] is the primal solution [sol->getPrimal()]. *)
Definition isFeasible (h : QuadHandler) (x : nat -> double) : bool :=
  if isFeasible_sqr (x2Funs_ h) x
  then isFeasible_bil (x0x1Funs_ h) x
  else false.

(** *** Bound propagation at a node *)

(** [QuadHandler::updatePBounds_(v, lb, ub, rel, mod_rel, changed, p_mods,
    r_mods)]: the returned integer, the flag [*changed] and the state. *)
Definition updatePBounds_ (v : VariablePtr) (lb ub : double) (mod_rel : bool)
    (changed : bool) (s : State) : result (Z * bool * State) :=
  var <- getVariable (p_ s) v ;;
  if (lb >? getUb var + aTol_) || (ub <? getLb var - aTol_) then
    Ok ((-1)%Z, changed, s)
  else if (lb >? getLb var + aTol_) && (ub <? getUb var - aTol_) then
    let changed := true in
    let b2mod := VarBoundMod2 v lb ub in
    p <- applyToProblem b2mod (p_ s) ;;
    let s := mkState p (rel_ s) (p_mods s ++ [b2mod]) (r_mods s) in
    if mod_rel then
      let b2mod := VarBoundMod2 v lb ub in
      rel <- applyToProblem b2mod (rel_ s) ;;
      Ok (0%Z, changed, mkState (p_ s) rel (p_mods s) (r_mods s ++ [b2mod]))
    else Ok (0%Z, changed, s)
  else if lb >? getLb var + aTol_ then
    let changed := true in
    let bmod := VarBoundMod v Lower lb in
    p <- applyToProblem bmod (p_ s) ;;
    let s := mkState p (rel_ s) (p_mods s ++ [bmod]) (r_mods s) in
    if mod_rel then
      let bmod := VarBoundMod v Lower lb in
      rel <- applyToProblem bmod (rel_ s) ;;
      Ok (0%Z, changed, mkState (p_ s) rel (p_mods s) (r_mods s ++ [bmod]))
    else Ok (0%Z, changed, s)
  else if ub <? getUb var - aTol_ then
    let bmod := VarBoundMod v Upper ub in
    p <- applyToProblem bmod (p_ s) ;;
    let s := mkState p (rel_ s) (p_mods s ++ [bmod]) (r_mods s) in
    if mod_rel then
      let bmod := VarBoundMod v Upper ub in
      rel <- applyToProblem bmod (rel_ s) ;;
      Ok (0%Z, changed, mkState (p_ s) rel (p_mods s) (r_mods s ++ [bmod]))
    else Ok (0%Z, changed, s)
  else Ok (0%Z, changed, s).

(** [QuadHandler::propBilBnds_(lx0x1, rel, mod_rel, changed, p_mods, r_mods)]:
    [true] in the first component stands for "infeasible". *)
Definition propBilBnds_ (lx0x1 : LinBil) (mod_rel : bool) (changed : bool)
    (s : State) : result (bool * bool * State) :=
  let x0 := getX0 lx0x1 in
  let x1 := getX1 lx0x1 in
  let y := getY lx0x1 in
  v0 <- getVariable (p_ s) x0 ;;
  v1 <- getVariable (p_ s) x1 ;;
  let '(lb, ub) := BoundsOnProduct (getLb v0) (getUb v0) (getLb v1) (getUb v1) in
  r <- updatePBounds_ y lb ub mod_rel changed s ;;
  let '(rc, changed, s) := r in
  if (rc <? 0)%Z then Ok (true, changed, s) else
  (* other direction *)
  vy <- getVariable (p_ s) y ;;
  v0 <- getVariable (p_ s) x0 ;;
  let '(lb, ub) := BoundsOnDiv (getLb vy) (getUb vy) (getLb v0) (getLb v0) in
  r <- updatePBounds_ x1 lb ub mod_rel changed s ;;
  let '(rc, changed, s) := r in
  if (rc <? 0)%Z then Ok (true, changed, s) else
  vy <- getVariable (p_ s) y ;;
  v0 <- getVariable (p_ s) x0 ;;
  let '(lb, ub) := BoundsOnDiv (getLb vy) (getUb vy) (getLb v0) (getLb v0) in
  r <- updatePBounds_ x0 lb ub mod_rel changed s ;;
  let '(rc, changed, s) := r in
  if (rc <? 0)%Z then Ok (true, changed, s) else
  Ok (false, changed, s).

(** [QuadHandler::propSqrBnds_(lx2, rel, mod_rel, changed, p_mods, r_mods)] *)
Definition propSqrBnds_ (lx2 : VariablePtr * LinSqr) (mod_rel : bool)
    (changed : bool) (s : State) : result (bool * bool * State) :=
  let x := lx2.1 in
  let y := sqY lx2.2 in
  vx <- getVariable (p_ s) x ;;
  let '(lb, ub) := BoundsOnSquare (getLb vx) (getUb vx) in
  r <- updatePBounds_ y lb ub mod_rel changed s ;;
  let '(rc, changed, s) := r in
  if (rc <? 0)%Z then Ok (true, changed, s) else
  (* other direction. *)
  vy <- getVariable (p_ s) y ;;
  vx <- getVariable (p_ s) x ;;
  if getUb vy >? aTol_ then
    let ub := sqrt (getUb vy) in
    let lb := - ub in
    _ <- assert (getLb vy >=? Fin 0) ;;
    let lb :=
      if getLb vx >? - sqrt (getLb vy) + aTol_ then sqrt (getLb vy) else lb in
    r <- updatePBounds_ x lb ub mod_rel changed s ;;
    let '(rc, changed, s) := r in
    if (rc <? 0)%Z then Ok (true, changed, s) else Ok (false, changed, s)
  else if getUb vx <? - aTol_ then
    Ok (true, changed, s)
  else
    r <- updatePBounds_ x (Fin 0) (Fin 0) mod_rel changed s ;;
    let '(rc, changed, s) := r in
    if (rc <? 0)%Z then Ok (true, changed, s) else Ok (false, changed, s).

(** *** Envelope refresh *)

(** [QuadHandler::upSqCon_] *)
Definition upSqCon_ (con : option nat) (x y : VariablePtr) (s : State)
  : result State :=
  ci <- deref con ;;
  c <- at_index (cons_ (rel_ s)) ci ;;
  let lf := getLinearFunction c in
  let a_x := getWeight lf x in
  let a_y := getWeight lf y in
  vx <- getVariable (rel_ s) x ;;
  let lb := getLb vx in
  let ub := getUb vx in
  _ <- assert (fabs (a_y - Fin 1) <=? Fin 1e-8) ;;
  (* y - (lb+ub)x <= -ub*lb *)
  if (lb * lb + a_x * lb <? conUb c - aTol_)
     || (ub * ub + a_x * ub <? conUb c - aTol_)
  then
    r <- getNewSqLf_ x y (getLb vx) (getUb vx) ;;
    let '(lf, rhs) := r in
    let lmod := LinConMod ci lf (- INFINITY) rhs in
    rel <- applyToProblem lmod (rel_ s) ;;
    Ok (mkState (p_ s) rel (p_mods s) (r_mods s ++ [lmod]))
  else Ok s.

(** One of the four blocks of [upBilCon_]: [binding] is the test on the
    three corners, [type] the number of the inequality. *)
Definition upBilCon_one (con : option nat) (binding : double -> double -> double -> bool)
    (x0 : VariablePtr) (l0 u0 : double) (x1 : VariablePtr) (l1 u1 : double)
    (y : VariablePtr) (type : nat) (s : State) : result State :=
  ci <- deref con ;;
  c <- at_index (cons_ (rel_ s)) ci ;;
  let lf := getLinearFunction c in
  let a0 := getWeight lf x0 in
  let a1 := getWeight lf x1 in
  if binding a0 a1 (conUb c) then
    r <- getNewBilLf_ x0 l0 u0 x1 l1 u1 y type ;;
    let '(lf, rhs) := r in
    let lmod := LinConMod ci lf (- INFINITY) rhs in
    rel <- applyToProblem lmod (rel_ s) ;;
    Ok (mkState (p_ s) rel (p_mods s) (r_mods s ++ [lmod]))
  else Ok s.

(** [QuadHandler::upBilCon_] *)
Definition upBilCon_ (lx0x1 : LinBil) (s : State) : result State :=
  let y := getY lx0x1 in
  let x0 := getX0 lx0x1 in
  let x1 := getX1 lx0x1 in
  _ <- getVariable (rel_ s) y ;;
  v0 <- getVariable (rel_ s) x0 ;;
  v1 <- getVariable (rel_ s) x1 ;;
  let l0 := getLb v0 in
  let u0 := getUb v0 in
  let l1 := getLb v1 in
  let u1 := getUb v1 in
  (* y >= l1x0 + l0x1 - l1l0: binding at (l0, l1), (l0, u1), (u0,l1) *)
  s <- upBilCon_one (getC0 lx0x1)
         (fun a0 a1 cub =>
            (a0 * l0 + a1 * l1 - l0 * l1 <? cub - aTol_)
            || (a0 * l0 + a1 * u1 - l0 * u1 <? cub - aTol_)
            || (a0 * u0 + a1 * l1 - u0 * l1 <? cub - aTol_))
         x0 l0 u0 x1 l1 u1 y 0 s ;;
  (* y >= u0x1 + u1x0 - u1u0: binding at (l0, u1), (u0, l1), (u0, u1) *)
  s <- upBilCon_one (getC1 lx0x1)
         (fun a0 a1 cub =>
            (a0 * l0 + a1 * u1 - l0 * u1 <? cub - aTol_)
            || (a0 * u0 + a1 * l1 - u0 * l1 <? cub - aTol_)
            || (a0 * u0 + a1 * u1 - u0 * u1 <? cub - aTol_))
         x0 l0 u0 x1 l1 u1 y 1 s ;;
  (* y <= u1x0 + l0x1 - l0u1: binding at (l0, 11), (l0, u1), (u0, u1) *)
  s <- upBilCon_one (getC2 lx0x1)
         (fun a0 a1 cub =>
            (a0 * l0 + a1 * l1 + l0 * l1 <? cub - aTol_)
            || (a0 * l0 + a1 * u1 + l0 * u1 <? cub - aTol_)
            || (a0 * u0 + a1 * u1 + u0 * l1 <? cub - aTol_))
         x0 l0 u0 x1 l1 u1 y 2 s ;;
  (* y <= l1x0 + u0x1 - u0l1: binding at (l0, l1), (u0, l1), (u0, u1) *)
  s <- upBilCon_one (getC3 lx0x1)
         (fun a0 a1 cub =>
            (a0 * l0 + a1 * l1 + l0 * l1 <? cub - aTol_)
            || (a0 * u0 + a1 * l1 + u0 * l1 <? cub - aTol_)
            || (a0 * u0 + a1 * u1 + u0 * u1 <? cub - aTol_))
         x0 l0 u0 x1 l1 u1 y 3 s ;;
  Ok s.

(** *** presolveNode *)

(** The first [for] loop of the body of the [while] of [presolveNode]: the
    components are "return true", [lchanged], [changed] and the state. *)
Fixpoint sweepSqr (its : list (VariablePtr * LinSqr)) (mod_rel : bool)
    (lchanged changed : bool) (s : State)
  : result (bool * bool * bool * State) :=
  match its with
  | [] => Ok (false, lchanged, changed, s)
  | it :: rest =>
      r <- propSqrBnds_ it mod_rel lchanged s ;;
      let '(is_inf, lchanged, s) := r in
      let changed := if lchanged then true else changed in
      if is_inf then Ok (true, lchanged, changed, s)
      else sweepSqr rest mod_rel lchanged changed s
  end.

(** The second [for] loop of the body of the [while]. *)
Fixpoint sweepBil (its : list LinBil) (mod_rel : bool)
    (lchanged changed : bool) (s : State)
  : result (bool * bool * bool * State) :=
  match its with
  | [] => Ok (false, lchanged, changed, s)
  | it :: rest =>
      r <- propBilBnds_ it mod_rel lchanged s ;;
      let '(is_inf, lchanged, s) := r in
      let changed := if lchanged then true else changed in
      if is_inf then Ok (true, lchanged, changed, s)
      else sweepBil rest mod_rel lchanged changed s
  end.

(** One pass of the body of the [while]: all square terms, then all bilinear
    terms. *)
Definition sweep (h : QuadHandler) (changed : bool) (s : State)
  : result (bool * bool * bool * State) :=
  let lchanged := false in
  r <- sweepSqr (x2Funs_ h) (modRel_ h) lchanged changed s ;;
  let '(is_inf, lchanged, changed, s) := r in
  if is_inf then Ok (true, lchanged, changed, s)
  else sweepBil (x0x1Funs_ h) (modRel_ h) lchanged changed s.

(** The loop [while (true==changed) { ... }] of [presolveNode]. *)
Fixpoint presolveNode_while (fuel : nat) (h : QuadHandler)
    (lchanged changed : bool) (s : State) : result (bool * State) :=
  if changed then
    match fuel with
    | O => OutOfFuel
    | S fuel =>
        r <- sweep h changed s ;;
        let '(is_inf, lchanged, changed, s) := r in
        if is_inf then Ok (true, s)
        else presolveNode_while fuel h lchanged changed s
    end
  else Ok (false, s).

(** The two loops after the [while]: the envelopes are refreshed. *)
Fixpoint upSqCons (its : list (VariablePtr * LinSqr)) (s : State)
  : result State :=
  match its with
  | [] => Ok s
  | it :: rest =>
      _ <- getVariable (rel_ s) it.1 ;;
      _ <- getVariable (rel_ s) (sqY it.2) ;;
      s <- upSqCon_ (oeCon it.2) it.1 (sqY it.2) s ;;
      upSqCons rest s
  end.

Fixpoint upBilCons (its : list LinBil) (s : State) : result State :=
  match its with
  | [] => Ok s
  | it :: rest => s <- upBilCon_ it s ;; upBilCons rest s
  end.

(** [QuadHandler::presolveNode]: [true] stands for "infeasible". *)
Definition presolveNode (fuel : nat) (h : QuadHandler) (s : State)
  : result (bool * State) :=
  let lchanged := true in
  let changed := false in
  r <- presolveNode_while fuel h lchanged changed s ;;
  let '(returned, s) := r in
  if returned then Ok (true, s) else
  s <- upSqCons (x2Funs_ h) s ;;
  s <- upBilCons (x0x1Funs_ h) s ;;
  Ok (false, s).

(** *** Bound propagation in presolve *)

(** [QuadHandler::updatePBounds_(v, lb, ub, changed)] *)
Definition updatePBounds_pre (v : VariablePtr) (lb ub : double)
    (changed : bool) (p : Problem) : result (Z * bool * Problem) :=
  var <- getVariable p v ;;
  if (ub <? getLb var - aTol_) || (lb >? getUb var + aTol_) then
    Ok ((-1)%Z, changed, p)
  else
    r <- (if ub <? getUb var - aTol_
          then p <- changeBound p v Upper ub ;; Ok (true, p)
          else Ok (changed, p)) ;;
    let '(changed, p) := r in
    var <- getVariable p v ;;
    r <- (if lb >? getLb var + aTol_
          then p <- changeBound p v Lower lb ;; Ok (true, p)
          else Ok (changed, p)) ;;
    let '(changed, p) := r in
    Ok (0%Z, changed, p).

(** [QuadHandler::propBilBnds_(lx0x1, changed)] *)
Definition propBilBnds_pre (lx0x1 : LinBil) (changed : bool) (p : Problem)
  : result (bool * bool * Problem) :=
  let x0 := getX0 lx0x1 in
  let x1 := getX1 lx0x1 in
  let y := getY lx0x1 in
  v0 <- getVariable p x0 ;;
  v1 <- getVariable p x1 ;;
  let '(lb, ub) := BoundsOnProduct (getLb v0) (getUb v0) (getLb v1) (getUb v1) in
  r <- updatePBounds_pre y lb ub changed p ;;
  let '(rc, changed, p) := r in
  if (rc <? 0)%Z then Ok (true, changed, p) else
  (* reverse *)
  vy <- getVariable p y ;;
  v0 <- getVariable p x0 ;;
  let '(lb, ub) := BoundsOnDiv (getLb vy) (getUb vy) (getLb v0) (getLb v0) in
  r <- updatePBounds_pre x1 lb ub changed p ;;
  let '(rc, changed, p) := r in
  if (rc <? 0)%Z then Ok (true, changed, p) else
  vy <- getVariable p y ;;
  v1 <- getVariable p x1 ;;
  let '(lb, ub) := BoundsOnDiv (getLb vy) (getUb vy) (getLb v1) (getLb v1) in
  r <- updatePBounds_pre x0 lb ub changed p ;;
  let '(rc, changed, p) := r in
  if (rc <? 0)%Z then Ok (true, changed, p) else
  Ok (false, changed, p).

(** [QuadHandler::propSqrBnds_(lx2, changed)] *)
Definition propSqrBnds_pre (lx2 : VariablePtr * LinSqr) (changed : bool)
    (p : Problem) : result (bool * bool * Problem) :=
  let x := lx2.1 in
  let y := sqY lx2.2 in
  vx <- getVariable p x ;;
  let '(lb, ub) := BoundsOnSquare (getLb vx) (getUb vx) in
  r <- updatePBounds_pre y lb ub changed p ;;
  let '(rc, changed, p) := r in
  if (rc <? 0)%Z then Ok (true, changed, p) else
  (* other direction. *)
  vy <- getVariable p y ;;
  vx <- getVariable p x ;;
  if getUb vy >? aTol_ then
    let ub := sqrt (getUb vy) in
    let lb := - ub in
    _ <- assert (getLb vy >=? Fin 0) ;;
    let lb :=
      if getLb vx >? - sqrt (getLb vy) + aTol_ then sqrt (getLb vy) else lb in
    r <- updatePBounds_pre x lb ub changed p ;;
    let '(rc, changed, p) := r in
    if (rc <? 0)%Z then Ok (true, changed, p) else Ok (false, changed, p)
  else if getUb vy <? - aTol_ then
    Ok (true, changed, p)
  else
    r <- updatePBounds_pre x (Fin 0) (Fin 0) changed p ;;
    let '(rc, changed, p) := r in
    if (rc <? 0)%Z then Ok (true, changed, p) else Ok (false, changed, p).

(** *** Initial relaxation *)

(** The first loop of [relax_]: the secant of every square term is added to
    the relaxation and recorded in [oeCon]. *)
Fixpoint relax_sqr (its : list (VariablePtr * LinSqr)) (rel : Relaxation)
  : result (list (VariablePtr * LinSqr) * Relaxation) :=
  match its with
  | [] => Ok ([], rel)
  | it :: rest =>
      let x0 := sqX it.2 in
      let y := sqY it.2 in
      v0 <- getVariable rel x0 ;;
      _ <- getVariable rel y ;;
      r <- getNewSqLf_ x0 y (getLb v0) (getUb v0) ;;
      let '(lf, rhs) := r in
      let '(c, rel) := newConstraint rel lf (- INFINITY) rhs in
      let it := (it.1, mkLinSqr (sqY it.2) (sqX it.2) (Some c)) in
      r <- relax_sqr rest rel ;;
      let '(rest, rel) := r in
      Ok (it :: rest, rel)
  end.

(** The inner loop [for (int i=0; i<4; ++i)] of [relax_], from [i] on:
    the indices [cons[i..3]] and the relaxation. *)
Fixpoint relax_bil_cons (n : nat) (i : nat) (x0 : VariablePtr) (v0 : Var)
    (x1 : VariablePtr) (v1 : Var) (y : VariablePtr) (rel : Relaxation)
  : result (list nat * Relaxation) :=
  match n with
  | O => Ok ([], rel)
  | S n =>
      r <- getNewBilLf_ x0 (getLb v0) (getUb v0) x1 (getLb v1) (getUb v1) y i ;;
      let '(lf, rhs) := r in
      let '(c, rel) := newConstraint rel lf (- INFINITY) rhs in
      r <- relax_bil_cons n (S i) x0 v0 x1 v1 y rel ;;
      let '(cs, rel) := r in
      Ok (c :: cs, rel)
  end.

(** The second loop of [relax_]. *)
Fixpoint relax_bil (its : list LinBil) (rel : Relaxation)
  : result (list LinBil * Relaxation) :=
  match its with
  | [] => Ok ([], rel)
  | it :: rest =>
      let x0 := getX0 it in
      let x1 := getX1 it in
      let y := getY it in
      v0 <- getVariable rel x0 ;;
      v1 <- getVariable rel x1 ;;
      _ <- getVariable rel y ;;
      r <- relax_bil_cons 4 0 x0 v0 x1 v1 y rel ;;
      let '(cs, rel) := r in
      match cs with
      | [c0; c1; c2; c3] =>
          let it := setCons it c0 c1 c2 c3 in
          r <- relax_bil rest rel ;;
          let '(rest, rel) := r in
          Ok (it :: rest, rel)
      | _ => Abort
      end
  end.

(** [QuadHandler::relax_] (the final assertion on [checkConVars], a check of
    the back-references of the variables, is not modelled). *)
Definition relax_ (h : QuadHandler) (rel : Relaxation)
  : result (QuadHandler * Relaxation) :=
  r <- relax_sqr (x2Funs_ h) rel ;;
  let '(sqs, rel) := r in
  r <- relax_bil (x0x1Funs_ h) rel ;;
  let '(bils, rel) := r in
  Ok (mkQuadHandler (modProb_ h) (modRel_ h) sqs bils, rel).

(** *** Separation *)

(** The test of [separate] on one square term. *)
Definition sepCandidate (xval yval : double) : bool :=
  (xval * xval >? (Fin 1 + Fin 1e-4) * fabs yval)
  && (fabs (xval * xval - yval) >? Fin 1e-5).

(** The loop of [QuadHandler::separate]. *)
Fixpoint separate_loop (fuel : nat) (its : list (VariablePtr * LinSqr))
    (x : nat -> double) (rel : Relaxation) (status : SeparationStatus)
  : result (Relaxation * SeparationStatus) :=
  match its with
  | [] => Ok (rel, status)
  | it :: rest =>
      let xval := x it.1 in
      let yval := x (sqY it.2) in
      if sepCandidate xval yval then
        r <- findLinPt_ fuel xval yval ;;
        let '(xl, yl) := r in
        _ <- getVariable rel it.1 ;;
        _ <- getVariable rel (sqY it.2) ;;
        let '(rel, ifcuts) := addCut_ it.1 (sqY it.2) xl yl xval yval rel in
        let status := if ifcuts then SepaResolve else status in
        separate_loop fuel rest x rel status
      else separate_loop fuel rest x rel status
  end.

(** [QuadHandler::separate] *)
Definition separate (fuel : nat) (h : QuadHandler) (x : nat -> double)
    (rel : Relaxation) (status : SeparationStatus)
  : result (Relaxation * SeparationStatus) :=
  separate_loop fuel (x2Funs_ h) x rel status.

(** *** Branching *)

Record BrVarCand : Type := mkBrVarCand {
  getVar : VariablePtr;
  getDDist : double;
  getUDist : double
}.

(** A branch: the modifications of the original problem ([addPMod]), those of
    the relaxation ([addRMod]) and the activity. *)
Record Branch : Type := mkBranch {
  pMods : ModVector;
  rMods : ModVector;
  getActivity : double
}.

(** [QuadHandler::getBranches]: the down branch, then the up branch.  [orig]
    is the original problem of the relaxation ([getOriginalVar]). *)
Definition getBranches (h : QuadHandler) (cand : BrVarCand) (x : nat -> double)
    (orig : Problem) (rel : Relaxation) : result (list Branch) :=
  let v := getVar cand in
  vv <- getVariable rel v ;;
  let value := x v in
  (* can't branch on something that is at its bounds. *)
  _ <- assert ((value >? getLb vv + Fin 1e-8) && (value <? getUb vv - Fin 1e-8)) ;;
  (* down branch *)
  r <- (if modProb_ h
        then _ <- getVariable orig v ;; Ok [VarBoundMod v Upper value]
        else Ok []) ;;
  let pm := r in
  let rm := if modRel_ h then [VarBoundMod v Upper value] else [] in
  let down := mkBranch pm rm (Fin 0.5) in
  (* up branch *)
  let pm := if modProb_ h then [VarBoundMod v Lower value] else [] in
  let rm := if modRel_ h then [VarBoundMod v Lower value] else [] in
  let up := mkBranch pm rm (Fin 0.5) in
  Ok [down; up].

(** Modelled from the spec: [x2Funs_.find(x0)].  The type of the map is
    declared in QuadHandler.h, which is not among the sources; a record is
    found by the identity of the variable, which the copy of a variable in the
    relaxation shares with its original, here the index. *)
Fixpoint find_x2 (its : list (VariablePtr * LinSqr)) (x0 : VariablePtr)
  : option LinSqr :=
  match its with
  | [] => None
  | it :: rest => if Nat.eqb it.1 x0 then Some it.2 else find_x2 rest x0
  end.

(** Modelled from the spec: [LinMods::insert] (LinMods.cpp is not among the
    sources).  A [LinMods] holds "a list of Modification values to apply
    going down"; the new modification is put at its end. *)
Definition LinMods_insert (lmods : ModVector) (m : Modification) : ModVector :=
  lmods ++ [m].

(** The loop of [getBrMod] over the bilinear records; [x0] is the variable of
    the candidate as an object, [lmods] the list held by the current [LinMods]
    object. *)
Fixpoint getBrMod_bil (its : list LinBil) (x0 : VarObj) (lb ub : double)
    (p : Problem) (lmods : ModVector) : result ModVector :=
  match its with
  | [] => Ok lmods
  | mcc :: rest =>
      match getOtherX mcc x0 with
      | Some x1 =>
          (* This term contains x0 and x1. *)
          let y := getY mcc in
          let lmods : ModVector := [] in
          v1 <- getVariable p x1 ;;
          let '(lb1, ub1) := BoundsOnProduct lb ub (getLb v1) (getUb v1) in
          let b2mod := VarBoundMod2 y lb1 ub1 in
          let lmods := LinMods_insert lmods b2mod in
          getBrMod_bil rest x0 lb ub p lmods
      | None => getBrMod_bil rest x0 lb ub p lmods
      end
  end.

(** [QuadHandler::getBrMod].  [own] says whose object the variable of the
    candidate is: a variable of the relaxation [rel], as for the candidates
    of [getBranchingCandidates], or a variable of the problem [p] of the
    handler; its bounds are read from that object.  [p] holds the variables
    of the records of the handler. *)
Definition getBrMod (h : QuadHandler) (own : Owner) (cand : BrVarCand)
    (xval : nat -> double) (p : Problem) (rel : Relaxation)
    (dir : BranchDirection) : result Modification :=
  let rhs := Fin 0 in
  let x0 := getVar cand in
  v0 <- getVariable (match own with OfProblem => p | OfRelaxation => rel end)
          x0 ;;
  let '(lb, ub, b2, lu) :=
    match dir with
    | DownBranch => (getLb v0, xval x0, xval x0, Upper)
    | UpBranch => (xval x0, getUb v0, xval x0, Lower)
    end in
  (* first find if we have secants associated with x0 *)
  match find_x2 (x2Funs_ h) x0 with
  | Some s_it =>
      let y := sqY s_it in
      let cons := oeCon s_it in
      Ok (SecantMod cons None rhs x0 lu b2 y)
  | None =>
      (* also try to find any LinBil inequalities associated with x0 *)
      lmods <- getBrMod_bil (x0x1Funs_ h) (mkVarObj own x0) lb ub p [] ;;
      let bmod := VarBoundMod x0 lu b2 in
      let lmods := LinMods_insert lmods bmod in
      Ok (LinMods lmods)
  end.

End QuadHandler.

(* ===================================================================== *)
(** ** Statements about points and constraints *)
(* ===================================================================== *)

(** The point gives [x] and [y] finite values with [y = x^2]. *)
Definition on_parabola (pt : nat -> double) (x y : VariablePtr) : Prop :=
  exists t s : Q, pt x = Fin t /\ pt y = Fin s /\ (s == t * t)%Q.

(** A primal solution with finite entries. *)
Definition finite_point (q : nat -> Q) : nat -> double := fun i => Fin (q i).

(** The gradient inequality [2 xl x - y <= xl^2] as a constraint of the
    relaxation. *)
Definition gradientCut (x y : VariablePtr) (xl : double) : Constraint :=
  mkConstraint [(x, Fin 2 * xl); (y, Fin (-1))] NInf (xl * xl).

(** The test of [addCut_] on finite values, as a statement on rationals. *)
Definition cutViolated (ql xv yv : Q) : Prop :=
  (2 * ql * xv - yv - ql * ql > 1e-5 /\
   2 * ql * xv - yv > ql * ql * (1 + 1e-4))%Q.

(** Golden-section search as the specification describes it: a bracket
    [gsLo, gsHi], two interior points [gsLeft] and [gsRight] placed with the
    ratio [0.618], and a step that keeps the part of the bracket on the side
    of the interior point with the smaller objective, reusing the other
    interior point; the search ends when the bracket is no wider than the
    tolerance [1e-4] and answers the left interior point. *)
Record GoldenSection : Type := mkGoldenSection {
  gsLo : double;
  gsLeft : double;
  gsRight : double;
  gsHi : double
}.

Definition gsRatio : double := Fin 0.618.
Definition gsTolerance : double := Fin 1e-4.

Definition gsStart (lo hi : double) : GoldenSection :=
  mkGoldenSection lo (hi - gsRatio * (hi - lo)) (lo + gsRatio * (hi - lo)) hi.

Definition gsStep (f : double -> double) (s : GoldenSection) : GoldenSection :=
  if f (gsRight s) <? f (gsLeft s)
  then mkGoldenSection (gsLeft s) (gsRight s)
         (gsLeft s + gsRatio * (gsHi s - gsLeft s)) (gsHi s)
  else mkGoldenSection (gsLo s)
         (gsRight s - gsRatio * (gsRight s - gsLo s)) (gsLeft s) (gsRight s).

(** The bracket is still wider than the tolerance. *)
Definition gsOpen (s : GoldenSection) : bool :=
  gsHi s - gsLo s >? gsTolerance.

Fixpoint gsIter (f : double -> double) (n : nat) (s : GoldenSection)
  : GoldenSection :=
  match n with
  | O => s
  | S n => gsIter f n (gsStep f s)
  end.

(** The search from [s] ends after exactly [n] steps. *)
Definition gsEndsAt (f : double -> double) (n : nat) (s : GoldenSection)
  : Prop :=
  (forall k, (k < n)%nat -> gsOpen (gsIter f k s) = true) /\
  gsOpen (gsIter f n s) = false.

(** A bracket of width at most [W], whose interior points are off their
    places (at [0.382] of the width from each end) by at most [E], is no
    wider than the tolerance after [n] steps.  One step turns the bounds
    [W], [E] into [0.618 W + E] and [0.000076 W + E]. *)
Fixpoint gsFits (n : nat) (W E : Q) : bool :=
  Qle_bool W 1e-4
  || match n with
     | O => false
     | S n => gsFits n (Qred (0.618 * W + E)) (Qred (0.000076 * W + E))
     end.

(** The finite state of a search with those bounds. *)
Definition gsWithin (W E : Q) (s : GoldenSection) : Prop :=
  exists a la mu b : Q,
    s = mkGoldenSection (Fin a) (Fin la) (Fin mu) (Fin b) /\
    (b - a <= W /\
     - E <= (la - a) - 0.382 * (b - a) <= E /\
     - E <= (b - mu) - 0.382 * (b - a) <= E /\
     ((la - a) - 0.382 * (b - a) == 0 \/ (b - mu) - 0.382 * (b - a) == 0))%Q.

(** A constraint [c] is the secant [y - (l+u) x <= -l u] of the parabola on
    [l, u], the line through [(l, l^2)] and [(u, u^2)]. *)
Definition isSecant (x y : VariablePtr) (l u : Q) (c : Constraint) : Prop :=
  conLb c = NInf /\
  (forall pt a b, pt x = Fin a -> pt y = Fin b ->
     (satisfies c pt = true <-> (b - (l + u) * a <= - (l * u))%Q)) /\
  (forall pt b, pt x = Fin l -> pt y = Fin b -> (b == l * l)%Q ->
     deq (evalLf (getLinearFunction c) pt) (conUb c)) /\
  (forall pt b, pt x = Fin u -> pt y = Fin b -> (b == u * u)%Q ->
     deq (evalLf (getLinearFunction c) pt) (conUb c)).

(** A constraint [c] is the bound [y <= r]. *)
Definition isUpperBound (y : VariablePtr) (r : Q) (c : Constraint) : Prop :=
  conLb c = NInf /\
  (forall pt b, pt y = Fin b -> (satisfies c pt = true <-> (b <= r)%Q)).

(* ===================================================================== *)
(** ** Concrete inputs *)
(* ===================================================================== *)

(** A square root for the examples: [sqrt] rounded down to twelve
    decimals. *)
Definition sqrtQ_approx (q : Q) : Q :=
  (Z.sqrt (Qnum q * 10 ^ 24 / Z.pos (Qden q)) # 10 ^ 12)%Q.

(** One square term [y = x^2] with [x] the variable 0 in [1, 2] and [y] the
    variable 1 in [0, 100]; the relaxation holds the secant
    [y - 3x <= -2]. *)
Definition sqr_handler : QuadHandler :=
  mkQuadHandler true true [(0%nat, mkLinSqr 1 0 (Some 0%nat))] [].

Definition sqr_problem : Problem :=
  mkProblem [mkVariable (Fin 1) (Fin 2); mkVariable (Fin 0) (Fin 100)] [].

Definition sqr_relaxation : Relaxation :=
  mkProblem (vars_ sqr_problem)
    [mkConstraint [(1%nat, Fin 1); (0%nat, Fin (-3))] NInf (Fin (-2))].

Definition sqr_state : State :=
  mkState sqr_problem sqr_relaxation [] [].

(** The solution [x = 2], [y = 1] of a relaxation, which violates
    [y >= x^2]. *)
Definition sqr_point : nat -> double :=
  fun i => match i with O => Fin 2 | _ => Fin 1 end.

(** The solution [x = 1], [y = 0.81], close to the parabola. *)
Definition close_point : nat -> double :=
  fun i => match i with O => Fin 1 | _ => Fin 0.81 end.



(** The relaxation after [separate] has run on [sqr_point]. *)
Definition sqr_separated :=
  Eval vm_compute in
  match separate sqrtQ_approx 60 sqr_handler sqr_point sqr_relaxation
          SepaContinue with
  | Ok (rel, _) => rel
  | _ => sqr_relaxation
  end.

(** The McCormick inequality number [i] of the box [l0,u0] x [l1,u1] at the
    point [(a, b, c)] for [(x0, x1, y)]. *)
Definition mcCormick (i : nat) (l0 u0 l1 u1 a b c : Q) : Prop :=
  match i with
  | 0%nat => (c >= l1 * a + l0 * b - l0 * l1)%Q
  | 1%nat => (c >= u1 * a + u0 * b - u0 * u1)%Q
  | 2%nat => (c <= u1 * a + l0 * b - l0 * u1)%Q
  | _ => (c <= l1 * a + u0 * b - u0 * l1)%Q
  end.

(** The corner of the box at which the inequality number [i] is tight. *)
Definition mcCorner (i : nat) (l0 u0 l1 u1 : Q) : Q * Q :=
  match i with
  | 0%nat => (l0, l1)
  | 1%nat => (u0, u1)
  | 2%nat => (l0, u1)
  | _ => (u0, l1)
  end.

(** A constraint [c] is the McCormick inequality number [i] in the form
    [lf <= rhs], and holds with equality at its corner. *)
Definition isMcCormick (i : nat) (x0 x1 y : VariablePtr) (l0 u0 l1 u1 : Q)
    (c : Constraint) : Prop :=
  conLb c = NInf /\
  (forall pt a b cy, pt x0 = Fin a -> pt x1 = Fin b -> pt y = Fin cy ->
     (satisfies c pt = true <-> mcCormick i l0 u0 l1 u1 a b cy)) /\
  (forall pt cy, pt x0 = Fin (mcCorner i l0 u0 l1 u1).1 ->
     pt x1 = Fin (mcCorner i l0 u0 l1 u1).2 -> pt y = Fin cy ->
     (cy == (mcCorner i l0 u0 l1 u1).1 * (mcCorner i l0 u0 l1 u1).2)%Q ->
     deq (evalLf (getLinearFunction c) pt) (conUb c)).

(** One bilinear term [y = x0*x1] on the box [0,1] x [0,1]: the variables
    0, 1 and 2. *)
Definition bil_handler : QuadHandler :=
  mkQuadHandler true true [] [newLinBil 0 1 2].

Definition bil_problem : Problem :=
  mkProblem [mkVariable (Fin 0) (Fin 1); mkVariable (Fin 0) (Fin 1);
             mkVariable (Fin 0) (Fin 1)] [].

(** One square term [y = x^2] with [x] the variable 0 in [0, 0.000005] and
    [y] the variable 1 in [0, 1]. *)
Definition tiny_handler : QuadHandler :=
  mkQuadHandler true true [(0%nat, mkLinSqr 1 0 None)] [].

Definition tiny_problem : Problem :=
  mkProblem [mkVariable (Fin 0) (Fin 0.000005); mkVariable (Fin 0) (Fin 1)] [].

(** The end point [(u, u^2)] of the parabola on [0, 0.000005]. *)
Definition tiny_point : nat -> double :=
  fun i => match i with O => Fin 0.000005 | _ => Fin 0.000000000025 end.

(** The tolerance test of the spec for a term with value [xop] of the
    product or square and value [yv] of the auxiliary variable. *)
Definition tolTest (a_tol r_tol yv xop : Q) : Prop :=
  (Qabs (yv - xop) <= Qmax a_tol (r_tol * Qabs yv))%Q.

(** The test that [isFeasible] applies to a square term: the relative
    tolerance is taken of [|yv| + 1e-6]. *)
Definition tolTestSqr (yv xv : Q) : Prop :=
  (Qabs (yv - xv * xv) <= Qmax 1e-5 (1e-4 * (Qabs yv + 1e-6)))%Q.

(** The solution [x = 1], [y = 1.0001000101]. *)
Definition near_point : nat -> Q :=
  fun i => match i with O => 1 | _ => 1.0001000101 end%Q.


(** The side of the bound that a branch changes. *)
Definition boundOfDir (dir : BranchDirection) : BoundType :=
  match dir with
  | DownBranch => Upper
  | UpBranch => Lower
  end.

(** The candidate [x0] of [bil_handler] and the solution with all values
    [0.5]. *)
Definition bil_cand : BrVarCand := mkBrVarCand 0 (Fin 0) (Fin 0).

Definition half_point : nat -> double := fun _ => Fin 0.5.

(** The bilinear term [y = x0*x1] with [x0 in [1,2]], [x1 in [0,10]] and
    [y in [2,4]]. *)
Definition quot_problem : Problem :=
  mkProblem [mkVariable (Fin 1) (Fin 2); mkVariable (Fin 0) (Fin 10);
             mkVariable (Fin 2) (Fin 4)] [].

Definition quot_state : State := mkState quot_problem quot_problem [] [].

(** A point lies within the bounds of the variables of a problem. *)
Definition inBounds (p : Problem) (pt : list Q) : Prop :=
  Forall2 (fun v q => (getLb v <=? Fin q) = true /\ (Fin q <=? getUb v) = true)
    (vars_ p) pt.

(* ===================================================================== *)
(** ** Replaying modifications, comparing bounds *)
(* ===================================================================== *)

(** The modifications of a list applied in order, as the tree manager does
    when it descends into a node. *)
Fixpoint applyMods (ms : ModVector) (p : Problem) : result Problem :=
  match ms with
  | [] => Ok p
  | m :: rest => p' <- applyToProblem m p ;; applyMods rest p'
  end.

(** [m] changes a bound of a variable. *)
Definition isVarBound (m : Modification) : bool :=
  match m with
  | VarBoundMod _ _ _ | VarBoundMod2 _ _ _ => true
  | _ => false
  end.

(** From [s] to [s'] the modifications [ms] were applied to the problem and
    pushed on [p_mods] and, with [mod_rel], applied to the relaxation and
    pushed on [r_mods]; without it the relaxation and [r_mods] stayed. *)
Definition logged (mod_rel : bool) (ms : ModVector) (s s' : State) : Prop :=
  Forall (fun m => isVarBound m = true) ms /\
  p_mods s' = p_mods s ++ ms /\
  applyMods ms (p_ s) = Ok (p_ s') /\
  if mod_rel
  then r_mods s' = r_mods s ++ ms /\ applyMods ms (rel_ s) = Ok (rel_ s')
  else r_mods s' = r_mods s /\ rel_ s' = rel_ s.

(** [b] is the bound [a] or a larger one. *)
Definition sameOrAbove (a b : double) : Prop := b = a \/ (a <? b) = true.

(** The bounds of every variable of [p] are in [p'] the same or tighter, and
    [p'] has the same number of variables and the same constraints. *)
Definition tightened (p p' : Problem) : Prop :=
  cons_ p' = cons_ p /\
  Forall2 (fun var var' =>
             sameOrAbove (getLb var) (getLb var') /\
             sameOrAbove (getUb var') (getUb var))
    (vars_ p) (vars_ p').

(** The value [q] is within the bounds of [var]. *)
Definition within (var : Var) (q : double) : Prop :=
  (getLb var <=? q) = true /\ (q <=? getUb var) = true.

(** [m] replaces the linear function and the bounds of a constraint. *)
Definition isLinCon (m : Modification) : bool :=
  match m with
  | LinConMod _ _ _ _ => true
  | _ => false
  end.

(** From [s] to [s'] only constraints of the relaxation were rewritten: the
    problem, [p_mods] and the variables of the relaxation are the same, the
    relaxation has as many constraints as before, and [r_mods] has received
    the replacements [ms] that take the relaxation from its old to its new
    state. *)
Definition refreshed (ms : ModVector) (s s' : State) : Prop :=
  p_ s' = p_ s /\ p_mods s' = p_mods s /\
  vars_ (rel_ s') = vars_ (rel_ s) /\
  length (cons_ (rel_ s')) = length (cons_ (rel_ s)) /\
  Forall (fun m => isLinCon m = true) ms /\
  r_mods s' = r_mods s ++ ms /\
  applyMods ms (rel_ s) = Ok (rel_ s').

(** Two bilinear terms that share their first operand: [x2 = x0*x1] and
    [x4 = x0*x3], every variable in [0, 1] but [x3] in [0, 3]. *)
Definition two_bil_handler : QuadHandler :=
  mkQuadHandler true true [] [newLinBil 0 1 2; newLinBil 0 3 4].

Definition two_bil_problem : Problem :=
  mkProblem [mkVariable (Fin 0) (Fin 1); mkVariable (Fin 0) (Fin 1);
             mkVariable (Fin 0) (Fin 1); mkVariable (Fin 0) (Fin 3);
             mkVariable (Fin 0) (Fin 3)] [].

(** The result of [getBrMod] on them for the down branch of [x0] at [0.5],
    the candidate holding the variable of the problem itself. *)
Definition two_bil_brmod : result Modification :=
  Eval vm_compute in
    getBrMod two_bil_handler OfProblem bil_cand half_point two_bil_problem
      two_bil_problem DownBranch.

(** [CompareLinBil::operator()], the order of the set [x0x1Funs_].  It reads
    the ids of the operands; [getId] gives the id of a variable. *)
Definition CompareLinBil (getId : VariablePtr -> nat) (b0 b1 : LinBil)
  : bool :=
  let b0x0 := getId (getX0 b0) in
  let b0x1 := getId (getX1 b0) in
  let b1x0 := getId (getX0 b1) in
  let b1x1 := getId (getX1 b1) in
  if Nat.eqb b0x0 b1x0 then Nat.ltb b0x1 b1x1 else Nat.ltb b0x0 b1x0.

(** The constraint that the record of a square term points to is the one
    that [getNewSqLf_] builds from the bounds that its operand has in [rel]
    now. *)
Definition sqrUpToDate (rel : Relaxation) (it : VariablePtr * LinSqr) : Prop :=
  exists (ci : nat) (vx : Var) (lf : LinearFunction) (rhs : double),
    oeCon it.2 = Some ci /\
    vars_ rel !! it.1 = Some vx /\
    getNewSqLf_ it.1 (sqY it.2) (getLb vx) (getUb vx) = Ok (lf, rhs) /\
    cons_ rel !! ci = Some (mkConstraint lf (- INFINITY) rhs).

(** The same for the constraint number [type] of a bilinear term. *)
Definition bilConUpToDate (rel : Relaxation) (b : LinBil) (con : option nat)
    (type : nat) : Prop :=
  exists (ci : nat) (v0 v1 : Var) (lf : LinearFunction) (rhs : double),
    con = Some ci /\
    vars_ rel !! getX0 b = Some v0 /\
    vars_ rel !! getX1 b = Some v1 /\
    getNewBilLf_ (getX0 b) (getLb v0) (getUb v0)
      (getX1 b) (getLb v1) (getUb v1) (getY b) type = Ok (lf, rhs) /\
    cons_ rel !! ci = Some (mkConstraint lf (- INFINITY) rhs).

Definition bilUpToDate (rel : Relaxation) (b : LinBil) : Prop :=
  bilConUpToDate rel b (getC0 b) 0 /\ bilConUpToDate rel b (getC1 b) 1 /\
  bilConUpToDate rel b (getC2 b) 2 /\ bilConUpToDate rel b (getC3 b) 3.

(** Every record of the handler points to an up-to-date constraint. *)
Definition upToDate (h : QuadHandler) (rel : Relaxation) : Prop :=
  Forall (sqrUpToDate rel) (x2Funs_ h) /\
  Forall (bilUpToDate rel) (x0x1Funs_ h).

(** [rel'] has the variables of [rel] and its constraints, followed by
    others. *)
Definition extends (rel rel' : Relaxation) : Prop :=
  vars_ rel' = vars_ rel /\ exists more, cons_ rel' = cons_ rel ++ more.

(** A square term [x2 = x0^2] and a bilinear term [x3 = x0*x1] on
    [x0 in [1,2]], [x1 in [0,3]], before [relax_]. *)
Definition mixed_handler : QuadHandler :=
  mkQuadHandler true true [(0%nat, mkLinSqr 2 0 None)] [newLinBil 0 1 3].

Definition mixed_problem : Problem :=
  mkProblem [mkVariable (Fin 1) (Fin 2); mkVariable (Fin 0) (Fin 3);
             mkVariable (Fin 0) (Fin 4); mkVariable (Fin 0) (Fin 6)] [].

(** The handler and the relaxation that [relax_] makes of them. *)
Definition mixed_relaxed : QuadHandler * Relaxation :=
  Eval vm_compute in
    match relax_ mixed_handler mixed_problem with
    | Ok r => r
    | _ => (mixed_handler, mixed_problem)
    end.

(* ===================================================================== *)
(** ** Problem.cpp: the size of a problem, its type, integrality *)
(* ===================================================================== *)

From Stdlib Require Import Qround NArith.

(** The enumerations of Types.h. *)
Inductive ProblemType : Type :=
  LP | MILP | QP | MIQP | QCQP | MIQCQP | POLYP | MIPOLYP | NLP | MINLP
  | UnknownProblem.

Inductive FunctionType : Type :=
  Constant | Linear | Bilinear | Multilinear | Quadratic | Nonlinear
  | Polynomial | UnknownFunction.

Inductive VariableType : Type :=
  Binary | Integer | ImplBin | ImplInt | Continuous.

(** [==] on [FunctionType]. *)
Definition FunctionType_eqb (a b : FunctionType) : bool :=
  match a, b with
  | Constant, Constant | Linear, Linear | Bilinear, Bilinear
  | Multilinear, Multilinear | Quadratic, Quadratic | Nonlinear, Nonlinear
  | Polynomial, Polynomial | UnknownFunction, UnknownFunction => true
  | _, _ => false
  end.

(** [UInt] is [unsigned int]: the counters are numbers below [2^32] and
    addition wraps around. *)
Definition UInt_range : N := (2 ^ 32)%N.

Definition uadd (a b : N) : N := ((a + b) mod UInt_range)%N.

(** The fields of [ProblemSize] that the functions below read or write
    ([szCons] is the field [cons]). *)
Record ProblemSize : Type := mkProblemSize {
  szCons : N;
  bins : N;
  ints : N;
  conts : N;
  fixed : N;
  linCons : N;
  bilinCons : N;
  multilinCons : N;
  quadCons : N;
  nonlinCons : N;
  objType : FunctionType
}.

(** [Problem::isLinear]; [size_] is NULL before the first
    [calculateSize]. *)
Definition isLinear (size_ : option ProblemSize) : bool :=
  match size_ with
  | Some sz =>
      if (szCons sz =? linCons sz)%N
         && (FunctionType_eqb Constant (objType sz)
             || FunctionType_eqb Linear (objType sz))
      then true else false
  | None => false
  end.

(** [Problem::isQuadratic] *)
Definition isQuadratic (size_ : option ProblemSize) : bool :=
  match size_ with
  | Some sz =>
      if isLinear size_ then false
      else if (uadd (uadd (linCons sz) (quadCons sz)) (bilinCons sz)
               =? szCons sz)%N
              && (FunctionType_eqb Constant (objType sz)
                  || FunctionType_eqb Linear (objType sz)
                  || FunctionType_eqb Quadratic (objType sz)
                  || FunctionType_eqb Bilinear (objType sz))
      then true else false
  | None => false
  end.

(** [Problem::isQP] *)
Definition isQP (size_ : option ProblemSize) : bool :=
  match size_ with
  | Some sz =>
      if isLinear size_ then false
      else if (linCons sz =? szCons sz)%N
              && (FunctionType_eqb Constant (objType sz)
                  || FunctionType_eqb Linear (objType sz)
                  || FunctionType_eqb Quadratic (objType sz)
                  || FunctionType_eqb Bilinear (objType sz))
      then true else false
  | None => false
  end.

(** The loop of [Problem::isPolyp_] over the constraints; a constraint is
    given by the type of its function, [None] for a NULL function. *)
Fixpoint isPolyp_cons (fs : list (option FunctionType)) : bool :=
  match fs with
  | [] => false
  | f :: rest =>
      match f with
      | Some t =>
          if FunctionType_eqb t Nonlinear || FunctionType_eqb t UnknownFunction
          then false else isPolyp_cons rest
      | None => isPolyp_cons rest
      end
  end.

(** [Problem::isPolyp_]; [obj] is [None] without an objective, [Some None]
    for an objective without a function. *)
Definition isPolyp_ (obj : option (option FunctionType))
    (fs : list (option FunctionType)) : bool :=
  match obj with
  | Some (Some t) =>
      if FunctionType_eqb t Nonlinear || FunctionType_eqb t UnknownFunction
      then false else isPolyp_cons fs
  | _ => isPolyp_cons fs
  end.

(** [Problem::findType] after its call of [calculateSize]: [sz] is the size
    that the call has left in [size_]. *)
Definition findType (sz : ProblemSize) (obj : option (option FunctionType))
    (fs : list (option FunctionType)) : ProblemType :=
  (* size_->bins+size_->ints > 0 *)
  let mixed := (0 <? uadd (bins sz) (ints sz))%N in
  if (szCons sz =? linCons sz)%N
     && (FunctionType_eqb Constant (objType sz)
         || FunctionType_eqb Linear (objType sz))
  then (if mixed then MILP else LP)
  else if (szCons sz =? linCons sz)%N
          && (FunctionType_eqb Quadratic (objType sz)
              || FunctionType_eqb Bilinear (objType sz))
  then (if mixed then MIQP else QP)
  else if (szCons sz
           =? uadd (uadd (linCons sz) (bilinCons sz)) (quadCons sz))%N
          && (FunctionType_eqb Quadratic (objType sz)
              || FunctionType_eqb Bilinear (objType sz))
  then (if mixed then MIQCQP else QCQP)
  else if isPolyp_ obj fs
  then (if mixed then MIPOLYP else POLYP)
  else (if mixed then MINLP else NLP).

(** The loop of [Problem::countConsTypes_] on the function types of the
    constraints: the counters [linCons], [bilinCons], [multilinCons],
    [quadCons] and [nonlinCons]. *)
Fixpoint countConsTypes_loop (ts : list FunctionType)
    (c : N * N * N * N * N) : N * N * N * N * N :=
  match ts with
  | [] => c
  | t :: rest =>
      let '(lin, bilin, multilin, quad, nonlin) := c in
      countConsTypes_loop rest
        match t with
        | Constant (* for now consider it linear *)
        | Linear => (uadd lin 1, bilin, multilin, quad, nonlin)
        | Bilinear => (lin, uadd bilin 1, multilin, quad, nonlin)
        | Multilinear => (lin, bilin, uadd multilin 1, quad, nonlin)
        | Quadratic => (lin, bilin, multilin, uadd quad 1, nonlin)
        | _ => (lin, bilin, multilin, quad, uadd nonlin 1)
        end
  end.

Definition countConsTypes_ (ts : list FunctionType) : N * N * N * N * N :=
  countConsTypes_loop ts (0, 0, 0, 0, 0)%N.

(** The loop of [Problem::countVarTypes_] on the types and bounds of the
    variables: the counters [bins], [ints], [conts] and [fixed]. *)
Fixpoint countVarTypes_loop (vs : list (VariableType * Var))
    (c : N * N * N * N) : N * N * N * N :=
  match vs with
  | [] => c
  | (t, v) :: rest =>
      let '(bins, ints, conts, fixed) := c in
      let '(bins, ints, conts) :=
        match t with
        | Binary => (uadd bins 1, ints, conts)
        | Integer => (bins, uadd ints 1, conts)
        | Continuous => (bins, ints, uadd conts 1)
        | _ => (bins, ints, conts)
        end in
      let fixed := if fabs (getUb v - getLb v) <? Fin 1e-9
                   then uadd fixed 1 else fixed in
      countVarTypes_loop rest (bins, ints, conts, fixed)
  end.

Definition countVarTypes_ (vs : list (VariableType * Var)) : N * N * N * N :=
  countVarTypes_loop vs (0, 0, 0, 0)%N.

(** [floor] of math.h. *)
Definition floor (a : double) : double :=
  match a with
  | Fin q => Fin (inject_Z (Qfloor q))
  | _ => a
  end.

Definition intTol_ : double := Fin 1e-6.

(** The sum [x[i]+0.5] of [Problem::isSolIntegral].  Here the rounding of
    the sum decides the answer, so it is not idealised away where it matters:
    from [2^52] on every double is an integer and the doubles are at least 1
    apart, so [x+0.5] is not a double and the sum is the nearest double, a tie
    going to the even one: below [2^53] that is [x] for an even and [x+1]
    for an odd [x], from [2^53] on it is [x].  Below [2^52] the sum is taken
    as exact, like every other sum. *)
Definition addHalf (a : double) : double :=
  match a with
  | Fin q =>
      if Qltb (Qabs q) (inject_Z (2 ^ 52)) then a + Fin 0.5
      else if Qltb (Qabs q) (inject_Z (2 ^ 53)) && Z.odd (Qfloor q)
      then a + Fin 1
      else a
  | _ => a + Fin 0.5
  end.

(** The loop of [Problem::isSolIntegral] from the variable number [i] on;
    [types] are the types of the variables that are left. *)
Fixpoint isSolIntegral_from (types : list VariableType) (x : nat -> double)
    (i : nat) : bool :=
  match types with
  | [] => true
  | v_type :: rest =>
      if (match v_type with Binary | Integer => true | _ => false end)
         && (fabs (floor (addHalf (x i)) - x i) >? intTol_)
      then false
      else isSolIntegral_from rest x (S i)
  end.

(** [Problem::isSolIntegral] *)
Definition isSolIntegral (types : list VariableType) (x : nat -> double)
  : bool :=
  isSolIntegral_from types x 0.

(** The type of a constraint function is one that the quadratic classes
    allow. *)
Definition atMostQuadratic (t : FunctionType) : bool :=
  match t with
  | Constant | Linear | Bilinear | Quadratic => true
  | _ => false
  end.

Definition atMostLinear (t : FunctionType) : bool :=
  match t with
  | Constant | Linear => true
  | _ => false
  end.

Definition isDiscrete (t : VariableType) : bool :=
  match t with
  | Binary | Integer => true
  | _ => false
  end.

(** The size that [Problem::calculateSize] computes when it recomputes it
    (first call, [shouldRedo], or a modification since the last call), from
    the types and bounds [vs] of the variables, the function types [ts] of
    the constraints and the function type [ot] of the objective
    ([countVarTypes_], [countConsTypes_], [countObjTypes_]). *)
Definition calculateSize (vs : list (VariableType * Var))
    (ts : list FunctionType) (ot : FunctionType) : ProblemSize :=
  let '(bins, ints, conts, fixed) := countVarTypes_ vs in
  let '(lin, bilin, multilin, quad, nonlin) := countConsTypes_ ts in
  mkProblemSize (N.of_nat (length ts) mod UInt_range)%N bins ints conts fixed
    lin bilin multilin quad nonlin ot.

(** The class of a problem read off its data: [lin] and [quad] say that all
    constraints are at most linear or at most quadratic, [ot] is the type of
    the objective, [discrete] says that a variable is binary or integer. *)
Definition classOf (lin quad : bool) (ot : FunctionType) (discrete : bool)
  : ProblemType :=
  match ot with
  | Constant | Linear =>
      if lin then (if discrete then MILP else LP)
      else (if discrete then MINLP else NLP)
  | Quadratic | Bilinear =>
      if lin then (if discrete then MIQP else QP)
      else if quad then (if discrete then MIQCQP else QCQP)
      else (if discrete then MINLP else NLP)
  | _ => if discrete then MINLP else NLP
  end.

(** The number of elements of [l] that satisfy [P]. *)
Fixpoint countIf {A : Type} (P : A -> bool) (l : list A) : N :=
  match l with
  | [] => 0
  | a :: rest => ((if P a then 1 else 0) + countIf P rest)%N
  end.

(** A problem with a quadratic constraint and a linear objective. *)
Definition qcp_size : ProblemSize :=
  Eval vm_compute in
    calculateSize [(Continuous, mkVariable (Fin 0) (Fin 1))]
      [Linear; Quadratic] Linear.

(* ===================================================================== *)
(** ** Presolve *)
(* ===================================================================== *)

Inductive SolveStatus : Type :=
  NotStarted | Started | Restarted | SolvedOptimal | SolvedInfeasible
  | SolvedUnbounded | SolvedGapLimit | SolvedSolsLimit
  | IterationLimitReached | Interrupted | TimeLimitReached | Finished.

(** The first loop of [QuadHandler::varBndsFromCons_]: "return true", the
    flag [*changed] and the problem [p_]. *)
Fixpoint varBndsSqr (sqrtQ : Q -> Q) (its : list (VariablePtr * LinSqr))
    (changed : bool) (p : Problem) : result (bool * bool * Problem) :=
  match its with
  | [] => Ok (false, changed, p)
  | it :: rest =>
      r <- propSqrBnds_pre sqrtQ it changed p ;;
      let '(is_inf, changed, p) := r in
      if is_inf then Ok (true, changed, p)
      else varBndsSqr sqrtQ rest changed p
  end.

(** The second loop. *)
Fixpoint varBndsBil (its : list LinBil) (changed : bool) (p : Problem)
  : result (bool * bool * Problem) :=
  match its with
  | [] => Ok (false, changed, p)
  | it :: rest =>
      r <- propBilBnds_pre it changed p ;;
      let '(is_inf, changed, p) := r in
      if is_inf then Ok (true, changed, p)
      else varBndsBil rest changed p
  end.

(** [QuadHandler::varBndsFromCons_] *)
Definition varBndsFromCons_ (sqrtQ : Q -> Q) (h : QuadHandler)
    (changed : bool) (p : Problem) : result (bool * bool * Problem) :=
  r <- varBndsSqr sqrtQ (x2Funs_ h) changed p ;;
  let '(is_inf, changed, p) := r in
  if is_inf then Ok (true, changed, p)
  else varBndsBil (x0x1Funs_ h) changed p.

(** [QuadHandler::presolve]: the status, [*changed] and the problem. *)
Definition presolve (sqrtQ : Q -> Q) (h : QuadHandler) (p : Problem)
  : result (SolveStatus * bool * Problem) :=
  let status := Finished in
  let changed := false in
  r <- varBndsFromCons_ sqrtQ h changed p ;;
  let '(is_inf, changed, p) := r in
  let status := if is_inf then SolvedInfeasible else status in
  let status := match status with Started => Finished | _ => status end in
  Ok (status, changed, p).

(** From the flag and problem [a] to the flag and problem [b] no bound got
    looser, and either nothing happened or the flag is raised and the problem
    is another one. *)
Definition flagged (a b : bool * Problem) : Prop :=
  tightened a.2 b.2 /\
  ((b.1 = a.1 /\ b.2 = a.2) \/ (b.1 = true /\ b.2 <> a.2)).

(* ===================================================================== *)
(** ** Branching candidates and variable types *)
(* ===================================================================== *)

(** The test of the first loop of [QuadHandler::getBranchingCandidates] on
    one square term: when it holds, [x0] is offered as a candidate. *)
Definition sqrBranchTest (x0val yval : double) : bool :=
  (yval - x0val * x0val) / (fabs yval + Fin 1e-6) >? Fin 1e-4.

(** [--n] on a [UInt]. *)
Definition udecr (a : N) : N := ((a + (UInt_range - 1)) mod UInt_range)%N.

(** The two [switch] statements of [Problem::setVarType]: [f] is applied to
    the counter of the class of [t]. *)
Definition onCounter (t : VariableType) (f : N -> N) (sz : ProblemSize)
  : ProblemSize :=
  match t with
  | Binary | ImplBin =>
      mkProblemSize (szCons sz) (f (bins sz)) (ints sz) (conts sz) (fixed sz)
        (linCons sz) (bilinCons sz) (multilinCons sz) (quadCons sz)
        (nonlinCons sz) (objType sz)
  | Integer | ImplInt =>
      mkProblemSize (szCons sz) (bins sz) (f (ints sz)) (conts sz) (fixed sz)
        (linCons sz) (bilinCons sz) (multilinCons sz) (quadCons sz)
        (nonlinCons sz) (objType sz)
  | _ =>
      mkProblemSize (szCons sz) (bins sz) (ints sz) (f (conts sz)) (fixed sz)
        (linCons sz) (bilinCons sz) (multilinCons sz) (quadCons sz)
        (nonlinCons sz) (objType sz)
  end.

(** [Problem::setVarType]: the size, when there is one, is updated in place
    and the type of the variable is written. *)
Definition setVarType (size_ : option ProblemSize)
    (vs : list (VariableType * Var)) (var : nat) (type : VariableType)
  : result (option ProblemSize * list (VariableType * Var)) :=
  tv <- at_index vs var ;;
  let size_ :=
    match size_ with
    | Some sz =>
        let sz := onCounter tv.1 udecr sz in
        let sz := onCounter type (fun n => uadd n 1) sz in
        Some sz
    | None => None
    end in
  Ok (size_, <[var := (type, tv.2)]> vs).

Definition isImplied (t : VariableType) : bool :=
  match t with
  | ImplBin | ImplInt => true
  | _ => false
  end.

(** The counters of the variables that a size holds. *)
Definition varCounters (sz : ProblemSize) : N * N * N * N :=
  (bins sz, ints sz, conts sz, fixed sz).

(** Two continuous variables, then the first one made an implied binary. *)
Definition two_conts : list (VariableType * Var) :=
  [(Continuous, mkVariable (Fin 0) (Fin 1));
   (Continuous, mkVariable (Fin 0) (Fin 1))].

Definition two_conts_size : ProblemSize :=
  Eval vm_compute in calculateSize two_conts [] Constant.

(** What [countVarTypes_] counts. *)
Definition isBinaryVar (tv : VariableType * Var) : bool :=
  match tv.1 with Binary => true | _ => false end.

Definition isIntegerVar (tv : VariableType * Var) : bool :=
  match tv.1 with Integer => true | _ => false end.

Definition isContinuousVar (tv : VariableType * Var) : bool :=
  match tv.1 with Continuous => true | _ => false end.

Definition isFixedVar (tv : VariableType * Var) : bool :=
  fabs (getUb tv.2 - getLb tv.2) <? Fin 1e-9.

(* ===================================================================== *)
(** ** The search of [findLinPt_] on binary64 *)
(* ===================================================================== *)

(** The doubles of the code are binary64 numbers: an operation gives its
    exact result rounded to the nearest number with 53 significant bits, the
    one with an even last bit of two that are equally near.  Below, that
    rounding is put on top of the exact operations, each operation of the
    source rounding once (no fused multiply-add, no wider intermediate
    results).  The exponent is not bounded: overflow and the subnormal
    numbers are left out, and the search below stays far from both. *)

(** [2^e] for an integer [e]. *)
Definition pow2 (e : Z) : Q :=
  if (0 <=? e)%Z then inject_Z (2 ^ e) else (1 / inject_Z (2 ^ (- e)))%Q.

(** The integer part of the binary logarithm of [|q|], for [q] other than
    zero: [2^(ilog2 q) <= |q| < 2^(ilog2 q + 1)]. *)
Definition ilog2 (q : Q) : Z :=
  let l := (Z.log2 (Z.abs (Qnum q)) - Z.log2 (Z.pos (Qden q)))%Z in
  if Qle_bool (pow2 l) (Qabs q) then l else (l - 1)%Z.

(** The nearest integer, the even one of two that are equally near. *)
Definition roundEven (q : Q) : Z :=
  let k := Qfloor q in
  match (q - inject_Z k ?= 1 / 2)%Q with
  | Lt => k
  | Gt => (k + 1)%Z
  | Eq => if Z.even k then k else (k + 1)%Z
  end.

(** The nearest number with 53 significant bits. *)
Definition round53 (q : Q) : Q :=
  if Qeq_bool q 0 then 0%Q
  else
    let e := (ilog2 q - 52)%Z in
    Qred (inject_Z (roundEven (q / pow2 e)) * pow2 e)%Q.

(** The square root of [q > 0] rounded to 53 significant bits: with
    [2^104 <= q / 4^e < 2^106], the integer part [k] of the root of
    [q / 4^e] has 53 bits, and the root is rounded up when it is beyond
    [k + 1/2]. *)
Definition sqrt53 (q : Q) : Q :=
  let e := ((ilog2 q - 104) / 2)%Z in
  let X := (q / pow2 (2 * e))%Q in
  let k := Z.sqrt (Qfloor X) in
  let h := ((inject_Z k + 1 / 2) * (inject_Z k + 1 / 2))%Q in
  let k :=
    match (X ?= h)%Q with
    | Lt => k
    | Gt => (k + 1)%Z
    | Eq => if Z.even k then k else (k + 1)%Z
    end in
  Qred (inject_Z k * pow2 e)%Q.

Definition rnd (a : double) : double :=
  match a with
  | Fin q => Fin (round53 q)
  | _ => a
  end.

Definition add64 (a b : double) : double := rnd (a + b).
Definition sub64 (a b : double) : double := rnd (a - b).
Definition mul64 (a b : double) : double := rnd (a * b).

Definition sqrt64 (a : double) : double :=
  match a with
  | NaN | NInf => NaN
  | Fin q =>
      if Qltb q 0 then NaN else if Qeq_bool q 0 then Fin 0 else Fin (sqrt53 q)
  | PInf => PInf
  end.

(** Negation and comparison are exact. *)
Definition opp64 (a : double) : double := dopp a.
Definition ltb64 (a b : double) : bool := dltb a b.

Declare Scope b64_scope.
Delimit Scope b64_scope with B.
Arguments add64 (a b)%_B.
Arguments sub64 (a b)%_B.
Arguments mul64 (a b)%_B.
Arguments opp64 a%_B.
Arguments ltb64 (a b)%_B.
Infix "+" := add64 : b64_scope.
Infix "-" := sub64 : b64_scope.
Infix "*" := mul64 : b64_scope.
Notation "- a" := (opp64 a) : b64_scope.
Infix "<?" := ltb64 (at level 70, no associativity) : b64_scope.
Notation "a >? b" := (ltb64 b a) (at level 70, no associativity) : b64_scope.

(** The literals [0.618] and [1e-4] as the compiler reads them. *)
Definition alfa64 : double := rnd (Fin 0.618).
Definition errlim64 : double := rnd (Fin 1e-4).

Definition distVal64 (xval yval t : double) : double :=
  ((t - xval) * (t - xval) + (t * t - yval) * (t * t - yval))%B.

(** The [while] loop of [findLinPt_], as [findLinPt_loop] above. *)
Fixpoint findLinPt64_loop (fuel : nat)
    (xval yval a b mu la mu_val la_val : double) : result double :=
  if ((b - a) >? errlim64)%B then
    match fuel with
    | O => OutOfFuel
    | S fuel =>
        if (mu_val <? la_val)%B then
          let a := la in
          let la := mu in
          let la_val := mu_val in
          let mu := (a + alfa64 * (b - a))%B in
          let mu_val := distVal64 xval yval mu in
          findLinPt64_loop fuel xval yval a b mu la mu_val la_val
        else
          let b := mu in
          let mu := la in
          let mu_val := la_val in
          let la := (b - alfa64 * (b - a))%B in
          let la_val := distVal64 xval yval la in
          findLinPt64_loop fuel xval yval a b mu la mu_val la_val
    end
  else Ok la.

(** [QuadHandler::findLinPt_] on binary64. *)
Definition findLinPt64_ (fuel : nat) (xval yval : double)
  : result (double * double) :=
  let '(a, b) :=
    if (xval >? Fin 0)%B then (sqrt64 yval, xval)
    else (xval, (- sqrt64 yval)%B) in
  let mu := (a + alfa64 * (b - a))%B in
  let la := (b - alfa64 * (b - a))%B in
  let mu_val := distVal64 xval yval mu in
  let la_val := distVal64 xval yval la in
  la <- findLinPt64_loop fuel xval yval a b mu la mu_val la_val ;;
  Ok (la, (la * la)%B).

(** The variables of that loop. *)
Record Search64 : Type := mkSearch64 {
  s_a : double;
  s_b : double;
  s_mu : double;
  s_la : double;
  s_mu_val : double;
  s_la_val : double
}.

(** The guard of the loop and one round of its body. *)
Definition open64 (s : Search64) : bool := ((s_b s - s_a s) >? errlim64)%B.

Definition step64 (xval yval : double) (s : Search64) : Search64 :=
  if (s_mu_val s <? s_la_val s)%B then
    let a := s_la s in
    let mu := (a + alfa64 * (s_b s - a))%B in
    mkSearch64 a (s_b s) mu (s_mu s) (distVal64 xval yval mu) (s_mu_val s)
  else
    let b := s_mu s in
    let la := (b - alfa64 * (b - s_a s))%B in
    mkSearch64 (s_a s) b (s_la s) la (s_la_val s) (distVal64 xval yval la).

Fixpoint iter64 (xval yval : double) (n : nat) (s : Search64) : Search64 :=
  match n with
  | O => s
  | S n => iter64 xval yval n (step64 xval yval s)
  end.

(** The guard holds for the first [n] states from [s]. *)
Fixpoint allOpen64 (xval yval : double) (n : nat) (s : Search64) : bool :=
  match n with
  | O => true
  | S n => open64 s && allOpen64 xval yval n (step64 xval yval s)
  end.

(** The loop on its variables. *)
Definition loop64 (fuel : nat) (xval yval : double) (s : Search64)
  : result double :=
  findLinPt64_loop fuel xval yval (s_a s) (s_b s) (s_mu s) (s_la s)
    (s_mu_val s) (s_la_val s).

(** The variables on entry to the loop. *)
Definition start64 (xval yval : double) : Search64 :=
  let '(a, b) :=
    if (xval >? Fin 0)%B then (sqrt64 yval, xval)
    else (xval, (- sqrt64 yval)%B) in
  let mu := (a + alfa64 * (b - a))%B in
  let la := (b - alfa64 * (b - a))%B in
  mkSearch64 a b mu la (distVal64 xval yval mu) (distVal64 xval yval la).

(** The solution [x = -2e12], [y = 1e24]. *)
Definition far_x : double := Fin (-2000000000000).
Definition far_y : double := rnd (Fin 1e24).

(* ===================================================================== *)
(** ** Arithmetic of doubles *)
(* ===================================================================== *)

Lemma Qltb_lt (a b : Q) : Qltb a b = true <-> (a < b)%Q.
Proof.
  unfold Qltb. rewrite negb_true_iff, <- not_true_iff_false, Qle_bool_iff.
  split; intros H; [apply Qnot_le_lt; exact H | apply Qlt_not_le; exact H].
Qed.

Lemma Qltb_ge (a b : Q) : Qltb a b = false <-> (b <= a)%Q.
Proof. unfold Qltb. rewrite negb_false_iff. apply Qle_bool_iff. Qed.

Lemma Qle_bool_gt (a b : Q) : Qle_bool a b = false <-> (b < a)%Q.
Proof.
  rewrite <- not_true_iff_false, Qle_bool_iff.
  split; intros H; [apply Qnot_le_lt; exact H | apply Qlt_not_le; exact H].
Qed.

#[local] Instance Qltb_comp : Proper (Qeq ==> Qeq ==> eq) Qltb.
Proof. intros a b Hab c d Hcd. unfold Qltb. now rewrite Hab, Hcd. Qed.

Lemma Qltb_spec (a b : Q) : reflect (a < b)%Q (Qltb a b).
Proof.
  destruct (Qltb a b) eqn:E; constructor.
  - now apply Qltb_lt.
  - apply Qltb_ge in E. now apply Qle_not_lt.
Qed.

Lemma Qle_bool_spec (a b : Q) : reflect (a <= b)%Q (Qle_bool a b).
Proof.
  destruct (Qle_bool a b) eqn:E; constructor.
  - now apply Qle_bool_iff.
  - apply Qle_bool_gt in E. now apply Qlt_not_le.
Qed.

Lemma sq_nonneg (a : Q) : (0 <= a * a)%Q.
Proof.
  destruct (Qlt_le_dec a 0) as [H|H].
  - assert (E : (a * a == (- a) * (- a))%Q) by ring.
    rewrite E. apply Qmult_le_0_compat; lra.
  - apply Qmult_le_0_compat; lra.
Qed.

(** The literals written with an exponent ([1e-5], [1e21]) are quotients and
    products by a power of ten; [lra] wants them as fractions. *)
Ltac qlits :=
  repeat match goal with
  | |- context [Qdiv ?a (Qmake (Z.pow_pos ?b ?c) ?d)] =>
      let v := eval vm_compute in (Qdiv a (Qmake (Z.pow_pos b c) d)) in
      change (Qdiv a (Qmake (Z.pow_pos b c) d)) with v in *
  | |- context [Qmult ?a (Qmake (Z.pow_pos ?b ?c) ?d)] =>
      let v := eval vm_compute in (Qmult a (Qmake (Z.pow_pos b c) d)) in
      change (Qmult a (Qmake (Z.pow_pos b c) d)) with v in *
  | H : context [Qdiv ?a (Qmake (Z.pow_pos ?b ?c) ?d)] |- _ =>
      let v := eval vm_compute in (Qdiv a (Qmake (Z.pow_pos b c) d)) in
      change (Qdiv a (Qmake (Z.pow_pos b c) d)) with v in *
  | H : context [Qmult ?a (Qmake (Z.pow_pos ?b ?c) ?d)] |- _ =>
      let v := eval vm_compute in (Qmult a (Qmake (Z.pow_pos b c) d)) in
      change (Qmult a (Qmake (Z.pow_pos b c) d)) with v in *
  end.

Ltac qlra := qlits; lra.

(** Unfold the operations of doubles on finite arguments. *)
Ltac dsimpl :=
  cbn [dadd dsub dmul dopp fabs dltb dleb dmin dmax is_nan is_finite
       INFINITY inf_of_sign andb orb negb].

Ltac dsimpl_in H :=
  cbn [dadd dsub dmul dopp fabs dltb dleb dmin dmax is_nan is_finite
       INFINITY inf_of_sign andb orb negb] in H.

(** Turn the boolean comparisons of rationals of the goal and the context
    into propositions, and drop the reductions to lowest terms. *)
Ltac qprop :=
  repeat match goal with
  | H : context [Qred _] |- _ => rewrite Qred_correct in H
  | |- context [Qred _] => rewrite Qred_correct
  | H : Qltb _ _ = true |- _ => apply Qltb_lt in H
  | H : Qltb _ _ = false |- _ => apply Qltb_ge in H
  | H : Qle_bool _ _ = true |- _ => apply Qle_bool_iff in H
  | H : Qle_bool _ _ = false |- _ => apply Qle_bool_gt in H
  | |- Qltb _ _ = true => apply Qltb_lt
  | |- Qltb _ _ = false => apply Qltb_ge
  | |- Qle_bool _ _ = true => apply Qle_bool_iff
  | |- Qle_bool _ _ = false => apply Qle_bool_gt
  end.

Lemma dsub_PInf_not_gt (a c : double) : (a - PInf >? c) = false.
Proof. destruct a, c; reflexivity. Qed.

(* ===================================================================== *)
(** ** Separation *)
(* ===================================================================== *)

Lemma findLinPt_yl (sqrtQ : Q -> Q) (fuel : nat) (xval yval xl yl : double) :
  findLinPt_ sqrtQ fuel xval yval = Ok (xl, yl) -> yl = xl * xl.
Proof.
  unfold findLinPt_. destruct (xval >? Fin 0);
    (destruct (findLinPt_loop _ _ _ _ _ _ _ _ _) as [la| |]; cbn;
     [intros [= <- <-]; reflexivity | discriminate | discriminate]).
Qed.

(** [addCut_] either leaves the relaxation alone or appends the gradient
    inequality at a finite [xl]. *)
Lemma addCut_inv (x y : VariablePtr) (xl xval yval : double)
    (rel rel' : Relaxation) (ifcuts : bool) :
  addCut_ x y xl (xl * xl) xval yval rel = (rel', ifcuts) ->
  (ifcuts = false /\ rel' = rel) \/
  (ifcuts = true /\ is_finite xl = true /\
   rel' = mkProblem (vars_ rel) (cons_ rel ++ [gradientCut x y xl])).
Proof.
  unfold addCut_.
  destruct (Fin 2 * xl * xval - yval - xl * xl >? Fin 1e-5) eqn:E1; cbn [andb].
  - destruct (Fin 2 * xl * xval - yval >? xl * xl * (Fin 1 + Fin 1e-4)) eqn:E2.
    + cbn. intros [= <- <-]. right. split; [reflexivity|]. split; [|reflexivity].
      destruct xl as [| |ql|]; try reflexivity.
      * destruct xval, yval; discriminate E1.
      * cbn [dmul] in E1. now rewrite dsub_PInf_not_gt in E1.
      * cbn [dmul] in E1. now rewrite dsub_PInf_not_gt in E1.
    + intros [= <- <-]. now left.
  - intros [= <- <-]. now left.
Qed.

Lemma gradientCut_valid (x y : VariablePtr) (ql : Q) (pt : nat -> double) :
  on_parabola pt x y -> satisfies (gradientCut x y (Fin ql)) pt = true.
Proof.
  intros (t & s & Hx & Hy & Hs).
  unfold satisfies, gradientCut; cbn [getLinearFunction conLb conUb evalLf].
  rewrite Hx, Hy. dsimpl. qprop.
  assert (H := sq_nonneg (ql - t)). rewrite Hs. qlra.
Qed.

(** C10.  Every constraint that [separate] adds to the relaxation is valid for
    the square term it was built from: whatever point [xl] the golden-section
    search returned, every point with [y = x^2] satisfies the added
    inequality [2 xl x - y <= xl^2].  The relaxation only grows by such
    constraints, so separation cuts off no point of the original problem. *)
Theorem separate_cuts_globally_valid (sqrtQ : Q -> Q) (fuel : nat)
    (h : QuadHandler) (x : nat -> double) (rel rel' : Relaxation)
    (status status' : SeparationStatus) :
  separate sqrtQ fuel h x rel status = Ok (rel', status') ->
  exists cuts : list Constraint,
    cons_ rel' = cons_ rel ++ cuts /\
    vars_ rel' = vars_ rel /\
    Forall (fun c => exists it, In it (x2Funs_ h) /\
              forall pt, on_parabola pt it.1 (sqY it.2) ->
                         satisfies c pt = true) cuts.
Proof.
  unfold separate. generalize (x2Funs_ h) as its.
  intros its; revert rel status.
  induction its as [|it rest IH]; intros rel status; cbn [separate_loop].
  - intros [= <- <-]. exists []. rewrite app_nil_r. repeat split. constructor.
  - destruct (sepCandidate _ _).
    + destruct (findLinPt_ sqrtQ fuel _ _) as [[xl yl]| |] eqn:Efind;
        cbn [rbind]; try discriminate.
      apply findLinPt_yl in Efind; subst yl.
      destruct (getVariable rel it.1); cbn [rbind]; try discriminate.
      destruct (getVariable rel (sqY it.2)); cbn [rbind]; try discriminate.
      destruct (addCut_ _ _ _ _ _ _ _) as [rel1 ifcuts] eqn:Ecut.
      intros Hrest. apply IH in Hrest as (cuts & Hc & Hv & Hall).
      apply addCut_inv in Ecut as [[_ ->]|(_ & Hfin & ->)].
      * exists cuts. repeat split; try assumption.
        eapply Forall_impl; [exact Hall|].
        intros c (it' & Hin & Hok). exists it'. split; [now right|exact Hok].
      * cbn [cons_ vars_] in Hc, Hv.
        exists (gradientCut it.1 (sqY it.2) xl :: cuts).
        split; [now rewrite Hc, <- app_assoc|]. split; [exact Hv|].
        constructor.
        -- exists it. split; [now left|]. intros pt Hpt.
           destruct xl as [| |ql|]; try discriminate Hfin.
           now apply gradientCut_valid.
        -- eapply Forall_impl; [exact Hall|].
           intros c (it' & Hin & Hok). exists it'. split; [now right|exact Hok].
    + intros Hrest. apply IH in Hrest as (cuts & Hc & Hv & Hall).
      exists cuts. repeat split; try assumption.
      eapply Forall_impl; [exact Hall|].
      intros c (it' & Hin & Hok). exists it'. split; [now right|exact Hok].
Qed.

Lemma separate_cuts_globally_valid_witness :
  exists cuts : list Constraint,
    cons_ sqr_separated = cons_ sqr_relaxation ++ cuts /\
    vars_ sqr_separated = vars_ sqr_relaxation /\
    Forall (fun c => exists it, In it (x2Funs_ sqr_handler) /\
              forall pt, on_parabola pt it.1 (sqY it.2) ->
                         satisfies c pt = true) cuts.
Proof.
  apply (separate_cuts_globally_valid sqrtQ_approx 60 sqr_handler sqr_point
           sqr_relaxation sqr_separated SepaContinue SepaResolve).
  vm_compute. reflexivity.
Defined.

(** The test of [separate] on finite values, as a statement on rationals. *)
Lemma sepCandidate_iff (xv yv : Q) :
  sepCandidate (Fin xv) (Fin yv) = true <->
  (xv * xv > (1 + 1e-4) * Qabs yv /\ Qabs (xv * xv - yv) > 1e-5)%Q.
Proof.
  unfold sepCandidate. dsimpl. rewrite andb_true_iff, !Qltb_lt, !Qred_correct.
  reflexivity.
Qed.

Lemma addCut_Fin (x y : VariablePtr) (ql xv yv : Q) (rel : Relaxation) :
  (cutViolated ql xv yv /\
   addCut_ x y (Fin ql) (Fin ql * Fin ql) (Fin xv) (Fin yv) rel
   = (mkProblem (vars_ rel) (cons_ rel ++ [gradientCut x y (Fin ql)]), true))
  \/
  (~ cutViolated ql xv yv /\
   addCut_ x y (Fin ql) (Fin ql * Fin ql) (Fin xv) (Fin yv) rel = (rel, false)).
Proof.
  unfold addCut_, cutViolated. dsimpl.
  destruct (Qltb_spec 1e-5
              (Qred (Qred (Qred (Qred (2 * ql) * xv) - yv) - Qred (ql * ql))))
    as [H1|H1];
  destruct (Qltb_spec (Qred (Qred (ql * ql) * Qred (1 + 1e-4)))
              (Qred (Qred (Qred (2 * ql) * xv) - yv))) as [H2|H2];
  repeat rewrite Qred_correct in H1; repeat rewrite Qred_correct in H2;
  cbn [andb].
  - left. split; [split; assumption | reflexivity].
  - right. split; [intros [_ ?]; contradiction | reflexivity].
  - right. split; [intros [? _]; contradiction | reflexivity].
  - right. split; [intros [? _]; contradiction | reflexivity].
Qed.

Lemma gradientCut_iff (x y : VariablePtr) (ql a b : Q) (pt : nat -> double) :
  pt x = Fin a -> pt y = Fin b ->
  (satisfies (gradientCut x y (Fin ql)) pt = true <->
   (2 * ql * a - b <= ql * ql)%Q).
Proof.
  intros Hx Hy.
  unfold satisfies, gradientCut; cbn [getLinearFunction conLb conUb evalLf].
  rewrite Hx, Hy. dsimpl. rewrite Qle_bool_iff, !Qred_correct.
  split; intros H; qlra.
Qed.

(** *** The loop of [findLinPt_] is the golden-section search *)

Lemma gsEndsAt_O (f : double -> double) (s : GoldenSection) :
  gsOpen s = false -> gsEndsAt f 0 s.
Proof. intros H. split; [intros k Hk; lia | exact H]. Qed.

Lemma gsEndsAt_S (f : double -> double) (n : nat) (s : GoldenSection) :
  gsOpen s = true -> gsEndsAt f n (gsStep f s) -> gsEndsAt f (S n) s.
Proof.
  intros H [Hlt Hn]. split; [|exact Hn].
  intros [|k] Hk; [exact H|]. apply Hlt. lia.
Qed.

Lemma gsEndsAt_S_inv (f : double -> double) (n : nat) (s : GoldenSection) :
  gsEndsAt f (S n) s -> gsOpen s = true /\ gsEndsAt f n (gsStep f s).
Proof.
  intros [Hlt Hn]. split; [apply (Hlt 0%nat); lia|].
  split; [|exact Hn]. intros k Hk. apply (Hlt (S k)). lia.
Qed.

(** With enough fuel the loop answers the left interior point of the state
    at which the search ends. *)
Lemma findLinPt_loop_golden (xval yval : double) (n : nat) :
  forall (s : GoldenSection) (fuel : nat),
    gsEndsAt (distVal xval yval) n s -> (n <= fuel)%nat ->
    findLinPt_loop fuel xval yval (gsLo s) (gsHi s) (gsRight s) (gsLeft s)
      (distVal xval yval (gsRight s)) (distVal xval yval (gsLeft s))
    = Ok (gsLeft (gsIter (distVal xval yval) n s)).
Proof.
  induction n as [|n IH]; intros s fuel Hend Hfuel.
  - destruct Hend as [_ Hend]. cbn [gsIter] in *. unfold gsOpen in Hend.
    destruct fuel; cbn [findLinPt_loop];
      change errlim with gsTolerance; now rewrite Hend.
  - apply gsEndsAt_S_inv in Hend as [Hopen Hend].
    destruct fuel as [|fuel]; [lia|]. cbn [findLinPt_loop gsIter].
    unfold gsOpen in Hopen. change errlim with gsTolerance. rewrite Hopen.
    specialize (IH (gsStep (distVal xval yval) s) fuel Hend ltac:(lia)).
    rewrite <- IH. unfold gsStep.
    destruct (distVal xval yval (gsRight s) <? distVal xval yval (gsLeft s));
      reflexivity.
Qed.

(** With less fuel than the search has steps the loop does not answer. *)
Lemma findLinPt_loop_short (xval yval : double) (n : nat) :
  forall (s : GoldenSection) (fuel : nat),
    gsEndsAt (distVal xval yval) n s -> (fuel < n)%nat ->
    findLinPt_loop fuel xval yval (gsLo s) (gsHi s) (gsRight s) (gsLeft s)
      (distVal xval yval (gsRight s)) (distVal xval yval (gsLeft s))
    = OutOfFuel.
Proof.
  induction n as [|n IH]; intros s fuel Hend Hfuel; [lia|].
  apply gsEndsAt_S_inv in Hend as [Hopen Hend].
  unfold gsOpen in Hopen.
  destruct fuel as [|fuel]; cbn [findLinPt_loop];
    change errlim with gsTolerance; rewrite Hopen; [reflexivity|].
  specialize (IH (gsStep (distVal xval yval) s) fuel Hend ltac:(lia)).
  rewrite <- IH. unfold gsStep.
  destruct (distVal xval yval (gsRight s) <? distVal xval yval (gsLeft s));
    reflexivity.
Qed.

(** The bracket that [findLinPt_] starts from. *)
Lemma findLinPt_golden (sqrtQ : Q -> Q) (xv yv : Q) (n fuel : nat) :
  let s0 := if Qltb 0 xv
            then gsStart (sqrt sqrtQ (Fin yv)) (Fin xv)
            else gsStart (Fin xv) (- sqrt sqrtQ (Fin yv)) in
  gsEndsAt (distVal (Fin xv) (Fin yv)) n s0 ->
  ((n <= fuel)%nat ->
   findLinPt_ sqrtQ fuel (Fin xv) (Fin yv)
   = Ok (gsLeft (gsIter (distVal (Fin xv) (Fin yv)) n s0),
         gsLeft (gsIter (distVal (Fin xv) (Fin yv)) n s0)
         * gsLeft (gsIter (distVal (Fin xv) (Fin yv)) n s0))) /\
  ((fuel < n)%nat -> findLinPt_ sqrtQ fuel (Fin xv) (Fin yv) = OutOfFuel).
Proof.
  intros s0 Hend. unfold findLinPt_. cbn [dltb]. subst s0.
  destruct (Qltb 0 xv); split; intros Hfuel.
  - pose proof (findLinPt_loop_golden _ _ n _ fuel Hend Hfuel) as H.
    cbn [gsStart gsLo gsHi gsLeft gsRight] in H.
    change gsRatio with alfa in H. rewrite H. reflexivity.
  - pose proof (findLinPt_loop_short _ _ n _ fuel Hend Hfuel) as H.
    cbn [gsStart gsLo gsHi gsLeft gsRight] in H.
    change gsRatio with alfa in H. rewrite H. reflexivity.
  - pose proof (findLinPt_loop_golden _ _ n _ fuel Hend Hfuel) as H.
    cbn [gsStart gsLo gsHi gsLeft gsRight] in H.
    change gsRatio with alfa in H. rewrite H. reflexivity.
  - pose proof (findLinPt_loop_short _ _ n _ fuel Hend Hfuel) as H.
    cbn [gsStart gsLo gsHi gsLeft gsRight] in H.
    change gsRatio with alfa in H. rewrite H. reflexivity.
Qed.

(** *** The search ends *)

Lemma gsWithin_open (W E : Q) (s : GoldenSection) :
  gsWithin W E s -> gsOpen s = true -> (1e-4 < W)%Q.
Proof.
  intros (a & la & mu & b & -> & Hw & _) Hopen.
  unfold gsOpen, gsTolerance in Hopen.
  cbn [gsHi gsLo dsub dltb] in Hopen. qprop. qlra.
Qed.

Lemma gsStep_within (f : double -> double) (W E : Q) (s : GoldenSection) :
  gsOpen s = true -> gsWithin W E s ->
  gsWithin (0.618 * W + E) (0.000076 * W + E) (gsStep f s).
Proof.
  intros Hopen (a & la & mu & b & -> & Hw & Hu & Hv & Hz).
  unfold gsOpen, gsTolerance in Hopen.
  cbn [gsHi gsLo dsub dltb] in Hopen. qprop.
  unfold gsStep. cbn [gsLo gsLeft gsRight gsHi].
  destruct (f (Fin mu) <? f (Fin la)).
  - exists la, mu, (Qred (la + Qred (0.618 * Qred (b - la)))), b.
    split; [reflexivity|]. rewrite !Qred_correct.
    destruct Hz as [Hz|Hz]; repeat split; qlra.
  - exists a, (Qred (mu - Qred (0.618 * Qred (mu - a)))), la, mu.
    split; [reflexivity|]. rewrite !Qred_correct.
    destruct Hz as [Hz|Hz]; repeat split; qlra.
Qed.

Lemma gsWithin_le (W E W' E' : Q) (s : GoldenSection) :
  (W <= W')%Q -> (E <= E')%Q -> gsWithin W E s -> gsWithin W' E' s.
Proof.
  intros HW HE (a & la & mu & b & -> & Hw & Hu & Hv & Hz).
  exists a, la, mu, b. split; [reflexivity|]. repeat split; lra.
Qed.

Lemma gsStart_within (a b W : Q) :
  (b - a <= W)%Q -> gsWithin W 0 (gsStart (Fin a) (Fin b)).
Proof.
  intros Hw. eexists a, _, _, b. split; [reflexivity|].
  rewrite !Qred_correct. repeat split; qlra.
Qed.

Lemma gs_ends (f : double -> double) (n : nat) :
  forall (W E : Q) (s : GoldenSection),
    gsFits n W E = true -> gsWithin W E s ->
    exists k, (k <= n)%nat /\ gsEndsAt f k s.
Proof.
  induction n as [|n IH]; intros W E s Hfit Hin;
    destruct (gsOpen s) eqn:Hopen;
    try (exists 0%nat; split; [lia | now apply gsEndsAt_O]).
  - pose proof (gsWithin_open _ _ _ Hin Hopen) as HW.
    cbn [gsFits] in Hfit. rewrite orb_false_r in Hfit. qprop. qlra.
  - pose proof (gsWithin_open _ _ _ Hin Hopen) as HW.
    cbn [gsFits] in Hfit. apply orb_true_iff in Hfit as [Hfit|Hfit];
      [qprop; qlra|].
    destruct (IH _ _ (gsStep f s) Hfit) as (k & Hk & Hend).
    { apply (gsWithin_le (0.618 * W + E) (0.000076 * W + E));
        [rewrite Qred_correct; lra | rewrite Qred_correct; lra |].
      now apply gsStep_within. }
    exists (S k). split; [lia | now apply gsEndsAt_S].
Qed.

(** A bracket [sqrt yv, xv] or [xv, - sqrt yv] no wider than [3/20] is
    searched in at most 19 steps; so is every bracket with [yv < 0], whose
    end [sqrt yv] is NaN. *)
Lemma findLinPt_bracket_ends (sqrtQ : Q -> Q) (xv yv : Q) :
  (0 <= yv -> Qabs xv - sqrtQ yv <= 3 / 20)%Q ->
  exists n, (n <= 19)%nat /\
    gsEndsAt (distVal (Fin xv) (Fin yv)) n
      (if Qltb 0 xv
       then gsStart (sqrt sqrtQ (Fin yv)) (Fin xv)
       else gsStart (Fin xv) (- sqrt sqrtQ (Fin yv))).
Proof.
  intros Hw. unfold sqrt.
  destruct (Qltb_spec yv 0) as [Hneg|Hpos].
  - exists 0%nat. split; [lia|]. apply gsEndsAt_O.
    destruct (Qltb 0 xv); reflexivity.
  - apply Qnot_lt_le in Hpos. specialize (Hw Hpos).
    apply (gs_ends _ 19 (3 / 20) 0); [vm_compute; reflexivity|].
    destruct (Qltb_spec 0 xv) as [Hx|Hx].
    + apply gsStart_within. rewrite Qred_correct.
      rewrite Qabs_pos in Hw by lra. exact Hw.
    + cbn [dopp]. apply gsStart_within. rewrite !Qred_correct.
      apply Qnot_lt_le in Hx. rewrite Qabs_neg in Hw by exact Hx. lra.
Qed.

(** C7.  [separate] on a square term with the finite values [xv], [yv] of
    [x] and [y], both variables of the relaxation.  The term is considered
    exactly when [xv^2 > (1 + 1e-4) |yv|] and [|xv^2 - yv| > 1e-5]; a term
    that is not considered leaves the relaxation and the status alone.  For
    a considered term the point [xl] is the answer of the golden-section
    search with ratio [0.618] and tolerance [1e-4] for the objective
    [(t - xv)^2 + (t^2 - yv)^2] on the bracket [sqrt yv, xv] (for [xv > 0])
    or [xv, - sqrt yv]: when that search ends after [n] steps, the code
    answers nothing with fuel below [n], and with any fuel from [n] on it
    finds [xl], the left interior point of the last state of the search.
    The constraint [2 xl x - y <= xl^2] is then added (and the status set to
    [SepaResolve]) when it is violated by more than [1e-5] and
    [2 xl xv - yv > xl^2 (1 + 1e-4)], and nothing is added otherwise; the
    loop goes on with the other terms.  The search ends, after at most 19
    steps, whenever the bracket is no wider than [3/20] or [yv < 0].

    The statements on the search are made for [|xv| <= 10^6].  The bound
    plays no part in the exact arithmetic of this development; it marks the
    range where the doubles are spaced far more finely than the tolerance
    ([2^-33] at [10^6]).  Where they are spaced more widely than [1e-4],
    from [2^39] on, the loop on doubles need not end: the last section of
    this development runs it on binary64. *)
Theorem separate_square_term (sqrtQ : Q -> Q)
    (it : VariablePtr * LinSqr) (rest : list (VariablePtr * LinSqr))
    (x : nat -> double) (xv yv : Q) (rel : Relaxation)
    (status : SeparationStatus) (vx vy : Var) :
  x it.1 = Fin xv ->
  x (sqY it.2) = Fin yv ->
  vars_ rel !! it.1 = Some vx ->
  vars_ rel !! sqY it.2 = Some vy ->
  let considered :=
    (xv * xv > (1 + 1e-4) * Qabs yv /\ Qabs (xv * xv - yv) > 1e-5)%Q in
  let f := fun t : double =>
    (t - Fin xv) * (t - Fin xv) + (t * t - Fin yv) * (t * t - Fin yv) in
  let s0 := if Qltb 0 xv
            then gsStart (sqrt sqrtQ (Fin yv)) (Fin xv)
            else gsStart (Fin xv) (- sqrt sqrtQ (Fin yv)) in
  (~ considered ->
   forall fuel,
     separate_loop sqrtQ fuel (it :: rest) x rel status
     = separate_loop sqrtQ fuel rest x rel status)
  /\
  (considered -> (Qabs xv <= 1000000)%Q ->
   forall n, gsEndsAt f n s0 ->
     let xl := gsLeft (gsIter f n s0) in
     (forall fuel, (fuel < n)%nat ->
        separate_loop sqrtQ fuel (it :: rest) x rel status = OutOfFuel)
     /\
     (forall fuel, (n <= fuel)%nat ->
        findLinPt_ sqrtQ fuel (Fin xv) (Fin yv) = Ok (xl, xl * xl) /\
        ((exists ql : Q,
            xl = Fin ql /\ cutViolated ql xv yv /\
            separate_loop sqrtQ fuel (it :: rest) x rel status
            = separate_loop sqrtQ fuel rest x
                (mkProblem (vars_ rel)
                   (cons_ rel ++ [gradientCut it.1 (sqY it.2) (Fin ql)]))
                SepaResolve /\
            forall pt a b, pt it.1 = Fin a -> pt (sqY it.2) = Fin b ->
              (satisfies (gradientCut it.1 (sqY it.2) (Fin ql)) pt = true <->
               (2 * ql * a - b <= ql * ql)%Q))
         \/
         ((forall ql : Q, xl = Fin ql -> ~ cutViolated ql xv yv) /\
          separate_loop sqrtQ fuel (it :: rest) x rel status
          = separate_loop sqrtQ fuel rest x rel status))))
  /\
  ((Qabs xv <= 1000000)%Q ->
   (0 <= yv -> Qabs xv - sqrtQ yv <= 3 / 20)%Q ->
   exists n, (n <= 19)%nat /\ gsEndsAt f n s0).
Proof.
  intros Hx Hy Hvx Hvy considered f s0.
  change f with (distVal (Fin xv) (Fin yv)). clear f.
  assert (Hgx : getVariable rel it.1 = Ok vx)
    by (unfold getVariable, at_index; now rewrite Hvx).
  assert (Hgy : getVariable rel (sqY it.2) = Ok vy)
    by (unfold getVariable, at_index; now rewrite Hvy).
  split; [|split].
  - intros Hc fuel. cbn [separate_loop]. rewrite Hx, Hy.
    destruct (sepCandidate (Fin xv) (Fin yv)) eqn:Ecand; [|reflexivity].
    apply sepCandidate_iff in Ecand. contradiction.
  - intros Hc _ n Hend xl.
    apply sepCandidate_iff in Hc.
    split; intros fuel Hfuel.
    + cbn [separate_loop]. rewrite Hx, Hy, Hc.
      rewrite (proj2 (findLinPt_golden sqrtQ xv yv n fuel Hend) Hfuel).
      reflexivity.
    + pose proof (proj1 (findLinPt_golden sqrtQ xv yv n fuel Hend) Hfuel)
        as Hfind.
      fold s0 in Hfind. fold xl in Hfind. split; [exact Hfind|].
      cbn [separate_loop]. rewrite Hx, Hy, Hc, Hfind. cbn [rbind].
      rewrite Hgx, Hgy. cbn [rbind].
      destruct xl as [| |ql|] eqn:Exl.
      * right. split; [intros ql [=]|].
        destruct (addCut_ _ _ _ _ _ _ _) as [rel1 ifcuts] eqn:Ecut.
        apply addCut_inv in Ecut as [[-> ->]|(_ & Hf & _)];
          [reflexivity | discriminate Hf].
      * right. split; [intros ql [=]|].
        destruct (addCut_ _ _ _ _ _ _ _) as [rel1 ifcuts] eqn:Ecut.
        apply addCut_inv in Ecut as [[-> ->]|(_ & Hf & _)];
          [reflexivity | discriminate Hf].
      * destruct (addCut_Fin it.1 (sqY it.2) ql xv yv rel) as [[Hv E]|[Hv E]];
          rewrite E.
        -- left. exists ql. split; [reflexivity|]. split; [exact Hv|].
           split; [reflexivity|].
           intros pt qa qb Ha Hb. now apply gradientCut_iff.
        -- right. split; [|reflexivity]. intros ql' [= <-]. exact Hv.
      * right. split; [intros ql [=]|].
        destruct (addCut_ _ _ _ _ _ _ _) as [rel1 ifcuts] eqn:Ecut.
        apply addCut_inv in Ecut as [[-> ->]|(_ & Hf & _)];
          [reflexivity | discriminate Hf].
  - intros _. apply findLinPt_bracket_ends.
Qed.

Lemma separate_square_term_witness :
  close_point 0%nat = Fin 1 /\ close_point 1%nat = Fin 0.81 /\
  exists n, (n <= 19)%nat /\
    gsEndsAt (distVal (Fin 1) (Fin 0.81)) n (gsStart (Fin 0.9) (Fin 1)) /\
    findLinPt_ sqrtQ_approx 19 (Fin 1) (Fin 0.81)
    = Ok (gsLeft (gsIter (distVal (Fin 1) (Fin 0.81)) n
                    (gsStart (Fin 0.9) (Fin 1))),
          gsLeft (gsIter (distVal (Fin 1) (Fin 0.81)) n
                    (gsStart (Fin 0.9) (Fin 1)))
          * gsLeft (gsIter (distVal (Fin 1) (Fin 0.81)) n
                      (gsStart (Fin 0.9) (Fin 1)))).
Proof.
  split; [reflexivity|]. split; [reflexivity|].
  destruct (separate_square_term sqrtQ_approx (0%nat, mkLinSqr 1 0 (Some 0%nat))
              [] close_point 1 0.81 sqr_relaxation SepaContinue
              (mkVariable (Fin 1) (Fin 2)) (mkVariable (Fin 0) (Fin 100))
              eq_refl eq_refl eq_refl eq_refl) as (_ & Hcons & Hends).
  assert (Hx : (Qabs 1 <= 1000000)%Q)
    by (apply Qle_bool_iff; vm_compute; reflexivity).
  destruct (Hends Hx) as (n & Hn & Hend).
  { intros _. apply Qle_bool_iff. vm_compute. reflexivity. }
  exists n. split; [exact Hn|]. split; [exact Hend|].
  assert (Hc : (1 * 1 > (1 + 1e-4) * Qabs 0.81 /\
                Qabs (1 * 1 - 0.81) > 1e-5)%Q)
    by (split; apply Qltb_lt; vm_compute; reflexivity).
  exact (proj1 (proj2 (Hcons Hc Hx n Hend) 19%nat Hn)).
Defined.

(* ===================================================================== *)
(** ** Initial relaxation: McCormick envelopes *)
(* ===================================================================== *)

Lemma getVariable_Ok (p : Problem) (v : VariablePtr) (var : Var) :
  getVariable p v = Ok var <-> vars_ p !! v = Some var.
Proof.
  unfold getVariable, at_index.
  destruct (vars_ p !! v); split; congruence.
Qed.

(** The linear function and right-hand side that [getNewBilLf_] builds for a
    finite box is the McCormick inequality of that number. *)
Lemma getNewBilLf_McCormick (i : nat) (x0 x1 y : VariablePtr)
    (l0 u0 l1 u1 : Q) :
  (i < 4)%nat ->
  exists lf rhs,
    getNewBilLf_ x0 (Fin l0) (Fin u0) x1 (Fin l1) (Fin u1) y i = Ok (lf, rhs) /\
    isMcCormick i x0 x1 y l0 u0 l1 u1 (mkConstraint lf (- INFINITY) rhs).
Proof.
  intros Hi.
  destruct i as [|[|[|[|i]]]]; [| | | |lia];
    (eexists; eexists; split; [reflexivity|]);
    (split; [reflexivity|]); split.
  all: unfold satisfies; cbn [getLinearFunction conLb conUb addTerm app evalLf
                                mcCormick mcCorner fst snd].
  all: intros pt.
  1,3,5,7: intros a b cy -> -> ->; dsimpl; rewrite Qle_bool_iff, !Qred_correct;
    split; intros H; qlra.
  all: intros cy -> -> -> Hcy; dsimpl; unfold deq; rewrite !Qred_correct, Hcy;
    ring.
Qed.

(** The first loop of [relax_] appends one constraint for each square term
    and leaves the variables alone. *)
Lemma relax_sqr_frame (its its' : list (VariablePtr * LinSqr))
    (rel rel' : Relaxation) :
  relax_sqr its rel = Ok (its', rel') ->
  vars_ rel' = vars_ rel /\
  exists secants, cons_ rel' = cons_ rel ++ secants /\
                  length secants = length its.
Proof.
  revert its' rel rel'. induction its as [|it rest IH]; intros its' rel rel';
    cbn [relax_sqr].
  - intros [= <- <-]. split; [reflexivity|]. exists []. now rewrite app_nil_r.
  - destruct (getVariable rel (sqX it.2)) as [v0| |]; cbn [rbind]; try discriminate.
    destruct (getVariable rel (sqY it.2)); cbn [rbind]; try discriminate.
    destruct (getNewSqLf_ _ _ _ _) as [[lf rhs]| |]; cbn [rbind newConstraint];
      try discriminate.
    destruct (relax_sqr rest _) as [[rest' rel1]| |] eqn:E; cbn [rbind];
      try discriminate.
    intros [= <- <-]. apply IH in E as (Hv & secs & Hc & Hl).
    cbn [vars_ cons_] in Hv, Hc. split; [exact Hv|].
    exists (mkConstraint lf (- INFINITY) rhs :: secs).
    split; [now rewrite Hc, <- app_assoc | cbn; now rewrite Hl].
Qed.

Lemma relax_bil_McCormick (its its' : list LinBil) (rel rel' : Relaxation) :
  relax_bil its rel = Ok (its', rel') ->
  vars_ rel' = vars_ rel /\
  exists envs : list (list Constraint),
    cons_ rel' = cons_ rel ++ concat envs /\
    Forall2 (fun it env =>
       length env = 4%nat /\
       forall l0 u0 l1 u1,
         vars_ rel !! getX0 it = Some (mkVariable (Fin l0) (Fin u0)) ->
         vars_ rel !! getX1 it = Some (mkVariable (Fin l1) (Fin u1)) ->
         forall i c, env !! i = Some c ->
           isMcCormick i (getX0 it) (getX1 it) (getY it) l0 u0 l1 u1 c)
      its envs.
Proof.
  revert its' rel rel'. induction its as [|it rest IH]; intros its' rel rel';
    cbn [relax_bil].
  - intros [= <- <-]. split; [reflexivity|]. exists []. cbn.
    rewrite app_nil_r. split; [reflexivity|constructor].
  - destruct (getVariable rel (getX0 it)) as [v0| |] eqn:E0; cbn [rbind];
      try discriminate.
    destruct (getVariable rel (getX1 it)) as [v1| |] eqn:E1; cbn [rbind];
      try discriminate.
    destruct (getVariable rel (getY it)); cbn [rbind]; try discriminate.
    cbn [relax_bil_cons getNewBilLf_ rbind newConstraint cons_ vars_].
    destruct (relax_bil rest _) as [[rest' rel1]| |] eqn:E; cbn [rbind];
      try discriminate.
    intros [= <- <-]. apply IH in E as (Hv & envs & Hc & Hall).
    cbn [vars_ cons_] in Hv, Hc, Hall. split; [exact Hv|].
    apply getVariable_Ok in E0, E1.
    repeat rewrite <- app_assoc in Hc. cbn [app] in Hc.
    match type of Hc with
    | _ = _ ++ ?c0 :: ?c1 :: ?c2 :: ?c3 :: _ =>
        exists ([c0; c1; c2; c3] :: envs)
    end.
    split; [exact Hc|].
    constructor; [|exact Hall].
    split; [reflexivity|].
    intros l0 u0 l1 u1 H0 H1 i c Hi.
    rewrite E0 in H0. rewrite E1 in H1.
    injection H0 as ->. injection H1 as ->. cbn [getLb getUb] in Hi.
    assert (Hlt : (i < 4)%nat) by (apply lookup_lt_Some in Hi; exact Hi).
    destruct (getNewBilLf_McCormick i (getX0 it) (getX1 it) (getY it)
                l0 u0 l1 u1 Hlt) as (lf & rhs & Elf & HM).
    destruct i as [|[|[|[|i]]]]; [| | | |lia];
      cbn in Hi; injection Hi as <-;
      cbn [getNewBilLf_] in Elf; injection Elf as <- <-; exact HM.
Qed.

(** C5.  The initial relaxation build appends, after the secants of the
    square terms, exactly four constraints for every [LinBil(x0, x1, y)].
    When the box [l0,u0] x [l1,u1] of the operands is finite, the constraint
    number [i] has lower bound minus infinity (the form [lf <= rhs]), is
    satisfied exactly by the points of the McCormick inequality number [i]
    ([y >= l1 x0 + l0 x1 - l0 l1], [y >= u1 x0 + u0 x1 - u0 u1],
    [y <= u1 x0 + l0 x1 - l0 u1], [y <= l1 x0 + u0 x1 - u0 l1]), and holds
    with equality at its corner with [y = x0*x1]: [(l0,l1)], [(u0,u1)],
    [(l0,u1)], [(u0,l1)]. *)
Theorem relax_adds_McCormick (h h' : QuadHandler) (rel rel' : Relaxation) :
  relax_ h rel = Ok (h', rel') ->
  exists (secants : list Constraint) (envs : list (list Constraint)),
    cons_ rel' = cons_ rel ++ secants ++ concat envs /\
    length secants = length (x2Funs_ h) /\
    Forall2 (fun it env =>
       length env = 4%nat /\
       forall l0 u0 l1 u1,
         vars_ rel !! getX0 it = Some (mkVariable (Fin l0) (Fin u0)) ->
         vars_ rel !! getX1 it = Some (mkVariable (Fin l1) (Fin u1)) ->
         forall i c, env !! i = Some c ->
           isMcCormick i (getX0 it) (getX1 it) (getY it) l0 u0 l1 u1 c)
      (x0x1Funs_ h) envs.
Proof.
  unfold relax_.
  destruct (relax_sqr _ _) as [[sqs rel1]| |] eqn:E1; cbn [rbind];
    try discriminate.
  destruct (relax_bil _ _) as [[bils rel2]| |] eqn:E2; cbn [rbind];
    try discriminate.
  intros [= <- <-].
  apply relax_sqr_frame in E1 as (Hv1 & secants & Hc1 & Hl).
  apply relax_bil_McCormick in E2 as (Hv2 & envs & Hc2 & Hall).
  exists secants, envs. split; [now rewrite Hc2, Hc1, <- app_assoc|].
  split; [exact Hl|]. rewrite Hv1 in Hall. exact Hall.
Qed.

Lemma relax_adds_McCormick_witness :
  exists h' rel',
    relax_ bil_handler bil_problem = Ok (h', rel') /\
    exists (secants : list Constraint) (envs : list (list Constraint)),
      cons_ rel' = cons_ bil_problem ++ secants ++ concat envs /\
      length secants = length (x2Funs_ bil_handler) /\
      Forall2 (fun it env =>
         length env = 4%nat /\
         forall l0 u0 l1 u1,
           vars_ bil_problem !! getX0 it = Some (mkVariable (Fin l0) (Fin u0)) ->
           vars_ bil_problem !! getX1 it = Some (mkVariable (Fin l1) (Fin u1)) ->
           forall i c, env !! i = Some c ->
             isMcCormick i (getX0 it) (getX1 it) (getY it) l0 u0 l1 u1 c)
        (x0x1Funs_ bil_handler) envs.
Proof.
  eexists. eexists. split; [vm_compute; reflexivity|].
  eapply (relax_adds_McCormick bil_handler). vm_compute. reflexivity.
Defined.

(* ===================================================================== *)
(** ** Initial relaxation: secants *)
(* ===================================================================== *)

(** C6, as the spec states it, fails: on [x in [0, 0.000005]] the constraint
    that the build adds is [y <= 0], which the end point [(u, u^2)] of the
    parabola violates; it is not the secant [y - (l+u) x <= -l u]. *)
Lemma relax_secant_counterexample :
  exists h' rel' c,
    relax_ tiny_handler tiny_problem = Ok (h', rel') /\
    cons_ rel' = [c] /\
    ~ isSecant 0 1 0 0.000005 c.
Proof.
  eexists. eexists. eexists. split; [vm_compute; reflexivity|].
  split; [reflexivity|].
  intros (_ & Hsat & _).
  specialize (Hsat tiny_point 0.000005%Q 0.000000000025%Q eq_refl eq_refl)
    as [_ Hsat].
  assert (H : (0.000000000025 - (0 + 0.000005) * 0.000005 <= - (0 * 0.000005))%Q)
    by (vm_compute; discriminate).
  apply Hsat in H. vm_compute in H. discriminate H.
Qed.

(** What [getNewSqLf_] builds on a finite interval: the secant when
    [|l + u| > 1e-5], and the bound [y <= -l u] otherwise. *)
Lemma getNewSqLf_secant (x y : VariablePtr) (l u : Q) (lf : LinearFunction)
    (rhs : double) :
  getNewSqLf_ x y (Fin l) (Fin u) = Ok (lf, rhs) ->
  ((Qabs (l + u) > 1e-5)%Q ->
   isSecant x y l u (mkConstraint lf (- INFINITY) rhs)) /\
  ((Qabs (l + u) <= 1e-5)%Q ->
   isUpperBound y (- (l * u)) (mkConstraint lf (- INFINITY) rhs)).
Proof.
  unfold getNewSqLf_, aTol_.
  destruct ((Fin l >? Fin (-1e21)) && (Fin u <? Fin 1e21)); cbn [assert rbind];
    [|discriminate].
  dsimpl.
  assert (E : (u + l == l + u)%Q) by ring.
  destruct (Qltb_spec 1e-5 (Qred (Qabs (Qred (u + l))))) as [H|H];
    repeat rewrite Qred_correct in H; rewrite E in H;
    cbv beta iota zeta; intros [= <- <-]; split; intros H'.
  - split; [reflexivity|]. unfold satisfies.
    cbn [getLinearFunction conLb conUb addTerm app evalLf].
    split; [|split].
    + intros pt a b -> ->. dsimpl. rewrite Qle_bool_iff.
      repeat rewrite Qred_correct. split; intros H0; qlra.
    + intros pt b -> -> Hb. dsimpl. unfold deq. repeat rewrite Qred_correct.
      rewrite Hb. ring.
    + intros pt b -> -> Hb. dsimpl. unfold deq. repeat rewrite Qred_correct.
      rewrite Hb. ring.
  - exfalso. apply (Qlt_not_le _ _ H). exact H'.
  - exfalso. apply H. exact H'.
  - split; [reflexivity|]. unfold satisfies.
    cbn [getLinearFunction conLb conUb addTerm app evalLf].
    intros pt b ->. dsimpl. rewrite Qle_bool_iff.
    repeat rewrite Qred_correct. split; intros H0; qlra.
Qed.

Lemma relax_sqr_secant (its its' : list (VariablePtr * LinSqr))
    (rel rel' : Relaxation) :
  relax_sqr its rel = Ok (its', rel') ->
  exists secants : list Constraint,
    cons_ rel' = cons_ rel ++ secants /\
    Forall2 (fun it c =>
       forall l u,
         vars_ rel !! sqX it.2 = Some (mkVariable (Fin l) (Fin u)) ->
         ((Qabs (l + u) > 1e-5)%Q -> isSecant (sqX it.2) (sqY it.2) l u c) /\
         ((Qabs (l + u) <= 1e-5)%Q -> isUpperBound (sqY it.2) (- (l * u)) c))
      its secants.
Proof.
  revert its' rel rel'. induction its as [|it rest IH]; intros its' rel rel';
    cbn [relax_sqr].
  - intros [= <- <-]. exists []. rewrite app_nil_r. split; [reflexivity|constructor].
  - destruct (getVariable rel (sqX it.2)) as [v0| |] eqn:E0; cbn [rbind];
      try discriminate.
    destruct (getVariable rel (sqY it.2)); cbn [rbind]; try discriminate.
    destruct (getNewSqLf_ _ _ _ _) as [[lf rhs]| |] eqn:Elf;
      cbn [rbind newConstraint]; try discriminate.
    destruct (relax_sqr rest _) as [[rest' rel1]| |] eqn:E; cbn [rbind];
      try discriminate.
    intros [= <- <-]. apply IH in E as (secs & Hc & Hall).
    cbn [vars_ cons_] in Hc, Hall.
    exists (mkConstraint lf (- INFINITY) rhs :: secs).
    split; [now rewrite Hc, <- app_assoc|].
    constructor; [|exact Hall].
    intros l u Hlu. apply getVariable_Ok in E0. rewrite E0 in Hlu.
    injection Hlu as ->. cbn [getLb getUb] in Elf.
    now apply getNewSqLf_secant.
Qed.

(** C6, amended.  For every [LinSqr(x, y)] the initial relaxation build
    appends one constraint with lower bound minus infinity; on a finite
    interval [l, u] of [x] it is the secant [y - (l+u) x <= -l u], the line
    through [(l, l^2)] and [(u, u^2)], when [|l + u| > 1e-5], and the bound
    [y <= -l u] (without a term in [x]) when [|l + u| <= 1e-5]. *)
Theorem relax_adds_secant_or_bound (h h' : QuadHandler)
    (rel rel' : Relaxation) :
  relax_ h rel = Ok (h', rel') ->
  exists (secants envelopes : list Constraint),
    cons_ rel' = cons_ rel ++ secants ++ envelopes /\
    Forall2 (fun it c =>
       forall l u,
         vars_ rel !! sqX it.2 = Some (mkVariable (Fin l) (Fin u)) ->
         ((Qabs (l + u) > 1e-5)%Q -> isSecant (sqX it.2) (sqY it.2) l u c) /\
         ((Qabs (l + u) <= 1e-5)%Q -> isUpperBound (sqY it.2) (- (l * u)) c))
      (x2Funs_ h) secants.
Proof.
  unfold relax_.
  destruct (relax_sqr _ _) as [[sqs rel1]| |] eqn:E1; cbn [rbind];
    try discriminate.
  destruct (relax_bil _ _) as [[bils rel2]| |] eqn:E2; cbn [rbind];
    try discriminate.
  intros [= <- <-].
  apply relax_sqr_secant in E1 as (secants & Hc1 & Hall).
  apply relax_bil_McCormick in E2 as (_ & envs & Hc2 & _).
  exists secants, (concat envs).
  split; [now rewrite Hc2, Hc1, <- app_assoc | exact Hall].
Qed.

Lemma relax_adds_secant_or_bound_witness :
  exists h' rel',
    relax_ sqr_handler sqr_problem = Ok (h', rel') /\
    exists (secants envelopes : list Constraint),
      cons_ rel' = cons_ sqr_problem ++ secants ++ envelopes /\
      Forall2 (fun it c =>
         forall l u,
           vars_ sqr_problem !! sqX it.2 = Some (mkVariable (Fin l) (Fin u)) ->
           ((Qabs (l + u) > 1e-5)%Q -> isSecant (sqX it.2) (sqY it.2) l u c) /\
           ((Qabs (l + u) <= 1e-5)%Q -> isUpperBound (sqY it.2) (- (l * u)) c))
        (x2Funs_ sqr_handler) secants.
Proof.
  eexists. eexists. split; [vm_compute; reflexivity|].
  eapply (relax_adds_secant_or_bound sqr_handler). vm_compute. reflexivity.
Defined.

(* ===================================================================== *)
(** ** Envelopes and finite bounds *)
(* ===================================================================== *)

(** C9, as the spec states it, fails: the bounds [0] and [1e21] of the
    operand are finite, and building the secant fails. *)
Lemma secant_finite_bounds_counterexample :
  is_finite (Fin 0) = true /\ is_finite (Fin 1e21) = true /\
  getNewSqLf_ 0 1 (Fin 0) (Fin 1e21) = Abort.
Proof. repeat split. Qed.

(** C9, amended.  Building the secant of a [LinSqr] fails when the lower
    bound is at most [-1e21] or the upper bound at least [1e21], so also when
    one of them is the infinity on that side, and succeeds for
    [-1e21 < l] and [u < 1e21]; building each of the four McCormick
    inequalities of a [LinBil] with finite bounds succeeds. *)
Theorem envelope_construction_bounds (x y x0 x1 : VariablePtr) :
  (forall ub, getNewSqLf_ x y NInf ub = Abort) /\
  (forall lb, getNewSqLf_ x y lb PInf = Abort) /\
  (forall l u : Q,
     getNewSqLf_ x y (Fin l) (Fin u) = Abort <->
     (l <= -1e21 \/ 1e21 <= u)%Q) /\
  (forall l u : Q,
     (exists lf rhs, getNewSqLf_ x y (Fin l) (Fin u) = Ok (lf, Fin rhs)) <->
     (-1e21 < l /\ u < 1e21)%Q) /\
  (forall l0 u0 l1 u1 : Q,
     Forall (fun type =>
        exists lf rhs,
          getNewBilLf_ x0 (Fin l0) (Fin u0) x1 (Fin l1) (Fin u1) y type
          = Ok (lf, Fin rhs)) [0; 1; 2; 3]%nat).
Proof.
  split; [|split; [|split; [|split]]].
  - intros ub. unfold getNewSqLf_. reflexivity.
  - intros lb. unfold getNewSqLf_. destruct lb as [| |q|]; try reflexivity.
    dsimpl. destruct (Qltb (-1e21) q); reflexivity.
  - intros l u. unfold getNewSqLf_. dsimpl.
    destruct (Qltb_spec (-1e21) l) as [Hl|Hl];
    destruct (Qltb_spec u 1e21) as [Hu|Hu]; cbn [andb assert rbind].
    + destruct (dltb aTol_ _); split; try discriminate; intros [H|H]; qlra.
    + split; [intros _; right; qlra | reflexivity].
    + split; [intros _; left; qlra | reflexivity].
    + split; [intros _; left; qlra | reflexivity].
  - intros l u. unfold getNewSqLf_. dsimpl.
    destruct (Qltb_spec (-1e21) l) as [Hl|Hl];
    destruct (Qltb_spec u 1e21) as [Hu|Hu]; cbn [andb assert rbind].
    + unfold aTol_. dsimpl.
      destruct (Qltb _ _); (split; [intros _; split; assumption|]);
        intros _; eexists; eexists; reflexivity.
    + split; [intros (lf & rhs & [=]) | intros [_ H]; contradiction].
    + split; [intros (lf & rhs & [=]) | intros [H _]; contradiction].
    + split; [intros (lf & rhs & [=]) | intros [H _]; contradiction].
  - intros l0 u0 l1 u1.
    repeat constructor; eexists; eexists; cbn; reflexivity.
Qed.

(* ===================================================================== *)
(** ** Feasibility *)
(* ===================================================================== *)

Lemma Qlt_div_iff (a b c : Q) : (0 < c)%Q -> (a < b / c <-> a * c < b)%Q.
Proof.
  intros Hc. split; intros H.
  - assert (E : (b == b / c * c)%Q) by (field; qlra).
    rewrite E. apply Qmult_lt_compat_r; assumption.
  - apply Qlt_shift_div_l; assumption.
Qed.

Lemma Qeq_bool_pos (c : Q) : (0 < c)%Q -> Qeq_bool c 0 = false.
Proof.
  intros Hc. destruct (Qeq_bool c 0) eqn:E; [|reflexivity].
  apply Qeq_bool_iff in E. qlra.
Qed.

(** The test of [isFeasible] on a square term with finite values. *)
Lemma sqrViolated_iff (xv yv : Q) :
  sqrViolated (Fin xv) (Fin yv) = false <-> tolTestSqr yv xv.
Proof.
  unfold sqrViolated, tolTestSqr. dsimpl. unfold ddiv.
  assert (Hpos : (0 < Qred (Qred (Qabs yv) + 1e-6))%Q).
  { repeat rewrite Qred_correct. pose proof (Qabs_nonneg yv). qlra. }
  rewrite (Qeq_bool_pos _ Hpos). dsimpl.
  rewrite andb_false_iff, !Qltb_ge, Q.max_le_iff.
  assert (Hd : (Qred (Qred (Qabs (Qred (yv - Qred (xv * xv)))) /
                      Qred (Qred (Qabs yv) + 1e-6)) <= 1e-4
                <-> Qabs (yv - xv * xv) <= 1e-4 * (Qabs yv + 1e-6))%Q).
  { pose proof (Qlt_div_iff 1e-4 (Qred (Qabs (Qred (yv - Qred (xv * xv)))))
                  (Qred (Qred (Qabs yv) + 1e-6)) Hpos) as Hiff.
    repeat rewrite Qred_correct in Hiff. rewrite Qred_correct.
    split; intros H; apply Qnot_lt_le; intros H';
      repeat rewrite Qred_correct in H'; apply (Qle_not_lt _ _ H);
      repeat rewrite Qred_correct; apply Hiff; exact H'. }
  rewrite Hd. repeat rewrite Qred_correct. tauto.
Qed.

(** [LinBil::isViolated] on finite values. *)
Lemma isViolated_iff (b : LinBil) (q : nat -> Q) :
  isViolated b (finite_point q) = false <->
  tolTest 1e-5 1e-4 (q (getY b)) (q (getX0 b) * q (getX1 b)).
Proof.
  unfold isViolated, tolTest, finite_point, aTol_, rTol_. dsimpl.
  destruct (Qltb_spec 1e-5
     (Qred (Qabs (Qred (Qred (q (getX0 b) * q (getX1 b)) - q (getY b))))))
    as [H1|H1];
  destruct (Qltb_spec (Qred (Qred (Qabs (q (getY b))) * 1e-4))
     (Qred (Qabs (Qred (Qred (q (getX0 b) * q (getX1 b)) - q (getY b))))))
    as [H2|H2];
  repeat rewrite Qred_correct in H1; repeat rewrite Qred_correct in H2;
  rewrite Qabs_Qminus in H1, H2; rewrite Q.max_le_iff; cbn [andb];
  split; try discriminate; try reflexivity; intros H; try qlra.
Qed.

Lemma isFeasible_sqr_iff (its : list (VariablePtr * LinSqr)) (q : nat -> Q) :
  isFeasible_sqr its (finite_point q) = true <->
  Forall (fun it => tolTestSqr (q (sqY it.2)) (q it.1)) its.
Proof.
  induction its as [|it rest IH]; cbn [isFeasible_sqr].
  - split; [constructor | reflexivity].
  - unfold finite_point at 1 2.
    destruct (sqrViolated _ _) eqn:E.
    + split; [discriminate|]. intros H. inversion H as [|? ? H1 _]; subst.
      apply sqrViolated_iff in H1. congruence.
    + apply sqrViolated_iff in E. rewrite IH.
      split; [intros H; now constructor | intros H; now inversion H].
Qed.

Lemma isFeasible_bil_iff (its : list LinBil) (q : nat -> Q) :
  isFeasible_bil its (finite_point q) = true <->
  Forall (fun b => tolTest 1e-5 1e-4 (q (getY b)) (q (getX0 b) * q (getX1 b)))
    its.
Proof.
  induction its as [|it rest IH]; cbn [isFeasible_bil].
  - split; [constructor | reflexivity].
  - destruct (isViolated it _) eqn:E.
    + split; [discriminate|]. intros H. inversion H as [|? ? H1 _]; subst.
      apply isViolated_iff in H1. congruence.
    + apply isViolated_iff in E. rewrite IH.
      split; [intros H; now constructor | intros H; now inversion H].
Qed.

(** C4, as the spec states it, fails: at [x = 1], [y = 1.0001000101] the
    square term does not pass [|y - x^2| <= max(1e-5, 1e-4 |y|)], and
    [isFeasible] accepts the solution. *)
Lemma isFeasible_counterexample :
  isFeasible sqr_handler (finite_point near_point) = true /\
  ~ tolTest 1e-5 1e-4 (near_point 1%nat) (near_point 0%nat * near_point 0%nat).
Proof.
  split; [vm_compute; reflexivity|].
  unfold tolTest. intros H. apply Q.max_le_iff in H. vm_compute in H.
  destruct H as [H|H]; apply H; reflexivity.
Qed.

(** C4, amended.  [isFeasible] accepts a finite primal solution if and only if
    every square term passes [|y - x^2| <= max(1e-5, 1e-4 (|y| + 1e-6))] and
    every bilinear term passes [|y - x0 x1| <= max(1e-5, 1e-4 |y|)]; a square
    or bilinear term that fails makes it return false whatever terms come
    after it. *)
Theorem isFeasible_iff (h : QuadHandler) (q : nat -> Q) :
  (isFeasible h (finite_point q) = true <->
   Forall (fun it => tolTestSqr (q (sqY it.2)) (q it.1)) (x2Funs_ h) /\
   Forall (fun b => tolTest 1e-5 1e-4 (q (getY b)) (q (getX0 b) * q (getX1 b)))
     (x0x1Funs_ h)) /\
  (forall pre it post,
     ~ tolTestSqr (q (sqY it.2)) (q it.1) ->
     isFeasible_sqr (pre ++ it :: post) (finite_point q) = false) /\
  (forall pre b post,
     ~ tolTest 1e-5 1e-4 (q (getY b)) (q (getX0 b) * q (getX1 b)) ->
     isFeasible_bil (pre ++ b :: post) (finite_point q) = false).
Proof.
  split; [|split].
  - unfold isFeasible.
    destruct (isFeasible_sqr _ _) eqn:E.
    + apply isFeasible_sqr_iff in E. rewrite isFeasible_bil_iff. tauto.
    + split; [discriminate|]. intros [H _]. apply isFeasible_sqr_iff in H.
      congruence.
  - intros pre it post Hfail. apply not_true_iff_false. intros H.
    apply isFeasible_sqr_iff in H. apply Forall_app in H as [_ H].
    inversion H; subst. contradiction.
  - intros pre b post Hfail. apply not_true_iff_false. intros H.
    apply isFeasible_bil_iff in H. apply Forall_app in H as [_ H].
    inversion H; subst. contradiction.
Qed.

(* ===================================================================== *)
(** ** Branching *)
(* ===================================================================== *)

(** No record contains a variable of the relaxation: [getOtherX] compares
    objects. *)
Lemma getOtherX_relaxation (b : LinBil) (i : VariablePtr) :
  getOtherX b (mkVarObj OfRelaxation i) = None.
Proof. reflexivity. Qed.

Lemma getBrMod_bil_relaxation (its : list LinBil) (i : VariablePtr)
    (lb ub : double) (p : Problem) (lmods : ModVector) :
  getBrMod_bil its (mkVarObj OfRelaxation i) lb ub p lmods = Ok lmods.
Proof.
  induction its as [|mcc rest IH]; cbn [getBrMod_bil]; [reflexivity|].
  rewrite getOtherX_relaxation. exact IH.
Qed.



(* ===================================================================== *)
(** ** presolveNode *)
(* ===================================================================== *)

(** The guard of the [while] of [presolveNode] is false on entry. *)
Lemma presolveNode_while_skipped (sqrtQ : Q -> Q) (fuel : nat)
    (h : QuadHandler) (lchanged : bool) (s : State) :
  presolveNode_while sqrtQ fuel h lchanged false s = Ok (false, s).
Proof. destruct fuel; reflexivity. Qed.

(** [presolveNode] is the refresh of the envelopes alone: the body of the
    [while] never runs. *)
Lemma presolveNode_is_refresh (sqrtQ : Q -> Q) (fuel : nat) (h : QuadHandler)
    (s : State) :
  presolveNode sqrtQ fuel h s
  = (s1 <- upSqCons (x2Funs_ h) s ;;
     s2 <- upBilCons (x0x1Funs_ h) s1 ;;
     Ok (false, s2)).
Proof.
  unfold presolveNode. rewrite presolveNode_while_skipped. reflexivity.
Qed.

(** C1 (the code does not do this).  On the square term [y = x^2] with
    [x in [1,2]] and [y in [0,100]], [presolveNode] returns "feasible" with
    the state untouched, whatever the fuel; one pass of the sweep from that
    state does change a bound (it tightens [y] to [[1,4]]), so the state
    returned is not a fixed point of the tightening. *)
Theorem presolveNode_no_fixed_point :
  (forall fuel, presolveNode sqrtQ_approx fuel sqr_handler sqr_state
                = Ok (false, sqr_state)) /\
  exists s',
    sweep sqrtQ_approx sqr_handler false sqr_state = Ok (false, true, true, s') /\
    vars_ (p_ s') = [mkVariable (Fin 1) (Fin 2); mkVariable (Fin 1) (Fin 4)] /\
    vars_ (p_ s') <> vars_ (p_ sqr_state).
Proof.
  split.
  - intros fuel. rewrite presolveNode_is_refresh. vm_compute. reflexivity.
  - eexists. split; [vm_compute; reflexivity|]. split; [reflexivity|].
    intros [=].
Qed.

(* ===================================================================== *)
(** ** Backward propagation through a bilinear term *)
(* ===================================================================== *)

(** C2 (the code does not do this).  On [y = x0*x1] with [x0 in [1,2]],
    [x1 in [0,10]], [y in [2,4]] the interval quotient [y / x0] is [[1,4]].
    The code divides by [[x0.lb, x0.lb] = [1,1]] and tightens [x1] to [[2,4]],
    in the node version and in the presolve version; the node version then
    divides by the bounds of [x0] once more, where those of [x1] belong, and
    raises the lower bound of [x0] to [2].  The point [(2, 1, 2)] is within
    the bounds at entry and satisfies [y = x0*x1], and is outside the
    bounds after the propagation. *)
Theorem propBilBnds_divides_by_lower_bound :
  BoundsOnDiv (Fin 2) (Fin 4) (Fin 1) (Fin 2) = (Fin 1, Fin 4) /\
  (exists s',
     propBilBnds_ (newLinBil 0 1 2) true false quot_state = Ok (false, true, s') /\
     vars_ (p_ s') = [mkVariable (Fin 2) (Fin 2); mkVariable (Fin 2) (Fin 4);
                      mkVariable (Fin 2) (Fin 4)] /\
     ~ inBounds (p_ s') [2; 1; 2]%Q) /\
  (exists p',
     propBilBnds_pre (newLinBil 0 1 2) false quot_problem = Ok (false, true, p') /\
     vars_ p' = [mkVariable (Fin 1) (Fin 2); mkVariable (Fin 2) (Fin 4);
                 mkVariable (Fin 2) (Fin 4)] /\
     ~ inBounds p' [2; 1; 2]%Q) /\
  inBounds quot_problem [2; 1; 2]%Q /\ (2 == 2 * 1)%Q.
Proof.
  split; [vm_compute; reflexivity|]. split; [|split; [|split]].
  - eexists. split; [vm_compute; reflexivity|]. split; [reflexivity|].
    unfold inBounds. cbn [vars_ p_]. intros H.
    inversion H as [|? ? ? ? _ H1]; subst. inversion H1 as [|? ? ? ? [H2 _] _]; subst.
    vm_compute in H2. discriminate H2.
  - eexists. split; [vm_compute; reflexivity|]. split; [reflexivity|].
    unfold inBounds. cbn [vars_]. intros H.
    inversion H as [|? ? ? ? _ H1]; subst. inversion H1 as [|? ? ? ? [H2 _] _]; subst.
    vm_compute in H2. discriminate H2.
  - unfold inBounds, quot_problem. cbn [vars_].
    repeat constructor.
  - reflexivity.
Qed.

(* ===================================================================== *)
(** ** Bound updates: what [updatePBounds_] does to the state *)
(* ===================================================================== *)

Lemma at_index_Ok {A : Type} (l : list A) (i : nat) (a : A) :
  at_index l i = Ok a <-> l !! i = Some a.
Proof. unfold at_index. destruct (l !! i); split; congruence. Qed.

Lemma changeBound_Ok (p : Problem) (v : VariablePtr) (lu : BoundType)
    (b : double) (var : Var) :
  vars_ p !! v = Some var ->
  changeBound p v lu b
  = Ok (mkProblem (<[v := setBound lu b var]> (vars_ p)) (cons_ p)).
Proof.
  intros H. unfold changeBound, getVariable, at_index. now rewrite H.
Qed.

Lemma changeBound2_Ok (p : Problem) (v : VariablePtr) (lb ub : double)
    (var : Var) :
  vars_ p !! v = Some var ->
  changeBound2 p v lb ub
  = Ok (mkProblem (<[v := mkVariable lb ub]> (vars_ p)) (cons_ p)).
Proof.
  intros H. unfold changeBound2, getVariable, at_index. now rewrite H.
Qed.

(** One modification [m] applied and logged, as in [logged]. *)
Lemma logged_one (mod_rel : bool) (m : Modification) (s : State)
    (p rel : Problem) :
  isVarBound m = true ->
  applyToProblem m (p_ s) = Ok p ->
  (if mod_rel then applyToProblem m (rel_ s) = Ok rel else rel = rel_ s) ->
  logged mod_rel [m] s
    (mkState p rel (p_mods s ++ [m])
       (if mod_rel then r_mods s ++ [m] else r_mods s)).
Proof.
  intros Hm Hp Hr. unfold logged; cbn [p_ rel_ p_mods r_mods applyMods].
  split; [repeat constructor; exact Hm|]. split; [reflexivity|].
  rewrite Hp; cbn [rbind]. split; [reflexivity|].
  destruct mod_rel.
  - split; [reflexivity|]. rewrite Hr. reflexivity.
  - split; [reflexivity|exact Hr].
Qed.

(** The five ways out of [updatePBounds_]. *)
Lemma updatePBounds_inv (v : VariablePtr) (lb ub : double) (mod_rel : bool)
    (changed : bool) (s : State) (rc : Z) (changed' : bool) (s' : State) :
  updatePBounds_ v lb ub mod_rel changed s = Ok (rc, changed', s') ->
  exists var, vars_ (p_ s) !! v = Some var /\
    (((lb >? getUb var + aTol_) || (ub <? getLb var - aTol_) = true /\
      rc = (-1)%Z /\ changed' = changed /\ s' = s)
     \/
     ((lb >? getUb var + aTol_) || (ub <? getLb var - aTol_) = false /\
      rc = 0%Z /\
      match (lb >? getLb var + aTol_), (ub <? getUb var - aTol_) with
      | true, true =>
          changed' = true /\ logged mod_rel [VarBoundMod2 v lb ub] s s'
      | true, false =>
          changed' = true /\ logged mod_rel [VarBoundMod v Lower lb] s s'
      | false, true =>
          changed' = changed /\ logged mod_rel [VarBoundMod v Upper ub] s s'
      | false, false => changed' = changed /\ s' = s
      end)).
Proof.
  unfold updatePBounds_.
  destruct (getVariable (p_ s) v) as [var| |] eqn:Ev; cbn [rbind];
    try discriminate.
  apply getVariable_Ok in Ev. intros H. exists var. split; [exact Ev|].
  destruct ((lb >? getUb var + aTol_) || (ub <? getLb var - aTol_)).
  { left. injection H as <- <- <-. repeat split. }
  right. split; [reflexivity|].
  destruct (lb >? getLb var + aTol_), (ub <? getUb var - aTol_);
    cbn [andb] in H.
  - destruct (applyToProblem _ (p_ s)) as [p| |] eqn:Ep; cbn [rbind] in H;
      try discriminate.
    cbn [p_ rel_ p_mods r_mods] in H. destruct mod_rel.
    + destruct (applyToProblem _ (rel_ s)) as [rel| |] eqn:Er;
        cbn [rbind] in H; try discriminate.
      injection H as <- <- <-. split; [reflexivity|]. split; [reflexivity|].
      apply (logged_one true); [reflexivity|exact Ep|exact Er].
    + injection H as <- <- <-. split; [reflexivity|]. split; [reflexivity|].
      apply (logged_one false); [reflexivity|exact Ep|reflexivity].
  - destruct (applyToProblem _ (p_ s)) as [p| |] eqn:Ep; cbn [rbind] in H;
      try discriminate.
    cbn [p_ rel_ p_mods r_mods] in H. destruct mod_rel.
    + destruct (applyToProblem _ (rel_ s)) as [rel| |] eqn:Er;
        cbn [rbind] in H; try discriminate.
      injection H as <- <- <-. split; [reflexivity|]. split; [reflexivity|].
      apply (logged_one true); [reflexivity|exact Ep|exact Er].
    + injection H as <- <- <-. split; [reflexivity|]. split; [reflexivity|].
      apply (logged_one false); [reflexivity|exact Ep|reflexivity].
  - destruct (applyToProblem _ (p_ s)) as [p| |] eqn:Ep; cbn [rbind] in H;
      try discriminate.
    cbn [p_ rel_ p_mods r_mods] in H. destruct mod_rel.
    + destruct (applyToProblem _ (rel_ s)) as [rel| |] eqn:Er;
        cbn [rbind] in H; try discriminate.
      injection H as <- <- <-. split; [reflexivity|]. split; [reflexivity|].
      apply (logged_one true); [reflexivity|exact Ep|exact Er].
    + injection H as <- <- <-. split; [reflexivity|]. split; [reflexivity|].
      apply (logged_one false); [reflexivity|exact Ep|reflexivity].
  - injection H as <- <- <-. repeat split.
Qed.

(** *** A sweep only acts through [updatePBounds_] *)

Section SweepInvariant.

Variable sqrtQ : Q -> Q.
Variable mod_rel : bool.
Variable R : State -> State -> Prop.
Hypothesis R_refl : forall s, R s s.
Hypothesis R_trans : forall s1 s2 s3, R s1 s2 -> R s2 s3 -> R s1 s3.
Hypothesis R_update :
  forall v lb ub changed s rc changed' s',
    updatePBounds_ v lb ub mod_rel changed s = Ok (rc, changed', s') -> R s s'.

(** Run [updatePBounds_] inside a proof: name its result and record what it
    did to the state. *)
Ltac run_update H s1 Hs1 :=
  match type of H with
  | context [updatePBounds_ ?v ?lb ?ub ?mr ?ch ?s] =>
      let E := fresh "E" in
      let rc := fresh "rc" in
      let c := fresh "c" in
      destruct (updatePBounds_ v lb ub mr ch s) as [[[rc c] s1]| |] eqn:E;
      cbn [rbind] in H; try discriminate H;
      pose proof (R_update _ _ _ _ _ _ _ _ E) as Hs1;
      destruct (rc <? 0)%Z
  end.

Ltac run_lookup H :=
  match type of H with
  | context [getVariable ?p ?v] =>
      destruct (getVariable p v); cbn [rbind] in H; try discriminate H
  end.

Lemma propSqrBnds_rel (lx2 : VariablePtr * LinSqr) (changed : bool)
    (s : State) (is_inf changed' : bool) (s' : State) :
  propSqrBnds_ sqrtQ lx2 mod_rel changed s = Ok (is_inf, changed', s') ->
  R s s'.
Proof using R R_trans R_update mod_rel sqrtQ.
  unfold propSqrBnds_. intros H.
  run_lookup H. destruct (BoundsOnSquare _ _) as [lb ub].
  run_update H s1 Hs1; [injection H as <- <- <-; exact Hs1|].
  run_lookup H. run_lookup H.
  destruct (_ >? aTol_).
  - destruct (assert _); cbn [rbind] in H; try discriminate H.
    run_update H s2 Hs2; injection H as <- <- <-; eauto.
  - destruct (_ <? - aTol_); [injection H as <- <- <-; exact Hs1|].
    run_update H s2 Hs2; injection H as <- <- <-; eauto.
Qed.

Lemma propBilBnds_rel (lx0x1 : LinBil) (changed : bool) (s : State)
    (is_inf changed' : bool) (s' : State) :
  propBilBnds_ lx0x1 mod_rel changed s = Ok (is_inf, changed', s') ->
  R s s'.
Proof using R R_trans R_update mod_rel.
  unfold propBilBnds_. intros H.
  run_lookup H. run_lookup H. destruct (BoundsOnProduct _ _ _ _) as [lb ub].
  run_update H s1 Hs1; [injection H as <- <- <-; exact Hs1|].
  run_lookup H. run_lookup H. destruct (BoundsOnDiv _ _ _ _) as [lb1 ub1].
  run_update H s2 Hs2; [injection H as <- <- <-; eauto|].
  run_lookup H. run_lookup H. destruct (BoundsOnDiv _ _ _ _) as [lb2 ub2].
  run_update H s3 Hs3; injection H as <- <- <-; eauto.
Qed.

Lemma sweepSqr_rel (its : list (VariablePtr * LinSqr)) (lchanged changed : bool)
    (s : State) (r : bool * bool * bool) (s' : State) :
  sweepSqr sqrtQ its mod_rel lchanged changed s = Ok (r, s') -> R s s'.
Proof using R R_refl R_trans R_update mod_rel sqrtQ.
  revert lchanged changed s. induction its as [|it rest IH];
    intros lchanged changed s; cbn [sweepSqr].
  - intros [= <- <-]. apply R_refl.
  - destruct (propSqrBnds_ _ _ _ _ _) as [[[is_inf lc] s1]| |] eqn:E;
      cbn [rbind]; try discriminate.
    apply propSqrBnds_rel in E. destruct is_inf.
    + intros [= <- <-]. exact E.
    + intros H. apply IH in H. eauto.
Qed.

Lemma sweepBil_rel (its : list LinBil) (lchanged changed : bool)
    (s : State) (r : bool * bool * bool) (s' : State) :
  sweepBil its mod_rel lchanged changed s = Ok (r, s') -> R s s'.
Proof using R R_refl R_trans R_update mod_rel.
  revert lchanged changed s. induction its as [|it rest IH];
    intros lchanged changed s; cbn [sweepBil].
  - intros [= <- <-]. apply R_refl.
  - destruct (propBilBnds_ _ _ _ _) as [[[is_inf lc] s1]| |] eqn:E;
      cbn [rbind]; try discriminate.
    apply propBilBnds_rel in E. destruct is_inf.
    + intros [= <- <-]. exact E.
    + intros H. apply IH in H. eauto.
Qed.

End SweepInvariant.

Lemma sweep_rel (sqrtQ : Q -> Q) (R : State -> State -> Prop)
    (h : QuadHandler) (changed : bool) (s : State) (r : bool * bool * bool)
    (s' : State) :
  (forall s, R s s) ->
  (forall s1 s2 s3, R s1 s2 -> R s2 s3 -> R s1 s3) ->
  (forall v lb ub changed s rc changed' s',
     updatePBounds_ v lb ub (modRel_ h) changed s = Ok (rc, changed', s') ->
     R s s') ->
  sweep sqrtQ h changed s = Ok (r, s') -> R s s'.
Proof.
  intros Hrefl Htrans Hupd. unfold sweep.
  destruct (sweepSqr _ _ _ _ _ _) as [[[[is_inf lc] c] s1]| |] eqn:E;
    cbn [rbind]; try discriminate.
  apply (sweepSqr_rel sqrtQ (modRel_ h) R Hrefl Htrans Hupd) in E.
  destruct is_inf.
  - intros [= <- <-]. exact E.
  - intros H.
    apply (sweepBil_rel (modRel_ h) R Hrefl Htrans Hupd) in H. eauto.
Qed.

(** *** The log of modifications *)

Lemma applyMods_app (ms1 ms2 : ModVector) (p : Problem) :
  applyMods (ms1 ++ ms2) p = (p' <- applyMods ms1 p ;; applyMods ms2 p').
Proof.
  revert p. induction ms1 as [|m ms1 IH]; intros p; cbn [app applyMods rbind].
  - reflexivity.
  - destruct (applyToProblem m p); cbn [rbind]; [apply IH|reflexivity..].
Qed.

Lemma logged_refl (mod_rel : bool) (s : State) : logged mod_rel [] s s.
Proof.
  unfold logged. cbn [applyMods]. rewrite !app_nil_r.
  split; [constructor|]. split; [reflexivity|]. split; [reflexivity|].
  destruct mod_rel; split; reflexivity.
Qed.

Lemma logged_trans (mod_rel : bool) (ms1 ms2 : ModVector) (s1 s2 s3 : State) :
  logged mod_rel ms1 s1 s2 -> logged mod_rel ms2 s2 s3 ->
  logged mod_rel (ms1 ++ ms2) s1 s3.
Proof.
  intros (Hb1 & Hp1 & Ha1 & Hr1) (Hb2 & Hp2 & Ha2 & Hr2). unfold logged.
  split; [apply Forall_app; split; assumption|].
  split; [rewrite Hp2, Hp1; apply eq_sym, app_assoc|].
  split; [rewrite applyMods_app, Ha1; exact Ha2|].
  destruct mod_rel.
  - destruct Hr1 as [Hr1 Hq1], Hr2 as [Hr2 Hq2].
    split; [rewrite Hr2, Hr1; apply eq_sym, app_assoc|].
    rewrite applyMods_app, Hq1. exact Hq2.
  - destruct Hr1 as [Hr1 Hq1], Hr2 as [Hr2 Hq2].
    split; congruence.
Qed.

Lemma updatePBounds_logged (v : VariablePtr) (lb ub : double)
    (mod_rel changed : bool) (s : State) (rc : Z) (changed' : bool)
    (s' : State) :
  updatePBounds_ v lb ub mod_rel changed s = Ok (rc, changed', s') ->
  exists ms, logged mod_rel ms s s'.
Proof.
  intros H. apply updatePBounds_inv in H as (var & _ & [H|H]).
  - destruct H as (_ & _ & _ & ->). exists []. apply logged_refl.
  - destruct H as (_ & _ & H).
    destruct (lb >? getLb var + aTol_), (ub <? getUb var - aTol_);
      destruct H as [_ H]; subst; eexists; try exact H; apply logged_refl.
Qed.

(** X1.  The modifications that one pass of the sweep of [presolveNode]
    pushes on [p_mods] are bound changes, and applying them in order to the
    problem the pass started from gives the problem it ended with; when the
    handler modifies the relaxation, [r_mods] receives the same modifications
    and they take the relaxation from its old to its new state, and otherwise
    the relaxation and [r_mods] are left alone. *)
Theorem sweep_modifications_replay (sqrtQ : Q -> Q) (h : QuadHandler)
    (changed : bool) (s : State) (r : bool * bool * bool) (s' : State) :
  sweep sqrtQ h changed s = Ok (r, s') ->
  exists ms : ModVector, logged (modRel_ h) ms s s'.
Proof.
  apply (sweep_rel sqrtQ (fun s s' => exists ms, logged (modRel_ h) ms s s')).
  - intros s0. exists []. apply logged_refl.
  - intros s1 s2 s3 [ms1 H1] [ms2 H2]. exists (ms1 ++ ms2).
    eapply logged_trans; eassumption.
  - intros v lb ub c s0 rc c' s0'. apply updatePBounds_logged.
Qed.

Lemma sweep_modifications_replay_witness :
  exists r s',
    sweep sqrtQ_approx sqr_handler false sqr_state = Ok (r, s') /\
    exists ms : ModVector, logged (modRel_ sqr_handler) ms sqr_state s'.
Proof.
  eexists. eexists. split; [vm_compute; reflexivity|].
  eapply (sweep_modifications_replay sqrtQ_approx sqr_handler false).
  vm_compute. reflexivity.
Defined.

(** *** The relaxation follows the problem *)

Lemma applyToProblem_vars (m : Modification) (p q p' q' : Problem) :
  isVarBound m = true -> vars_ p = vars_ q ->
  applyToProblem m p = Ok p' -> applyToProblem m q = Ok q' ->
  vars_ p' = vars_ q'.
Proof.
  intros Hm Hv. destruct m; try discriminate Hm; cbn [applyToProblem];
    unfold changeBound, changeBound2, getVariable, at_index; rewrite Hv;
    destruct (vars_ q !! v); cbn [rbind]; try discriminate;
    intros [= <-] [= <-]; reflexivity.
Qed.

Lemma applyMods_vars (ms : ModVector) (p q p' q' : Problem) :
  Forall (fun m => isVarBound m = true) ms -> vars_ p = vars_ q ->
  applyMods ms p = Ok p' -> applyMods ms q = Ok q' ->
  vars_ p' = vars_ q'.
Proof.
  intros Hms. revert p q. induction Hms as [|m ms Hm _ IH]; intros p q Hv;
    cbn [applyMods].
  - intros [= <-] [= <-]. exact Hv.
  - destruct (applyToProblem m p) as [p1| |] eqn:Ep; cbn [rbind];
      try discriminate.
    destruct (applyToProblem m q) as [q1| |] eqn:Eq; cbn [rbind];
      try discriminate.
    apply IH. eapply applyToProblem_vars; eassumption.
Qed.

(** The log of a sweep that returned in [H]. *)
Ltac sweep_log h H ms :=
  apply (sweep_rel _ (fun s s' => exists ms', logged (modRel_ h) ms' s s'))
    in H;
  [ destruct H as [ms H]
  | intros ?s0; exists []; apply logged_refl
  | intros ?s1 ?s2 ?s3 [?ms1 ?H1] [?ms2 ?H2]; eexists (_ ++ _);
    eapply logged_trans; eassumption
  | intros ?v ?lb ?ub ?c ?s0 ?rc ?c' ?s0'; apply updatePBounds_logged ].

(** X2.  If the handler modifies the relaxation and the variables of the
    relaxation carry the same bounds as those of the problem, they still do
    after one pass of the sweep, and the pass has pushed the same
    modifications on [p_mods] and on [r_mods]. *)
Theorem sweep_keeps_relaxation_in_step (sqrtQ : Q -> Q) (h : QuadHandler)
    (changed : bool) (s : State) (r : bool * bool * bool) (s' : State) :
  modRel_ h = true ->
  vars_ (rel_ s) = vars_ (p_ s) ->
  sweep sqrtQ h changed s = Ok (r, s') ->
  vars_ (rel_ s') = vars_ (p_ s') /\
  exists ms, p_mods s' = p_mods s ++ ms /\ r_mods s' = r_mods s ++ ms.
Proof.
  intros Hrel Hv H. sweep_log h H ms.
  rewrite Hrel in H. destruct H as (Hb & Hp & Ha & Hr & Hq).
  split; [|exists ms; split; assumption].
  apply eq_sym.
  exact (applyMods_vars ms (p_ s) (rel_ s) _ _ Hb (eq_sym Hv) Ha Hq).
Qed.

Lemma sweep_keeps_relaxation_in_step_witness :
  exists r s',
    sweep sqrtQ_approx sqr_handler false sqr_state = Ok (r, s') /\
    vars_ (rel_ s') = vars_ (p_ s') /\
    exists ms, p_mods s' = p_mods sqr_state ++ ms /\
               r_mods s' = r_mods sqr_state ++ ms.
Proof.
  eexists. eexists. split; [vm_compute; reflexivity|].
  eapply (sweep_keeps_relaxation_in_step sqrtQ_approx sqr_handler false);
    [reflexivity | reflexivity | vm_compute; reflexivity].
Defined.

(** *** Bounds only get tighter *)

Lemma dltb_trans (a b c : double) :
  (a <? b) = true -> (b <? c) = true -> (a <? c) = true.
Proof.
  destruct a, b, c; cbn [dltb]; try discriminate; try reflexivity.
  rewrite !Qltb_lt. intros H1 H2. eapply Qlt_trans; eassumption.
Qed.

Lemma dltb_add_tol (a b : double) :
  (a + aTol_ <? b) = true -> (a <? b) = true.
Proof.
  unfold aTol_. destruct a, b; cbn [dadd dltb]; try discriminate;
    try reflexivity.
  rewrite !Qltb_lt, Qred_correct. intros H. qlra.
Qed.

Lemma dltb_sub_tol (a b : double) :
  (b <? a - aTol_) = true -> (b <? a) = true.
Proof.
  unfold aTol_. destruct a, b; cbn [dsub dltb]; try discriminate;
    try reflexivity.
  rewrite !Qltb_lt, Qred_correct. intros H. qlra.
Qed.

Lemma sameOrAbove_refl (a : double) : sameOrAbove a a.
Proof. now left. Qed.

Lemma sameOrAbove_trans (a b c : double) :
  sameOrAbove a b -> sameOrAbove b c -> sameOrAbove a c.
Proof.
  intros [->|H1] [->|H2].
  - now left.
  - now right.
  - now right.
  - right. eapply dltb_trans; eassumption.
Qed.

Lemma tightened_refl (p : Problem) : tightened p p.
Proof.
  split; [reflexivity|]. induction (vars_ p); constructor; [|assumption].
  split; apply sameOrAbove_refl.
Qed.

Lemma tightened_trans (p1 p2 p3 : Problem) :
  tightened p1 p2 -> tightened p2 p3 -> tightened p1 p3.
Proof.
  intros [Hc1 H1] [Hc2 H2]. split; [congruence|].
  revert H2. generalize (vars_ p3). clear Hc1 Hc2.
  induction H1 as [|a b l k [Hab1 Hab2] _ IH]; intros l3 H3;
    inversion H3 as [|? c ? k3 [Hbc1 Hbc2] Hrest]; subst; constructor.
  - split; eapply sameOrAbove_trans; eassumption.
  - apply IH. exact Hrest.
Qed.

Lemma tightened_insert (p : Problem) (v : VariablePtr) (var var' : Var) :
  vars_ p !! v = Some var ->
  sameOrAbove (getLb var) (getLb var') ->
  sameOrAbove (getUb var') (getUb var) ->
  tightened p (mkProblem (<[v := var']> (vars_ p)) (cons_ p)).
Proof.
  intros Hv Hl Hu. split; [reflexivity|]. cbn [vars_].
  revert v Hv. induction (vars_ p) as [|a l IH]; intros v Hv.
  - discriminate Hv.
  - destruct v as [|v]; cbn in Hv |- *.
    + injection Hv as ->. constructor; [split; assumption|].
      apply (tightened_refl (mkProblem l [])).
    + constructor; [split; apply sameOrAbove_refl|]. apply IH. exact Hv.
Qed.

(** A logged bound change of [v] that tightens. *)
Lemma logged_tightened (mod_rel : bool) (m : Modification) (v : VariablePtr)
    (var var' : Var) (s s' : State) :
  logged mod_rel [m] s s' ->
  vars_ (p_ s) !! v = Some var ->
  applyToProblem m (p_ s)
  = Ok (mkProblem (<[v := var']> (vars_ (p_ s))) (cons_ (p_ s))) ->
  sameOrAbove (getLb var) (getLb var') ->
  sameOrAbove (getUb var') (getUb var) ->
  tightened (p_ s) (p_ s') /\
  vars_ (p_ s') = <[v := var']> (vars_ (p_ s)).
Proof.
  intros (_ & _ & Ha & _) Hv Hm Hl Hu. cbn [applyMods] in Ha.
  rewrite Hm in Ha. cbn [rbind] in Ha. injection Ha as <-.
  split; [now apply (tightened_insert _ _ var)|reflexivity].
Qed.

(** X3.  What one call of [updatePBounds_] does to the problem: no bound of
    any variable gets looser and no constraint changes; only the variable [v]
    is written; and a value that lies within the old bounds of [v] and within
    the proposed interval [lb, ub] lies within the new bounds. *)
Theorem updatePBounds_tightens (v : VariablePtr) (lb ub : double)
    (mod_rel changed : bool) (s : State) (rc : Z) (changed' : bool)
    (s' : State) :
  updatePBounds_ v lb ub mod_rel changed s = Ok (rc, changed', s') ->
  tightened (p_ s) (p_ s') /\
  (forall w, w <> v -> vars_ (p_ s') !! w = vars_ (p_ s) !! w) /\
  (forall var var' q,
     vars_ (p_ s) !! v = Some var -> vars_ (p_ s') !! v = Some var' ->
     within var q -> (lb <=? q) = true -> (q <=? ub) = true ->
     within var' q).
Proof.
  intros H. apply updatePBounds_inv in H as (var & Hv & [H|H]).
  { destruct H as (_ & _ & _ & ->). split; [apply tightened_refl|].
    split; [reflexivity|]. intros var0 var' q H0 H1. congruence. }
  destruct H as (_ & _ & H).
  destruct (lb >? getLb var + aTol_) eqn:Elo,
           (ub <? getUb var - aTol_) eqn:Eup; destruct H as [_ H].
  - destruct (logged_tightened mod_rel _ v var (mkVariable lb ub) s s' H Hv)
      as [Ht Hvars].
    + cbn [applyToProblem]. now apply (changeBound2_Ok _ _ _ _ var).
    + right. now apply dltb_add_tol.
    + right. now apply dltb_sub_tol.
    + split; [exact Ht|]. rewrite Hvars. split.
      * intros w Hw. now apply list_lookup_insert_ne.
      * intros var0 var' q H0 H1 _ Hl Hu.
        rewrite list_lookup_insert_eq in H1
          by (eapply lookup_lt_Some; exact Hv).
        injection H1 as <-. split; assumption.
  - destruct (logged_tightened mod_rel _ v var (setBound Lower lb var) s s'
                H Hv) as [Ht Hvars].
    + cbn [applyToProblem]. now apply changeBound_Ok.
    + right. now apply dltb_add_tol.
    + left. reflexivity.
    + split; [exact Ht|]. rewrite Hvars. split.
      * intros w Hw. now apply list_lookup_insert_ne.
      * intros var0 var' q H0 H1 [_ Hw] Hl Hu.
        rewrite list_lookup_insert_eq in H1
          by (eapply lookup_lt_Some; exact Hv).
        injection H1 as <-. rewrite Hv in H0. injection H0 as <-.
        split; assumption.
  - destruct (logged_tightened mod_rel _ v var (setBound Upper ub var) s s'
                H Hv) as [Ht Hvars].
    + cbn [applyToProblem]. now apply changeBound_Ok.
    + left. reflexivity.
    + right. now apply dltb_sub_tol.
    + split; [exact Ht|]. rewrite Hvars. split.
      * intros w Hw. now apply list_lookup_insert_ne.
      * intros var0 var' q H0 H1 [Hw _] Hl Hu.
        rewrite list_lookup_insert_eq in H1
          by (eapply lookup_lt_Some; exact Hv).
        injection H1 as <-. rewrite Hv in H0. injection H0 as <-.
        split; assumption.
  - subst s'. split; [apply tightened_refl|].
    split; [reflexivity|]. intros var0 var' q H0 H1. congruence.
Qed.

Lemma updatePBounds_tightens_witness :
  exists rc changed' s',
    updatePBounds_ 1 (Fin 1) (Fin 4) true false sqr_state
    = Ok (rc, changed', s') /\
    tightened (p_ sqr_state) (p_ s') /\
    (forall w, w <> 1%nat ->
       vars_ (p_ s') !! w = vars_ (p_ sqr_state) !! w) /\
    (forall var var' q,
       vars_ (p_ sqr_state) !! 1%nat = Some var ->
       vars_ (p_ s') !! 1%nat = Some var' ->
       within var q -> (Fin 1 <=? q) = true -> (q <=? Fin 4) = true ->
       within var' q).
Proof.
  eexists. eexists. eexists. split; [vm_compute; reflexivity|].
  eapply (updatePBounds_tightens 1 (Fin 1) (Fin 4) true false sqr_state).
  vm_compute. reflexivity.
Defined.

Lemma applyMods_cons (ms : ModVector) (p p' : Problem) :
  Forall (fun m => isVarBound m = true) ms ->
  applyMods ms p = Ok p' -> cons_ p' = cons_ p.
Proof.
  intros Hms. revert p. induction Hms as [|m ms Hm _ IH]; intros p;
    cbn [applyMods].
  - intros [= <-]. reflexivity.
  - destruct (applyToProblem m p) as [p1| |] eqn:Ep; cbn [rbind];
      try discriminate.
    intros H. apply IH in H. rewrite H.
    destruct m; try discriminate Hm; cbn [applyToProblem] in Ep;
      unfold changeBound, changeBound2 in Ep;
      destruct (getVariable p v); cbn [rbind] in Ep; try discriminate Ep;
      injection Ep as <-; reflexivity.
Qed.

Lemma updatePBounds_tightened (v : VariablePtr) (lb ub : double)
    (mod_rel changed : bool) (s : State) (rc : Z) (changed' : bool)
    (s' : State) :
  updatePBounds_ v lb ub mod_rel changed s = Ok (rc, changed', s') ->
  tightened (p_ s) (p_ s').
Proof.
  intros H. apply updatePBounds_inv in H as (var & Hv & [H|H]).
  { destruct H as (_ & _ & _ & ->). apply tightened_refl. }
  destruct H as (_ & _ & H).
  destruct (lb >? getLb var + aTol_) eqn:Elo,
           (ub <? getUb var - aTol_) eqn:Eup; destruct H as [_ H].
  - apply (logged_tightened mod_rel _ v var (mkVariable lb ub) s s' H Hv).
    + cbn [applyToProblem]. now apply (changeBound2_Ok _ _ _ _ var).
    + right. now apply dltb_add_tol.
    + right. now apply dltb_sub_tol.
  - apply (logged_tightened mod_rel _ v var (setBound Lower lb var) s s' H Hv).
    + cbn [applyToProblem]. now apply changeBound_Ok.
    + right. now apply dltb_add_tol.
    + left. reflexivity.
  - apply (logged_tightened mod_rel _ v var (setBound Upper ub var) s s' H Hv).
    + cbn [applyToProblem]. now apply changeBound_Ok.
    + left. reflexivity.
    + right. now apply dltb_sub_tol.
  - subst s'. apply tightened_refl.
Qed.

(** X4.  One pass of the sweep of [presolveNode] never loosens a bound: every
    variable of the problem has afterwards the same or a larger lower bound
    and the same or a smaller upper bound, and the constraints are the same.
    When the handler modifies the relaxation and the relaxation started with
    the bounds of the problem, the same holds for the relaxation. *)
Theorem sweep_tightens (sqrtQ : Q -> Q) (h : QuadHandler) (changed : bool)
    (s : State) (r : bool * bool * bool) (s' : State) :
  sweep sqrtQ h changed s = Ok (r, s') ->
  tightened (p_ s) (p_ s') /\
  (modRel_ h = true -> vars_ (rel_ s) = vars_ (p_ s) ->
   tightened (rel_ s) (rel_ s')).
Proof.
  intros H.
  assert (Ht : tightened (p_ s) (p_ s')).
  { revert H.
    apply (sweep_rel sqrtQ (fun s s' => tightened (p_ s) (p_ s'))).
    - intros s0. apply tightened_refl.
    - intros s1 s2 s3. apply tightened_trans.
    - intros v lb ub c s0 rc c' s0' H0.
      now apply updatePBounds_tightened in H0. }
  split; [exact Ht|]. intros Hrel Hv.
  sweep_log h H ms. rewrite Hrel in H.
  destruct H as (Hb & _ & Ha & _ & Hq).
  pose proof (applyMods_vars ms (p_ s) (rel_ s) _ _ Hb (eq_sym Hv) Ha Hq)
    as Hv'.
  split; [eapply applyMods_cons; eassumption|].
  rewrite Hv, <- Hv'. apply Ht.
Qed.

Lemma sweep_tightens_witness :
  exists r s',
    sweep sqrtQ_approx sqr_handler false sqr_state = Ok (r, s') /\
    tightened (p_ sqr_state) (p_ s') /\ tightened (rel_ sqr_state) (rel_ s').
Proof.
  eexists. eexists. split; [vm_compute; reflexivity|].
  destruct (sweep_tightens sqrtQ_approx sqr_handler false sqr_state
              (false, true, true)
              (mkState
                 (mkProblem [mkVariable (Fin 1) (Fin 2);
                             mkVariable (Fin 1) (Fin 4)] [])
                 (mkProblem [mkVariable (Fin 1) (Fin 2);
                             mkVariable (Fin 1) (Fin 4)]
                    (cons_ sqr_relaxation))
                 [VarBoundMod2 1 (Fin 1) (Fin 4)]
                 [VarBoundMod2 1 (Fin 1) (Fin 4)]))
    as [H1 H2]; [vm_compute; reflexivity|].
  split; [exact H1 | apply H2; reflexivity].
Defined.

(** X5.  When [updatePBounds_] only lowers the upper bound of [v] (the
    proposed lower bound is not more than [aTol_] above the old one), the
    bound is written and a modification is pushed, and the flag [*changed]
    is left as it was; it is set when the lower bound is raised. *)
Theorem updatePBounds_changed_flag (v : VariablePtr) (lb ub : double)
    (mod_rel changed : bool) (s : State) (changed' : bool) (s' : State)
    (var : Var) :
  vars_ (p_ s) !! v = Some var ->
  updatePBounds_ v lb ub mod_rel changed s = Ok (0%Z, changed', s') ->
  changed' = changed || (lb >? getLb var + aTol_) /\
  ((lb >? getLb var + aTol_) = false -> (ub <? getUb var - aTol_) = true ->
   vars_ (p_ s') !! v = Some (mkVariable (getLb var) ub) /\
   p_mods s' = p_mods s ++ [VarBoundMod v Upper ub] /\
   (ub <? getUb var) = true).
Proof.
  intros Hv H. apply updatePBounds_inv in H as (var0 & Hv0 & [H|H]).
  { destruct H as (_ & [=] & _). }
  rewrite Hv in Hv0. injection Hv0 as <-.
  destruct H as (_ & _ & H).
  destruct (lb >? getLb var + aTol_) eqn:Elo,
           (ub <? getUb var - aTol_) eqn:Eup; destruct H as [-> H].
  - split; [now rewrite orb_true_r|]. discriminate.
  - split; [now rewrite orb_true_r|]. discriminate.
  - split; [now rewrite orb_false_r|]. intros _ _.
    destruct (logged_tightened mod_rel _ v var (setBound Upper ub var) s s'
                H Hv) as [_ Hvars].
    + cbn [applyToProblem]. now apply changeBound_Ok.
    + left. reflexivity.
    + right. now apply dltb_sub_tol.
    + rewrite Hvars. split.
      * apply list_lookup_insert_eq. eapply lookup_lt_Some; exact Hv.
      * split; [apply H | now apply dltb_sub_tol].
  - split; [now rewrite orb_false_r|]. discriminate.
Qed.

Lemma updatePBounds_changed_flag_witness :
  exists changed' s',
    updatePBounds_ 1 (Fin 0) (Fin 4) true false sqr_state
    = Ok (0%Z, changed', s') /\
    changed' = false /\
    vars_ (p_ s') !! 1%nat = Some (mkVariable (Fin 0) (Fin 4)).
Proof.
  eexists. eexists. split; [vm_compute; reflexivity|].
  destruct (updatePBounds_changed_flag 1 (Fin 0) (Fin 4) true false sqr_state
              false
              (mkState
                 (mkProblem [mkVariable (Fin 1) (Fin 2);
                             mkVariable (Fin 0) (Fin 4)] [])
                 (mkProblem [mkVariable (Fin 1) (Fin 2);
                             mkVariable (Fin 0) (Fin 4)]
                    (cons_ sqr_relaxation))
                 [VarBoundMod 1 Upper (Fin 4)] [VarBoundMod 1 Upper (Fin 4)])
              (mkVariable (Fin 0) (Fin 100)) eq_refl)
    as [H1 H2]; [vm_compute; reflexivity|].
  split; [reflexivity|].
  apply H2; vm_compute; reflexivity.
Defined.

(** Decide the comparisons of rationals of the goal from the context. *)
Ltac qdecide :=
  repeat match goal with
  | |- context [Qltb ?a ?b] =>
      first
        [ replace (Qltb a b) with false by (symmetry; qprop; qlra)
        | replace (Qltb a b) with true by (symmetry; qprop; qlra) ]
  end.

(** X6.  [updatePBounds_] is idempotent on finite data: after a call that
    proposed [l, u] with [l <= u] for a variable with finite bounds and did
    not report infeasibility, the same call again changes nothing, pushes no
    modification and leaves the flag. *)
Theorem updatePBounds_idempotent (v : VariablePtr) (l u l0 u0 : Q)
    (mod_rel changed : bool) (s : State) (changed1 : bool) (s1 : State) :
  vars_ (p_ s) !! v = Some (mkVariable (Fin l0) (Fin u0)) ->
  (l <= u)%Q ->
  updatePBounds_ v (Fin l) (Fin u) mod_rel changed s = Ok (0%Z, changed1, s1) ->
  updatePBounds_ v (Fin l) (Fin u) mod_rel changed1 s1 = Ok (0%Z, changed1, s1).
Proof.
  intros Hv Hlu H. apply updatePBounds_inv in H as (var & Hv0 & [H|H]).
  { destruct H as (_ & [=] & _). }
  rewrite Hv in Hv0. injection Hv0 as <-.
  destruct H as (Einf & _ & H). apply orb_false_iff in Einf as [Ei1 Ei2].
  cbn [getLb getUb] in *. unfold aTol_ in *.
  dsimpl_in Ei1. dsimpl_in Ei2.
  destruct (Fin l >? Fin l0 + Fin 1e-5) eqn:Elo,
           (Fin u <? Fin u0 - Fin 1e-5) eqn:Eup; destruct H as [_ H];
    dsimpl_in Elo; dsimpl_in Eup; qprop.
  - destruct (logged_tightened mod_rel _ v _ (mkVariable (Fin l) (Fin u)) s s1
                H Hv) as [_ Hvars];
      [now apply (changeBound2_Ok _ _ _ _ (mkVariable (Fin l0) (Fin u0)))
      | right; cbn; qprop; qlra | right; cbn; qprop; qlra |].
    unfold updatePBounds_, getVariable, at_index.
    rewrite Hvars, list_lookup_insert_eq by (eapply lookup_lt_Some; exact Hv).
    cbn [rbind getLb getUb]. unfold aTol_. dsimpl. qdecide. reflexivity.
  - destruct (logged_tightened mod_rel _ v _
                (setBound Lower (Fin l) (mkVariable (Fin l0) (Fin u0))) s s1
                H Hv) as [_ Hvars];
      [now apply changeBound_Ok
      | right; cbn; qprop; qlra | left; reflexivity |].
    unfold updatePBounds_, getVariable, at_index.
    rewrite Hvars, list_lookup_insert_eq by (eapply lookup_lt_Some; exact Hv).
    cbn [rbind getLb getUb setBound]. unfold aTol_. dsimpl. qdecide.
    reflexivity.
  - destruct (logged_tightened mod_rel _ v _
                (setBound Upper (Fin u) (mkVariable (Fin l0) (Fin u0))) s s1
                H Hv) as [_ Hvars];
      [now apply changeBound_Ok
      | left; reflexivity | right; cbn; qprop; qlra |].
    unfold updatePBounds_, getVariable, at_index.
    rewrite Hvars, list_lookup_insert_eq by (eapply lookup_lt_Some; exact Hv).
    cbn [rbind getLb getUb setBound]. unfold aTol_. dsimpl. qdecide.
    reflexivity.
  - subst s1. unfold updatePBounds_, getVariable, at_index. rewrite Hv.
    cbn [rbind getLb getUb]. unfold aTol_. dsimpl. qdecide. reflexivity.
Qed.

Lemma updatePBounds_idempotent_witness :
  exists changed1 s1,
    updatePBounds_ 1 (Fin 1) (Fin 4) true false sqr_state
    = Ok (0%Z, changed1, s1) /\
    updatePBounds_ 1 (Fin 1) (Fin 4) true changed1 s1 = Ok (0%Z, changed1, s1).
Proof.
  eexists. eexists. split; [vm_compute; reflexivity|].
  eapply (updatePBounds_idempotent 1 1 4 0 100 true false sqr_state);
    [reflexivity | discriminate | vm_compute; reflexivity].
Defined.

(** *** The two versions of [updatePBounds_] *)

(** X7.  The version of [updatePBounds_] used at a node and the version used
    in presolve agree on the problem: when the node version returns, the
    presolve version returns the same code on the same problem and leaves
    the same bounds.  Its flag is set when either bound is written, whereas
    the node version sets it only when the lower bound is. *)
Theorem updatePBounds_versions_agree (v : VariablePtr) (lb ub : double)
    (mod_rel changed : bool) (s : State) (rc : Z) (changed1 : bool)
    (s1 : State) (var : Var) :
  vars_ (p_ s) !! v = Some var ->
  updatePBounds_ v lb ub mod_rel changed s = Ok (rc, changed1, s1) ->
  exists changed2,
    updatePBounds_pre v lb ub changed (p_ s) = Ok (rc, changed2, p_ s1) /\
    (rc = 0%Z ->
     changed1 = changed || (lb >? getLb var + aTol_) /\
     changed2 = changed || (lb >? getLb var + aTol_)
                || (ub <? getUb var - aTol_)).
Proof.
  intros Hv H. apply updatePBounds_inv in H as (var0 & Hv0 & [H|H]);
    rewrite Hv in Hv0; injection Hv0 as <-.
  { destruct H as (Einf & -> & -> & ->). exists changed.
    split; [|discriminate].
    unfold updatePBounds_pre, getVariable, at_index. rewrite Hv.
    cbn [rbind]. now rewrite orb_comm, Einf. }
  destruct H as (Einf & -> & H).
  unfold updatePBounds_pre, getVariable, at_index. rewrite Hv. cbn [rbind].
  rewrite orb_comm, Einf.
  destruct (lb >? getLb var + aTol_) eqn:Elo,
           (ub <? getUb var - aTol_) eqn:Eup; destruct H as [-> H].
  - destruct (logged_tightened mod_rel _ v var (mkVariable lb ub) s s1 H Hv)
      as [[Hc _] Hvars];
      [now apply (changeBound2_Ok _ _ _ _ var)
      | right; now apply dltb_add_tol | right; now apply dltb_sub_tol |].
    exists true. rewrite (changeBound_Ok _ _ _ _ _ Hv). cbn [rbind vars_].
    rewrite list_lookup_insert_eq by (eapply lookup_lt_Some; exact Hv).
    cbn [rbind setBound getLb getUb]. rewrite Elo.
    unfold changeBound, getVariable, at_index. cbn [vars_ cons_].
    rewrite list_lookup_insert_eq by (eapply lookup_lt_Some; exact Hv).
    cbn [rbind setBound getLb getUb]. rewrite list_insert_insert_eq.
    split; [|intros _; now rewrite !orb_true_r].
    destruct (p_ s1) as [vs cs]. cbn [vars_ cons_] in Hvars, Hc.
    now rewrite Hvars, Hc.
  - destruct (logged_tightened mod_rel _ v var (setBound Lower lb var) s s1
                H Hv) as [[Hc _] Hvars];
      [now apply changeBound_Ok
      | right; now apply dltb_add_tol | left; reflexivity |].
    exists true. cbn [rbind]. rewrite Hv. cbn [rbind]. rewrite Elo.
    rewrite (changeBound_Ok _ _ _ _ _ Hv). cbn [rbind].
    split; [|intros _; now rewrite !orb_true_r].
    destruct (p_ s1) as [vs cs]. cbn [vars_ cons_] in Hvars, Hc.
    now rewrite Hvars, Hc.
  - destruct (logged_tightened mod_rel _ v var (setBound Upper ub var) s s1
                H Hv) as [[Hc _] Hvars];
      [now apply changeBound_Ok
      | left; reflexivity | right; now apply dltb_sub_tol |].
    exists true. rewrite (changeBound_Ok _ _ _ _ _ Hv). cbn [rbind vars_].
    rewrite list_lookup_insert_eq by (eapply lookup_lt_Some; exact Hv).
    cbn [rbind setBound getLb getUb]. rewrite Elo. cbn [rbind].
    split; [|intros _; now rewrite !orb_false_r, orb_true_r].
    destruct (p_ s1) as [vs cs]. cbn [vars_ cons_] in Hvars, Hc.
    now rewrite Hvars, Hc.
  - subst s1. exists changed. cbn [rbind]. rewrite Hv. cbn [rbind]. rewrite Elo. cbn [rbind].
    split; [reflexivity|]. intros _. now rewrite !orb_false_r.
Qed.

Lemma updatePBounds_versions_agree_witness :
  exists rc changed1 s1 changed2,
    updatePBounds_ 1 (Fin 0) (Fin 4) true false sqr_state
    = Ok (rc, changed1, s1) /\
    updatePBounds_pre 1 (Fin 0) (Fin 4) false (p_ sqr_state)
    = Ok (rc, changed2, p_ s1) /\
    changed1 = false /\ changed2 = true.
Proof.
  eexists. eexists. eexists.
  destruct (updatePBounds_versions_agree 1 (Fin 0) (Fin 4) true false sqr_state
              0%Z false
              (mkState
                 (mkProblem [mkVariable (Fin 1) (Fin 2);
                             mkVariable (Fin 0) (Fin 4)] [])
                 (mkProblem [mkVariable (Fin 1) (Fin 2);
                             mkVariable (Fin 0) (Fin 4)]
                    (cons_ sqr_relaxation))
                 [VarBoundMod 1 Upper (Fin 4)] [VarBoundMod 1 Upper (Fin 4)])
              (mkVariable (Fin 0) (Fin 100)) eq_refl)
    as (c2 & H1 & H2); [vm_compute; reflexivity|].
  exists c2. split; [vm_compute; reflexivity|]. split; [exact H1|].
  destruct (H2 eq_refl) as [_ ->]. split; reflexivity.
Defined.

(* ===================================================================== *)
(** ** presolveNode: what it leaves alone *)
(* ===================================================================== *)

Lemma refreshed_refl (s : State) : refreshed [] s s.
Proof.
  unfold refreshed. cbn [applyMods]. rewrite app_nil_r.
  repeat split. constructor.
Qed.

Lemma refreshed_trans (ms1 ms2 : ModVector) (s1 s2 s3 : State) :
  refreshed ms1 s1 s2 -> refreshed ms2 s2 s3 -> refreshed (ms1 ++ ms2) s1 s3.
Proof.
  intros (Hp1 & Hm1 & Hv1 & Hl1 & Hf1 & Hr1 & Ha1)
         (Hp2 & Hm2 & Hv2 & Hl2 & Hf2 & Hr2 & Ha2).
  unfold refreshed.
  split; [congruence|]. split; [congruence|]. split; [congruence|].
  split; [congruence|]. split; [apply Forall_app; split; assumption|].
  split; [rewrite Hr2, Hr1; apply eq_sym, app_assoc|].
  rewrite applyMods_app, Ha1. exact Ha2.
Qed.

(** A constraint replaced in the relaxation and logged. *)
Lemma refreshed_one (s : State) (ci : nat) (c : Constraint)
    (lf : LinearFunction) (lb ub : double) (rel : Relaxation) :
  cons_ (rel_ s) !! ci = Some c ->
  applyToProblem (LinConMod ci lf lb ub) (rel_ s) = Ok rel ->
  refreshed [LinConMod ci lf lb ub] s
    (mkState (p_ s) rel (p_mods s) (r_mods s ++ [LinConMod ci lf lb ub])).
Proof.
  intros Hc Ha. unfold refreshed. cbn [p_ rel_ p_mods r_mods applyMods].
  rewrite Ha. cbn [rbind].
  cbn [applyToProblem] in Ha. unfold changeConstraint, at_index in Ha.
  rewrite Hc in Ha. cbn [rbind] in Ha. injection Ha as <-. cbn [vars_ cons_].
  rewrite length_insert. repeat split. repeat constructor.
Qed.

Lemma upSqCon_refreshed (con : option nat) (x y : VariablePtr) (s s' : State) :
  upSqCon_ con x y s = Ok s' -> exists ms, refreshed ms s s'.
Proof.
  unfold upSqCon_. destruct con as [ci|]; cbn [deref rbind]; try discriminate.
  destruct (at_index (cons_ (rel_ s)) ci) as [c| |] eqn:Ec; cbn [rbind];
    try discriminate.
  apply at_index_Ok in Ec.
  destruct (getVariable (rel_ s) x) as [vx| |]; cbn [rbind]; try discriminate.
  destruct (assert _); cbn [rbind]; try discriminate.
  destruct (_ || _).
  - destruct (getNewSqLf_ _ _ _ _) as [[lf rhs]| |]; cbn [rbind];
      try discriminate.
    destruct (applyToProblem _ _) as [rel| |] eqn:Ea; cbn [rbind];
      try discriminate.
    intros [= <-]. eexists. eapply refreshed_one; eassumption.
  - intros [= <-]. exists []. apply refreshed_refl.
Qed.

Lemma upBilCon_one_refreshed (con : option nat)
    (binding : double -> double -> double -> bool)
    (x0 : VariablePtr) (l0 u0 : double) (x1 : VariablePtr) (l1 u1 : double)
    (y : VariablePtr) (type : nat) (s s' : State) :
  upBilCon_one con binding x0 l0 u0 x1 l1 u1 y type s = Ok s' ->
  exists ms, refreshed ms s s'.
Proof.
  unfold upBilCon_one. destruct con as [ci|]; cbn [deref rbind];
    try discriminate.
  destruct (at_index (cons_ (rel_ s)) ci) as [c| |] eqn:Ec; cbn [rbind];
    try discriminate.
  apply at_index_Ok in Ec.
  destruct (binding _ _ _).
  - destruct (getNewBilLf_ _ _ _ _ _ _ _ _) as [[lf rhs]| |]; cbn [rbind];
      try discriminate.
    destruct (applyToProblem _ _) as [rel| |] eqn:Ea; cbn [rbind];
      try discriminate.
    intros [= <-]. eexists. eapply refreshed_one; eassumption.
  - intros [= <-]. exists []. apply refreshed_refl.
Qed.

Lemma upBilCon_refreshed (lx0x1 : LinBil) (s s' : State) :
  upBilCon_ lx0x1 s = Ok s' -> exists ms, refreshed ms s s'.
Proof.
  unfold upBilCon_.
  destruct (getVariable (rel_ s) (getY lx0x1)); cbn [rbind]; try discriminate.
  destruct (getVariable (rel_ s) (getX0 lx0x1)) as [v0| |]; cbn [rbind];
    try discriminate.
  destruct (getVariable (rel_ s) (getX1 lx0x1)) as [v1| |]; cbn [rbind];
    try discriminate.
  destruct (upBilCon_one (getC0 lx0x1) _ _ _ _ _ _ _ _ _ s) as [s1| |] eqn:E1;
    cbn [rbind]; try discriminate.
  destruct (upBilCon_one (getC1 lx0x1) _ _ _ _ _ _ _ _ _ s1) as [s2| |] eqn:E2;
    cbn [rbind]; try discriminate.
  destruct (upBilCon_one (getC2 lx0x1) _ _ _ _ _ _ _ _ _ s2) as [s3| |] eqn:E3;
    cbn [rbind]; try discriminate.
  destruct (upBilCon_one (getC3 lx0x1) _ _ _ _ _ _ _ _ _ s3) as [s4| |] eqn:E4;
    cbn [rbind]; try discriminate.
  intros [= <-].
  apply upBilCon_one_refreshed in E1 as [m1 H1], E2 as [m2 H2],
    E3 as [m3 H3], E4 as [m4 H4].
  exists (((m1 ++ m2) ++ m3) ++ m4).
  repeat (eapply refreshed_trans; [|eassumption]). exact H1.
Qed.

Lemma upSqCons_refreshed (its : list (VariablePtr * LinSqr)) (s s' : State) :
  upSqCons its s = Ok s' -> exists ms, refreshed ms s s'.
Proof.
  revert s. induction its as [|it rest IH]; intros s; cbn [upSqCons].
  - intros [= <-]. exists []. apply refreshed_refl.
  - destruct (getVariable (rel_ s) it.1); cbn [rbind]; try discriminate.
    destruct (getVariable (rel_ s) (sqY it.2)); cbn [rbind]; try discriminate.
    destruct (upSqCon_ _ _ _ s) as [s1| |] eqn:E; cbn [rbind];
      try discriminate.
    intros H. apply IH in H as [m2 H2]. apply upSqCon_refreshed in E as [m1 H1].
    exists (m1 ++ m2). eapply refreshed_trans; eassumption.
Qed.

Lemma upBilCons_refreshed (its : list LinBil) (s s' : State) :
  upBilCons its s = Ok s' -> exists ms, refreshed ms s s'.
Proof.
  revert s. induction its as [|it rest IH]; intros s; cbn [upBilCons].
  - intros [= <-]. exists []. apply refreshed_refl.
  - destruct (upBilCon_ it s) as [s1| |] eqn:E; cbn [rbind]; try discriminate.
    intros H. apply IH in H as [m2 H2]. apply upBilCon_refreshed in E as [m1 H1].
    exists (m1 ++ m2). eapply refreshed_trans; eassumption.
Qed.

(** X8.  [presolveNode] never reports an infeasible node and never touches a
    bound: when it returns, it returns false, the problem, [p_mods] and the
    variables of the relaxation are as before, the relaxation has as many
    constraints as before, and [r_mods] has received only replacements of
    constraints, which take the relaxation from its old to its new state. *)
Theorem presolveNode_only_refreshes (sqrtQ : Q -> Q) (fuel : nat)
    (h : QuadHandler) (s : State) (is_inf : bool) (s' : State) :
  presolveNode sqrtQ fuel h s = Ok (is_inf, s') ->
  is_inf = false /\ exists ms, refreshed ms s s'.
Proof.
  rewrite presolveNode_is_refresh.
  destruct (upSqCons _ s) as [s1| |] eqn:E1; cbn [rbind]; try discriminate.
  destruct (upBilCons _ s1) as [s2| |] eqn:E2; cbn [rbind]; try discriminate.
  intros [= <- <-]. split; [reflexivity|].
  apply upSqCons_refreshed in E1 as [m1 H1].
  apply upBilCons_refreshed in E2 as [m2 H2].
  exists (m1 ++ m2). eapply refreshed_trans; eassumption.
Qed.

Lemma presolveNode_only_refreshes_witness :
  exists is_inf s',
    presolveNode sqrtQ_approx 0 sqr_handler sqr_state = Ok (is_inf, s') /\
    is_inf = false /\ exists ms, refreshed ms sqr_state s'.
Proof.
  eexists. eexists. split; [vm_compute; reflexivity|].
  eapply (presolveNode_only_refreshes sqrtQ_approx 0 sqr_handler).
  vm_compute. reflexivity.
Defined.

(* ===================================================================== *)
(** ** Separation: edge cases and what a cut does *)
(* ===================================================================== *)

(** With a negative [yval] the square root is NaN and the search returns NaN
    at once, whatever the fuel. *)
Lemma findLinPt_negative (sqrtQ : Q -> Q) (fuel : nat) (xv yv : Q) :
  (yv < 0)%Q -> findLinPt_ sqrtQ fuel (Fin xv) (Fin yv) = Ok (NaN, NaN).
Proof.
  intros Hy. unfold findLinPt_, sqrt.
  replace (Qltb yv 0) with true by (symmetry; now apply Qltb_lt).
  destruct (Fin xv >? Fin 0); destruct fuel; reflexivity.
Qed.

Lemma addCut_NaN (x y : VariablePtr) (yl xval yval : double)
    (rel : Relaxation) :
  addCut_ x y NaN yl xval yval rel = (rel, false).
Proof. unfold addCut_. destruct xval, yval, yl; reflexivity. Qed.

(** X9.  [separate] does nothing for a square term whose auxiliary variable
    has a negative value in the solution: [sqrt(yval)] is NaN, the search
    returns NaN without an iteration, and no cut passes the tests of
    [addCut_]; the relaxation and the status are passed on unchanged to the
    remaining terms. *)
Theorem separate_negative_y (sqrtQ : Q -> Q) (fuel : nat)
    (it : VariablePtr * LinSqr) (rest : list (VariablePtr * LinSqr))
    (x : nat -> double) (xv yv : Q) (rel : Relaxation)
    (status : SeparationStatus) (vx vy : Var) :
  x it.1 = Fin xv -> x (sqY it.2) = Fin yv -> (yv < 0)%Q ->
  vars_ rel !! it.1 = Some vx -> vars_ rel !! sqY it.2 = Some vy ->
  separate_loop sqrtQ fuel (it :: rest) x rel status
  = separate_loop sqrtQ fuel rest x rel status.
Proof.
  intros Hx Hy Hneg Hvx Hvy. cbn [separate_loop]. rewrite Hx, Hy.
  destruct (sepCandidate _ _); [|reflexivity].
  rewrite findLinPt_negative by exact Hneg. cbn [rbind].
  apply getVariable_Ok in Hvx, Hvy. rewrite Hvx, Hvy. cbn [rbind].
  rewrite addCut_NaN. reflexivity.
Qed.

Lemma separate_negative_y_witness :
  separate_loop sqrtQ_approx 0 [(0%nat, mkLinSqr 1 0 (Some 0%nat))]
    (finite_point (fun i => match i with O => 2 | _ => -1 end%Q))
    sqr_relaxation SepaContinue
  = separate_loop sqrtQ_approx 0 []
      (finite_point (fun i => match i with O => 2 | _ => -1 end%Q))
      sqr_relaxation SepaContinue.
Proof.
  eapply (separate_negative_y sqrtQ_approx 0 (0%nat, mkLinSqr 1 0 (Some 0%nat))
            [] _ 2 (-1));
    [reflexivity | reflexivity | reflexivity | reflexivity | reflexivity].
Defined.

(** X10.  On a finite solution every constraint that [separate] adds is
    violated by that solution, so the cut does cut it off; and the status is
    [SepaResolve] when a cut was added and is left alone when none was. *)
Theorem separate_cuts_off_solution (sqrtQ : Q -> Q) (fuel : nat)
    (h : QuadHandler) (q : nat -> Q) (rel rel' : Relaxation)
    (status status' : SeparationStatus) :
  separate sqrtQ fuel h (finite_point q) rel status = Ok (rel', status') ->
  exists cuts : list Constraint,
    cons_ rel' = cons_ rel ++ cuts /\
    Forall (fun c => satisfies c (finite_point q) = false) cuts /\
    status' = match cuts with [] => status | _ :: _ => SepaResolve end.
Proof.
  unfold separate. generalize (x2Funs_ h) as its.
  intros its; revert rel status.
  induction its as [|it rest IH]; intros rel status; cbn [separate_loop].
  - intros [= <- <-]. exists []. rewrite app_nil_r. repeat split. constructor.
  - destruct (sepCandidate _ _); [|apply IH].
    destruct (findLinPt_ sqrtQ fuel _ _) as [[xl yl]| |] eqn:Efind;
      cbn [rbind]; try discriminate.
    apply findLinPt_yl in Efind; subst yl.
    destruct (getVariable rel it.1); cbn [rbind]; try discriminate.
    destruct (getVariable rel (sqY it.2)); cbn [rbind]; try discriminate.
    destruct (addCut_ _ _ _ _ _ _ _) as [rel1 ifcuts] eqn:Ecut.
    intros Hrest. apply IH in Hrest as (cuts & Hc & Hall & Hst).
    pose proof Ecut as Ecut'.
    apply addCut_inv in Ecut as [[-> ->]|(-> & Hfin & ->)].
    + exists cuts. repeat split; assumption.
    + destruct xl as [| |ql|]; try discriminate Hfin.
      unfold finite_point at 1 2 in Ecut'.
      destruct (addCut_Fin it.1 (sqY it.2) ql (q it.1) (q (sqY it.2)) rel)
        as [[[Hv _] _]|[_ E]]; [|rewrite E in Ecut'; discriminate Ecut'].
      cbn [cons_] in Hc.
      exists (gradientCut it.1 (sqY it.2) (Fin ql) :: cuts).
      split; [now rewrite Hc, <- app_assoc|]. split.
      * constructor; [|exact Hall].
        apply not_true_iff_false. intros Hsat.
        apply (gradientCut_iff it.1 (sqY it.2) ql (q it.1) (q (sqY it.2)))
          in Hsat; [|reflexivity|reflexivity].
        qlra.
      * rewrite Hst. destruct cuts; reflexivity.
Qed.

Lemma separate_cuts_off_solution_witness :
  exists rel' status' cuts,
    separate sqrtQ_approx 60 sqr_handler
      (finite_point (fun i => match i with O => 2 | _ => 1 end%Q))
      sqr_relaxation SepaContinue = Ok (rel', status') /\
    cons_ rel' = cons_ sqr_relaxation ++ cuts /\
    Forall (fun c =>
              satisfies c
                (finite_point (fun i => match i with O => 2 | _ => 1 end%Q))
              = false) cuts /\
    status' = match cuts with [] => SepaContinue | _ :: _ => SepaResolve end.
Proof.
  destruct (separate_cuts_off_solution sqrtQ_approx 60 sqr_handler
              (fun i => match i with O => 2 | _ => 1 end%Q)
              sqr_relaxation sqr_separated SepaContinue SepaResolve)
    as (cuts & H); [vm_compute; reflexivity|].
  exists sqr_separated, SepaResolve, cuts.
  split; [vm_compute; reflexivity | exact H].
Defined.

(** X11.  A square term with [0 <= y < x^2] that [isFeasible] rejects is one
    that [separate] considers for a cut. *)
Theorem violated_below_parabola_is_separated (xv yv : Q) :
  (0 <= yv)%Q -> (yv < xv * xv)%Q ->
  sqrViolated (Fin xv) (Fin yv) = true ->
  sepCandidate (Fin xv) (Fin yv) = true.
Proof.
  intros Hy Hlt Hviol. apply sepCandidate_iff.
  assert (Hn : ~ tolTestSqr yv xv).
  { intros Ht. apply sqrViolated_iff in Ht. congruence. }
  unfold tolTestSqr in Hn. rewrite Q.max_le_iff in Hn.
  assert (Ea : (Qabs yv == yv)%Q) by (now apply Qabs_pos).
  assert (Ed : (Qabs (yv - xv * xv) == xv * xv - yv)%Q).
  { rewrite Qabs_neg by qlra. ring. }
  assert (Ed' : (Qabs (xv * xv - yv) == xv * xv - yv)%Q)
    by (apply Qabs_pos; qlra).
  rewrite Ea, Ed in Hn. rewrite Ea, Ed'.
  split.
  - apply Qnot_le_lt. intros H. apply Hn. right. qlra.
  - apply Qnot_le_lt. intros H. apply Hn. left. exact H.
Qed.

Lemma violated_below_parabola_is_separated_witness :
  sqrViolated (Fin 2) (Fin 1) = true /\ sepCandidate (Fin 2) (Fin 1) = true.
Proof.
  split; [vm_compute; reflexivity|].
  apply (violated_below_parabola_is_separated 2 1);
    [discriminate | reflexivity | vm_compute; reflexivity].
Defined.

(* ===================================================================== *)
(** ** Branching *)
(* ===================================================================== *)

Lemma dltb_add_eps (a b : double) :
  (b >? a + Fin 1e-8) = true -> (a <? b) = true.
Proof.
  destruct a, b; cbn [dadd dltb]; try discriminate; try reflexivity.
  rewrite !Qltb_lt, Qred_correct. intros H. qlra.
Qed.

Lemma dltb_sub_eps (a b : double) :
  (b <? a - Fin 1e-8) = true -> (b <? a) = true.
Proof.
  destruct a, b; cbn [dsub dltb]; try discriminate; try reflexivity.
  rewrite !Qltb_lt, Qred_correct. intros H. qlra.
Qed.

(** X12.  When [getBranches] returns, the value of the candidate lies
    strictly between the bounds that its variable has in the relaxation, and
    replaying the relaxation modifications of the two branches on the
    relaxation gives the two boxes [lb, value] and [value, ub] for that
    variable, every other variable and every constraint being left alone. *)
Theorem getBranches_splits_box (h : QuadHandler) (cand : BrVarCand)
    (x : nat -> double) (orig : Problem) (rel : Relaxation)
    (brs : list Branch) :
  modRel_ h = true ->
  getBranches h cand x orig rel = Ok brs ->
  exists (vv : Var) (down up : Branch),
    vars_ rel !! getVar cand = Some vv /\
    brs = [down; up] /\
    (getLb vv <? x (getVar cand)) = true /\
    (x (getVar cand) <? getUb vv) = true /\
    applyMods (rMods down) rel
    = Ok (mkProblem
            (<[getVar cand := mkVariable (getLb vv) (x (getVar cand))]>
               (vars_ rel)) (cons_ rel)) /\
    applyMods (rMods up) rel
    = Ok (mkProblem
            (<[getVar cand := mkVariable (x (getVar cand)) (getUb vv)]>
               (vars_ rel)) (cons_ rel)).
Proof.
  intros Hr. unfold getBranches. rewrite Hr.
  destruct (getVariable rel (getVar cand)) as [vv| |] eqn:Ev; cbn [rbind];
    try discriminate.
  apply getVariable_Ok in Ev.
  unfold assert.
  destruct (x (getVar cand) >? getLb vv + Fin 1e-8) eqn:Elo;
    cbn [andb rbind]; try discriminate.
  destruct (x (getVar cand) <? getUb vv - Fin 1e-8) eqn:Eup;
    cbn [rbind]; try discriminate.
  intros Hb.
  assert (Hbrs : exists pm pm',
             brs = [mkBranch pm [VarBoundMod (getVar cand) Upper
                                   (x (getVar cand))] (Fin 0.5);
                    mkBranch pm' [VarBoundMod (getVar cand) Lower
                                    (x (getVar cand))] (Fin 0.5)]).
  { destruct (modProb_ h).
    - destruct (getVariable orig (getVar cand)); cbn [rbind] in Hb;
        try discriminate.
      injection Hb as <-. eauto.
    - cbn [rbind] in Hb. injection Hb as <-. eauto. }
  destruct Hbrs as (pm & pm' & ->).
  eexists vv, _, _. split; [exact Ev|]. split; [reflexivity|].
  split; [now apply dltb_add_eps|]. split; [now apply dltb_sub_eps|].
  cbn [rMods applyMods applyToProblem].
  rewrite !(changeBound_Ok _ _ _ _ vv Ev). cbn [rbind setBound].
  split; reflexivity.
Qed.

Lemma getBranches_splits_box_witness :
  exists (vv : Var) (down up : Branch),
    vars_ bil_problem !! getVar bil_cand = Some vv /\
    getBranches bil_handler bil_cand half_point bil_problem bil_problem
    = Ok [down; up] /\
    (getLb vv <? half_point (getVar bil_cand)) = true /\
    (half_point (getVar bil_cand) <? getUb vv) = true /\
    applyMods (rMods down) bil_problem
    = Ok (mkProblem
            (<[getVar bil_cand :=
                 mkVariable (getLb vv) (half_point (getVar bil_cand))]>
               (vars_ bil_problem)) (cons_ bil_problem)) /\
    applyMods (rMods up) bil_problem
    = Ok (mkProblem
            (<[getVar bil_cand :=
                 mkVariable (half_point (getVar bil_cand)) (getUb vv)]>
               (vars_ bil_problem)) (cons_ bil_problem)).
Proof.
  destruct (getBranches_splits_box bil_handler bil_cand half_point
              bil_problem bil_problem
              [mkBranch [VarBoundMod 0 Upper (Fin 0.5)]
                 [VarBoundMod 0 Upper (Fin 0.5)] (Fin 0.5);
               mkBranch [VarBoundMod 0 Lower (Fin 0.5)]
                 [VarBoundMod 0 Lower (Fin 0.5)] (Fin 0.5)])
    as (vv & down & up & Hv & Hb & H);
    [reflexivity | vm_compute; reflexivity |].
  exists vv, down, up. split; [exact Hv|]. split; [|exact H].
  rewrite <- Hb. vm_compute. reflexivity.
Defined.

Lemma getBrMod_bil_last (its : list LinBil) (x0 : VarObj) (lb ub : double)
    (p : Problem) (lmods lmods' : ModVector) :
  getBrMod_bil its x0 lb ub p lmods = Ok lmods' ->
  (Forall (fun b => getOtherX b x0 = None) its /\ lmods' = lmods) \/
  exists pre b post x1 v1,
    its = pre ++ b :: post /\
    getOtherX b x0 = Some x1 /\
    Forall (fun b' => getOtherX b' x0 = None) post /\
    vars_ p !! x1 = Some v1 /\
    lmods' = [VarBoundMod2 (getY b)
                (BoundsOnProduct lb ub (getLb v1) (getUb v1)).1
                (BoundsOnProduct lb ub (getLb v1) (getUb v1)).2].
Proof.
  revert lmods. induction its as [|mcc rest IH]; intros lmods;
    cbn [getBrMod_bil].
  - intros [= <-]. left. split; [constructor | reflexivity].
  - destruct (getOtherX mcc x0) as [x1|] eqn:E.
    + destruct (getVariable p x1) as [v1| |] eqn:Ev; cbn [rbind];
        try discriminate.
      apply getVariable_Ok in Ev.
      destruct (BoundsOnProduct lb ub (getLb v1) (getUb v1)) as [l1 u1] eqn:Eb.
      intros Hrest. apply IH in Hrest as [[Hall ->]|Hex].
      * right. exists [], mcc, rest, x1, v1. rewrite Eb.
        split; [reflexivity|]. split; [exact E|]. split; [exact Hall|].
        split; [exact Ev | reflexivity].
      * destruct Hex as (pre & b & post & x1' & v1' & -> & H).
        right. exists (mcc :: pre), b, post, x1', v1'.
        split; [reflexivity | exact H].
    + intros Hrest. apply IH in Hrest as [[Hall ->]|Hex].
      * left. split; [constructor; assumption | reflexivity].
      * destruct Hex as (pre & b & post & x1' & v1' & -> & H).
        right. exists (mcc :: pre), b, post, x1', v1'.
        split; [reflexivity | exact H].
Qed.

(** X13.  For a candidate [x0] that is not the operand of a square term, the
    list of [getBrMod] holds, in some order, the bound change of [x0] and at
    most one bound update of an auxiliary variable.  When the candidate holds
    the copy of the variable in the relaxation, as every candidate of
    [getBranchingCandidates] does, there is none: [getOtherX] compares
    objects and the records hold the variables of the problem.  When it holds
    the variable of the problem itself, there is one for the LAST record that
    contains [x0], with the product bounds of the branch interval of [x0] and
    the bounds of the other operand; the records before it leave no trace,
    because [lmods] is created anew inside the loop. *)
Theorem getBrMod_updates_last_bilinear_only (h : QuadHandler) (own : Owner)
    (cand : BrVarCand) (x : nat -> double) (p : Problem) (rel : Relaxation)
    (dir : BranchDirection) (m : Modification) :
  find_x2 (x2Funs_ h) (getVar cand) = None ->
  getBrMod h own cand x p rel dir = Ok m ->
  exists (v0 : Var) (ms ys : ModVector),
    vars_ (match own with OfProblem => p | OfRelaxation => rel end)
      !! getVar cand = Some v0 /\
    m = LinMods ms /\
    Permutation ms
      (VarBoundMod (getVar cand) (boundOfDir dir) (x (getVar cand)) :: ys) /\
    let lb := match dir with DownBranch => getLb v0
                           | UpBranch => x (getVar cand) end in
    let ub := match dir with DownBranch => x (getVar cand)
                           | UpBranch => getUb v0 end in
    match own with
    | OfRelaxation => ys = []
    | OfProblem =>
        (Forall (fun b => getOtherX b (mkVarObj OfProblem (getVar cand))
                          = None) (x0x1Funs_ h) /\ ys = [])
        \/
        exists pre b post x1 v1,
          x0x1Funs_ h = pre ++ b :: post /\
          getOtherX b (mkVarObj OfProblem (getVar cand)) = Some x1 /\
          Forall (fun b' => getOtherX b' (mkVarObj OfProblem (getVar cand))
                            = None) post /\
          vars_ p !! x1 = Some v1 /\
          ys = [VarBoundMod2 (getY b)
                  (BoundsOnProduct lb ub (getLb v1) (getUb v1)).1
                  (BoundsOnProduct lb ub (getLb v1) (getUb v1)).2]
    end.
Proof.
  intros Hfind. unfold getBrMod. rewrite Hfind.
  destruct (getVariable _ (getVar cand)) as [v0| |] eqn:Ev; cbn [rbind];
    try discriminate.
  apply getVariable_Ok in Ev.
  assert (Hperm : forall (a : Modification) l, Permutation (l ++ [a]) (a :: l)).
  { intros a l. symmetry. apply Permutation_cons_append. }
  destruct dir; cbn beta iota zeta;
    (destruct (getBrMod_bil _ _ _ _ _ _) as [lm| |] eqn:Ebil; cbn [rbind];
     try discriminate; intros [= <-]; eexists v0, _, lm;
     (split; [exact Ev|]); (split; [reflexivity|]);
     (split; [apply Hperm|]); cbn zeta; destruct own;
     [ apply getBrMod_bil_last in Ebil; exact Ebil
     | rewrite getBrMod_bil_relaxation in Ebil; now injection Ebil as <- ]).
Qed.

Lemma getBrMod_updates_last_bilinear_only_witness :
  exists (m : Modification) (ms ys : ModVector),
    two_bil_brmod = Ok m /\
    m = LinMods ms /\
    Permutation ms (VarBoundMod 0 Upper (Fin 0.5) :: ys) /\
    length ys = 1%nat.
Proof.
  destruct (getBrMod_updates_last_bilinear_only two_bil_handler OfProblem
              bil_cand half_point two_bil_problem two_bil_problem DownBranch
              (LinMods [VarBoundMod2 4 (Fin 0) (Fin (3 # 2));
                        VarBoundMod 0 Upper (Fin 0.5)]))
    as (v0 & ms & ys & Hv & Hm & Hp & H);
    [reflexivity | vm_compute; reflexivity |].
  exists (LinMods ms), ms, ys. split; [now rewrite <- Hm|].
  split; [reflexivity|]. split; [exact Hp|].
  injection Hm as <-. apply Permutation_length in Hp. cbn in Hp. lia.
Defined.

(* ===================================================================== *)
(** ** The record of a bilinear term *)
(* ===================================================================== *)

Lemma newLinBil_comm (a b y : VariablePtr) :
  newLinBil b a y = newLinBil a b y.
Proof.
  unfold newLinBil.
  destruct (Nat.ltb_spec b a), (Nat.ltb_spec a b); try lia; try reflexivity.
  assert (a = b) by lia. now subst.
Qed.

(** X14.  The constructor of [LinBil] stores the operands by increasing
    index, so the two orders of the arguments give the same record.
    [getOtherX] compares objects: it maps each of the two operands, which are
    variables of the problem, to the other one, and every other pointer to
    NULL, among them the copy of an operand in the relaxation; applied to the
    operand it returns, it gives the first one back. *)
Theorem LinBil_operands (a b y : VariablePtr) (r : LinBil)
    (x : VarObj) (i x' : VariablePtr) :
  (getX0 (newLinBil a b y) <= getX1 (newLinBil a b y))%nat /\
  newLinBil b a y = newLinBil a b y /\
  getY (newLinBil a b y) = y /\
  getOtherX (newLinBil a b y) (mkVarObj OfProblem a) = Some b /\
  getOtherX (newLinBil a b y) (mkVarObj OfProblem b) = Some a /\
  (getOtherX r x = None <->
   x <> mkVarObj OfProblem (getX0 r) /\ x <> mkVarObj OfProblem (getX1 r)) /\
  getOtherX r (mkVarObj OfRelaxation i) = None /\
  (getOtherX r x = Some x' ->
   ownerOf x = OfProblem /\
   getOtherX r (mkVarObj OfProblem x') = Some (indexOf x)).
Proof.
  assert (Heq : forall u v, ptr_eqb u v = true <-> u = v).
  { intros [ou iu] [ov iv]. unfold ptr_eqb. cbn [ownerOf indexOf].
    destruct ou, ov; rewrite ?Nat.eqb_eq; split; try discriminate;
      try (intros ->; reflexivity); now intros [= ->]. }
  assert (Hrefl : forall u, ptr_eqb u u = true) by (intros u; now apply Heq).
  unfold newLinBil, getOtherX.
  split; [destruct (Nat.ltb_spec b a); cbn; lia|].
  split; [apply newLinBil_comm|].
  split; [destruct (b <? a)%nat; reflexivity|].
  split.
  { destruct (Nat.ltb_spec b a); cbn [getX0 getX1].
    - destruct (ptr_eqb _ _) eqn:E; [apply Heq in E; injection E; lia|].
      now rewrite Hrefl.
    - now rewrite Hrefl. }
  split.
  { destruct (Nat.ltb_spec b a); cbn [getX0 getX1].
    - now rewrite Hrefl.
    - destruct (ptr_eqb _ _) eqn:E; [apply Heq in E; now injection E as ->|].
      now rewrite Hrefl. }
  split.
  { destruct (ptr_eqb (mkVarObj OfProblem (getX0 r)) x) eqn:E0.
    - apply Heq in E0. split; [discriminate | intros [H _]; congruence].
    - destruct (ptr_eqb (mkVarObj OfProblem (getX1 r)) x) eqn:E1.
      + apply Heq in E1. split; [discriminate | intros [_ H]; congruence].
      + split; [|reflexivity]. intros _.
        split; intros ->; rewrite Hrefl in *; discriminate. }
  split; [reflexivity|].
  destruct (ptr_eqb (mkVarObj OfProblem (getX0 r)) x) eqn:E0.
  - apply Heq in E0. subst x. intros [= <-]. split; [reflexivity|].
    cbn [indexOf].
    destruct (ptr_eqb (mkVarObj OfProblem (getX0 r))
                (mkVarObj OfProblem (getX1 r))) eqn:E.
    + apply Heq in E. now injection E as ->.
    + now rewrite Hrefl.
  - destruct (ptr_eqb (mkVarObj OfProblem (getX1 r)) x) eqn:E1;
      [|discriminate].
    apply Heq in E1. subst x. intros [= <-]. split; [reflexivity|].
    cbn [indexOf]. now rewrite Hrefl.
Qed.

(** X15.  [CompareLinBil] is a strict weak order, as the set [x0x1Funs_]
    needs: it is irreflexive and transitive, and two records are equivalent
    (neither is below the other) exactly when their operands have the same
    ids, whatever their auxiliary variables; so the records of [x0*x1] and of
    [x1*x0] are equivalent and the set holds one record per pair of
    operands. *)
Theorem CompareLinBil_strict_weak_order (getId : VariablePtr -> nat)
    (b0 b1 b2 : LinBil) (a b y y' : VariablePtr) :
  CompareLinBil getId b0 b0 = false /\
  (CompareLinBil getId b0 b1 = true -> CompareLinBil getId b1 b2 = true ->
   CompareLinBil getId b0 b2 = true) /\
  (CompareLinBil getId b0 b1 = false /\ CompareLinBil getId b1 b0 = false <->
   getId (getX0 b0) = getId (getX0 b1) /\
   getId (getX1 b0) = getId (getX1 b1)) /\
  CompareLinBil getId (newLinBil a b y) (newLinBil b a y') = false /\
  CompareLinBil getId (newLinBil b a y') (newLinBil a b y) = false.
Proof.
  assert (Hsym : forall y1 y2,
             CompareLinBil getId (newLinBil a b y1) (newLinBil b a y2)
             = false).
  { intros y1 y2. unfold CompareLinBil, newLinBil.
    destruct (Nat.ltb_spec b a), (Nat.ltb_spec a b); cbn [getX0 getX1];
      try lia; rewrite ?Nat.eqb_refl; try apply Nat.ltb_irrefl.
    assert (a = b) by lia. subst.
    rewrite Nat.eqb_refl. apply Nat.ltb_irrefl. }
  unfold CompareLinBil. cbn zeta.
  split; [rewrite Nat.eqb_refl; apply Nat.ltb_irrefl|].
  split.
  { destruct (Nat.eqb_spec (getId (getX0 b0)) (getId (getX0 b1))),
      (Nat.eqb_spec (getId (getX0 b1)) (getId (getX0 b2))),
      (Nat.eqb_spec (getId (getX0 b0)) (getId (getX0 b2)));
      rewrite ?Nat.ltb_lt; lia. }
  split.
  { rewrite (Nat.eqb_sym (getId (getX0 b1))).
    destruct (Nat.eqb_spec (getId (getX0 b0)) (getId (getX0 b1)));
      rewrite !Nat.ltb_ge; split; intros; lia. }
  split; [apply Hsym|].
  replace (newLinBil b a y') with (newLinBil a b y'); cycle 1.
  { symmetry. apply (newLinBil_comm a b y'). }
  replace (newLinBil a b y) with (newLinBil b a y); cycle 1.
  { apply (newLinBil_comm a b y). }
  apply Hsym.
Qed.

(* ===================================================================== *)
(** ** Building the relaxation, then refreshing it *)
(* ===================================================================== *)

Lemma extends_refl (rel : Relaxation) : extends rel rel.
Proof. split; [reflexivity|]. exists []. now rewrite app_nil_r. Qed.

Lemma extends_trans (r1 r2 r3 : Relaxation) :
  extends r1 r2 -> extends r2 r3 -> extends r1 r3.
Proof.
  intros [Hv1 [m1 Hc1]] [Hv2 [m2 Hc2]]. split; [congruence|].
  exists (m1 ++ m2). now rewrite Hc2, Hc1, <- app_assoc.
Qed.

Lemma extends_newConstraint (rel : Relaxation) (lf : LinearFunction)
    (lb ub : double) :
  extends rel (newConstraint rel lf lb ub).2.
Proof. split; [reflexivity|]. eexists. reflexivity. Qed.

Lemma sqrUpToDate_extends (rel rel' : Relaxation) (it : VariablePtr * LinSqr) :
  extends rel rel' -> sqrUpToDate rel it -> sqrUpToDate rel' it.
Proof.
  intros [Hv [more Hc]] (ci & vx & lf & rhs & Ho & Hx & Hlf & Hl).
  exists ci, vx, lf, rhs. rewrite Hv, Hc.
  split; [exact Ho|]. split; [exact Hx|]. split; [exact Hlf|].
  now apply lookup_app_l_Some.
Qed.

Lemma bilConUpToDate_extends (rel rel' : Relaxation) (b : LinBil)
    (con : option nat) (type : nat) :
  extends rel rel' -> bilConUpToDate rel b con type ->
  bilConUpToDate rel' b con type.
Proof.
  intros [Hv [more Hc]] (ci & v0 & v1 & lf & rhs & Ho & H0 & H1 & Hlf & Hl).
  exists ci, v0, v1, lf, rhs. rewrite Hv, Hc.
  split; [exact Ho|]. split; [exact H0|]. split; [exact H1|].
  split; [exact Hlf|]. now apply lookup_app_l_Some.
Qed.

Lemma bilUpToDate_extends (rel rel' : Relaxation) (b : LinBil) :
  extends rel rel' -> bilUpToDate rel b -> bilUpToDate rel' b.
Proof.
  intros He (H0 & H1 & H2 & H3).
  repeat split; eapply bilConUpToDate_extends; eassumption.
Qed.

Lemma relax_sqr_extends (its its' : list (VariablePtr * LinSqr))
    (rel rel' : Relaxation) :
  relax_sqr its rel = Ok (its', rel') -> extends rel rel'.
Proof.
  intros H. apply relax_sqr_frame in H as (Hv & secs & Hc & _).
  split; [exact Hv|]. now exists secs.
Qed.

Lemma relax_bil_extends (its its' : list LinBil) (rel rel' : Relaxation) :
  relax_bil its rel = Ok (its', rel') -> extends rel rel'.
Proof.
  intros H. apply relax_bil_McCormick in H as (Hv & envs & Hc & _).
  split; [exact Hv|]. now exists (concat envs).
Qed.

(** The records that the first loop of [relax_] returns: the same keys and
    variables, and [oeCon] the index of the new constraint. *)
Lemma relax_sqr_wires (its its' : list (VariablePtr * LinSqr))
    (rel rel' : Relaxation) :
  relax_sqr its rel = Ok (its', rel') ->
  its' = imap (fun i it =>
                 (it.1, mkLinSqr (sqY it.2) (sqX it.2)
                          (Some (length (cons_ rel) + i)%nat))) its /\
  length (cons_ rel') = (length (cons_ rel) + length its)%nat.
Proof.
  revert its' rel rel'. induction its as [|it rest IH]; intros its' rel rel';
    cbn [relax_sqr].
  - intros [= <- <-]. split; [reflexivity | cbn; lia].
  - destruct (getVariable rel (sqX it.2)) as [v0| |]; cbn [rbind];
      try discriminate.
    destruct (getVariable rel (sqY it.2)); cbn [rbind]; try discriminate.
    destruct (getNewSqLf_ _ _ _ _) as [[lf rhs]| |]; cbn [rbind newConstraint];
      try discriminate.
    destruct (relax_sqr rest _) as [[rest' rel1]| |] eqn:E; cbn [rbind];
      try discriminate.
    intros [= <- <-]. apply IH in E as [-> Hl].
    cbn [cons_] in Hl |- *. rewrite length_app in Hl |- *. cbn [length] in *.
    split; [|lia].
    cbn [imap]. rewrite Nat.add_0_r. f_equal.
    apply imap_ext. intros i x _. cbn. do 3 f_equal. lia.
Qed.

Lemma relax_bil_cons_wires (n i : nat) (x0 : VariablePtr) (v0 : Var)
    (x1 : VariablePtr) (v1 : Var) (y : VariablePtr) (rel rel' : Relaxation)
    (cs : list nat) :
  relax_bil_cons n i x0 v0 x1 v1 y rel = Ok (cs, rel') ->
  cs = seq (length (cons_ rel)) n /\
  length (cons_ rel') = (length (cons_ rel) + n)%nat /\
  extends rel rel' /\
  forall k ci, cs !! k = Some ci ->
    exists lf rhs,
      getNewBilLf_ x0 (getLb v0) (getUb v0) x1 (getLb v1) (getUb v1) y
        (i + k) = Ok (lf, rhs) /\
      cons_ rel' !! ci = Some (mkConstraint lf (- INFINITY) rhs).
Proof.
  revert i rel rel' cs. induction n as [|n IH]; intros i rel rel' cs;
    cbn [relax_bil_cons].
  - intros [= <- <-]. split; [reflexivity|]. split; [lia|].
    split; [apply extends_refl|]. intros k ci Hk. discriminate Hk.
  - destruct (getNewBilLf_ _ _ _ _ _ _ _ _) as [[lf rhs]| |] eqn:Elf;
      cbn [rbind]; try discriminate.
    pose proof (extends_newConstraint rel lf (- INFINITY) rhs) as Hext.
    unfold newConstraint in Hext |- *. cbn [snd] in Hext.
    destruct (relax_bil_cons n (S i) _ _ _ _ _ _) as [[cs1 rel1]| |] eqn:E;
      cbn [rbind]; try discriminate.
    intros [= <- <-]. apply IH in E as (-> & Hl & He & Hk).
    cbn [cons_] in Hl. rewrite length_app in Hl. cbn [length] in Hl.
    split; [cbn [seq cons_]; f_equal; rewrite ?length_app; cbn [length];
            f_equal; lia|].
    split; [lia|]. split; [eapply extends_trans; eassumption|].
    intros [|k] ci Hci.
    + injection Hci as <-. exists lf, rhs. rewrite Nat.add_0_r.
      split; [exact Elf|].
      destruct He as [_ [more ->]]. cbn [cons_]. rewrite <- app_assoc.
      rewrite lookup_app_r by lia. now rewrite Nat.sub_diag.
    + cbn in Hci. apply Hk in Hci as (lf' & rhs' & H1 & H2).
      exists lf', rhs'. split; [|exact H2].
      now replace (i + S k)%nat with (S i + k)%nat by lia.
Qed.

Lemma relax_bil_wires (its its' : list LinBil) (rel rel' : Relaxation) :
  relax_bil its rel = Ok (its', rel') ->
  its' = imap (fun i b =>
                 setCons b (length (cons_ rel) + 4 * i)
                   (length (cons_ rel) + 4 * i + 1)
                   (length (cons_ rel) + 4 * i + 2)
                   (length (cons_ rel) + 4 * i + 3))%nat its /\
  length (cons_ rel') = (length (cons_ rel) + 4 * length its)%nat.
Proof.
  revert its' rel rel'. induction its as [|it rest IH]; intros its' rel rel';
    cbn [relax_bil].
  - intros [= <- <-]. split; [reflexivity | cbn; lia].
  - destruct (getVariable rel (getX0 it)) as [v0| |]; cbn [rbind];
      try discriminate.
    destruct (getVariable rel (getX1 it)) as [v1| |]; cbn [rbind];
      try discriminate.
    destruct (getVariable rel (getY it)); cbn [rbind]; try discriminate.
    destruct (relax_bil_cons 4 0 _ _ _ _ _ _) as [[cs rel1]| |] eqn:Ec;
      cbn [rbind]; try discriminate.
    apply relax_bil_cons_wires in Ec as (-> & Hl1 & _ & _).
    cbn [seq].
    destruct (relax_bil rest rel1) as [[rest' rel2]| |] eqn:E; cbn [rbind];
      try discriminate.
    intros [= <- <-]. apply IH in E as [-> Hl].
    split; [|cbn [length]; lia].
    cbn [imap]. f_equal.
    + f_equal; lia.
    + apply imap_ext. intros i x _. cbn. rewrite Hl1. f_equal; lia.
Qed.

(** X16.  [relax_] leaves the variables of the relaxation and the operands
    of the records alone and gives every record the constraints just
    created for it, by position: with [n] constraints before the call, the
    square term number [i] gets constraint [n + i] and, with [k] square
    terms, the bilinear term number [j] gets the four constraints
    [n + k + 4j .. n + k + 4j + 3]; the relaxation ends with
    [n + k + 4 * (number of bilinear terms)] constraints, so every record
    points into the relaxation and no two records share a constraint. *)
Theorem relax_wires_records (h h' : QuadHandler) (rel rel' : Relaxation) :
  relax_ h rel = Ok (h', rel') ->
  let n := length (cons_ rel) in
  let k := length (x2Funs_ h) in
  vars_ rel' = vars_ rel /\
  modProb_ h' = modProb_ h /\ modRel_ h' = modRel_ h /\
  x2Funs_ h' = imap (fun i it =>
                       (it.1, mkLinSqr (sqY it.2) (sqX it.2)
                                (Some (n + i)%nat))) (x2Funs_ h) /\
  x0x1Funs_ h' = imap (fun j b =>
                         setCons b (n + k + 4 * j) (n + k + 4 * j + 1)
                           (n + k + 4 * j + 2) (n + k + 4 * j + 3))%nat
                   (x0x1Funs_ h) /\
  length (cons_ rel') = (n + k + 4 * length (x0x1Funs_ h))%nat.
Proof.
  unfold relax_.
  destruct (relax_sqr _ _) as [[sqs rel1]| |] eqn:E1; cbn [rbind];
    try discriminate.
  destruct (relax_bil _ _) as [[bils rel2]| |] eqn:E2; cbn [rbind];
    try discriminate.
  intros [= <- <-]. cbn zeta. cbn [modProb_ modRel_ x2Funs_ x0x1Funs_].
  pose proof (relax_sqr_extends _ _ _ _ E1) as [Hv1 _].
  pose proof (relax_bil_extends _ _ _ _ E2) as [Hv2 _].
  apply relax_sqr_wires in E1 as [-> Hl1].
  apply relax_bil_wires in E2 as [-> Hl2].
  rewrite Hl1 in Hl2.
  split; [congruence|]. split; [reflexivity|]. split; [reflexivity|].
  split; [reflexivity|]. split; [|exact Hl2].
  apply imap_ext. intros j b _. now rewrite Hl1.
Qed.

Lemma relax_wires_records_witness :
  exists h' rel',
    relax_ bil_handler bil_problem = Ok (h', rel') /\
    x0x1Funs_ h' = [setCons (newLinBil 0 1 2) 0 1 2 3] /\
    length (cons_ rel') = 4%nat.
Proof.
  destruct (relax_ bil_handler bil_problem) as [[h' rel']| |] eqn:E;
    [|discriminate E|discriminate E].
  exists h', rel'. split; [reflexivity|].
  destruct (relax_wires_records bil_handler h' bil_problem rel' E)
    as (_ & _ & _ & _ & Hb & Hl).
  split; [exact Hb | exact Hl].
Defined.

Lemma relax_sqr_upToDate (its its' : list (VariablePtr * LinSqr))
    (rel rel' : Relaxation) :
  Forall (fun it => it.1 = sqX it.2) its ->
  relax_sqr its rel = Ok (its', rel') ->
  Forall (sqrUpToDate rel') its'.
Proof.
  intros Hkeys. revert its' rel rel'.
  induction Hkeys as [|it rest Hk Hkeys IH]; intros its' rel rel';
    cbn [relax_sqr].
  - intros [= <- <-]. constructor.
  - destruct (getVariable rel (sqX it.2)) as [v0| |] eqn:Ev; cbn [rbind];
      try discriminate.
    destruct (getVariable rel (sqY it.2)); cbn [rbind]; try discriminate.
    destruct (getNewSqLf_ _ _ _ _) as [[lf rhs]| |] eqn:Elf;
      cbn [rbind newConstraint]; try discriminate.
    destruct (relax_sqr rest _) as [[rest' rel1]| |] eqn:E; cbn [rbind];
      try discriminate.
    intros [= <- <-].
    pose proof (relax_sqr_extends _ _ _ _ E) as He.
    constructor; [|now apply IH in E].
    apply getVariable_Ok in Ev.
    eapply sqrUpToDate_extends; [exact He|].
    exists (length (cons_ rel)), v0, lf, rhs. cbn [fst snd oeCon sqY vars_ cons_].
    rewrite Hk. split; [reflexivity|]. split; [exact Ev|].
    split; [exact Elf|].
    rewrite lookup_app_r by lia. now rewrite Nat.sub_diag.
Qed.

Lemma relax_bil_upToDate (its its' : list LinBil) (rel rel' : Relaxation) :
  relax_bil its rel = Ok (its', rel') ->
  Forall (bilUpToDate rel') its'.
Proof.
  revert its' rel rel'. induction its as [|it rest IH]; intros its' rel rel';
    cbn [relax_bil].
  - intros [= <- <-]. constructor.
  - destruct (getVariable rel (getX0 it)) as [v0| |] eqn:E0; cbn [rbind];
      try discriminate.
    destruct (getVariable rel (getX1 it)) as [v1| |] eqn:E1; cbn [rbind];
      try discriminate.
    destruct (getVariable rel (getY it)); cbn [rbind]; try discriminate.
    destruct (relax_bil_cons 4 0 _ _ _ _ _ _) as [[cs rel1]| |] eqn:Ec;
      cbn [rbind]; try discriminate.
    apply relax_bil_cons_wires in Ec as (-> & _ & [Hv1 _] & Hk).
    cbn [seq] in Hk |- *.
    destruct (relax_bil rest rel1) as [[rest' rel2]| |] eqn:E; cbn [rbind];
      try discriminate.
    intros [= <- <-].
    pose proof (relax_bil_extends _ _ _ _ E) as He.
    constructor; [|now apply IH in E].
    apply getVariable_Ok in E0, E1.
    eapply bilUpToDate_extends; [exact He|].
    unfold bilUpToDate, bilConUpToDate, setCons.
    cbn [getX0 getX1 getY getC0 getC1 getC2 getC3]. rewrite Hv1.
    repeat split.
    + destruct (Hk 0%nat _ eq_refl) as (lf & rhs & H1 & H2).
      eexists _, v0, v1, lf, rhs. cbn [Nat.add] in H1. eauto 10.
    + destruct (Hk 1%nat _ eq_refl) as (lf & rhs & H1 & H2).
      eexists _, v0, v1, lf, rhs. cbn [Nat.add] in H1. eauto 10.
    + destruct (Hk 2%nat _ eq_refl) as (lf & rhs & H1 & H2).
      eexists _, v0, v1, lf, rhs. cbn [Nat.add] in H1. eauto 10.
    + destruct (Hk 3%nat _ eq_refl) as (lf & rhs & H1 & H2).
      eexists _, v0, v1, lf, rhs. cbn [Nat.add] in H1. eauto 10.
Qed.

(** X17.  When every square term is stored under its operand (as
    [addConstraint] stores it), [relax_] leaves the handler with every record
    pointing to a constraint that is the secant, or the McCormick inequality
    of its number, of the current bounds. *)
Theorem relax_makes_upToDate (h h' : QuadHandler) (rel rel' : Relaxation) :
  Forall (fun it => it.1 = sqX it.2) (x2Funs_ h) ->
  relax_ h rel = Ok (h', rel') ->
  upToDate h' rel'.
Proof.
  intros Hkeys. unfold relax_.
  destruct (relax_sqr _ _) as [[sqs rel1]| |] eqn:E1; cbn [rbind];
    try discriminate.
  destruct (relax_bil _ _) as [[bils rel2]| |] eqn:E2; cbn [rbind];
    try discriminate.
  intros [= <- <-]. split; cbn [x2Funs_ x0x1Funs_].
  - pose proof (relax_bil_extends _ _ _ _ E2) as He.
    apply (relax_sqr_upToDate _ _ _ _ Hkeys) in E1.
    eapply Forall_impl; [exact E1|]. intros it. now apply sqrUpToDate_extends.
  - now apply relax_bil_upToDate in E2.
Qed.

Lemma relax_makes_upToDate_witness :
  exists h' rel',
    relax_ sqr_handler sqr_problem = Ok (h', rel') /\ upToDate h' rel'.
Proof.
  destruct (relax_ sqr_handler sqr_problem) as [[h' rel']| |] eqn:E;
    [|discriminate E|discriminate E].
  exists h', rel'. split; [reflexivity|].
  apply (relax_makes_upToDate sqr_handler h' sqr_problem rel');
    [repeat constructor | exact E].
Defined.

Lemma changeConstraint_same (rel : Relaxation) (ci : nat)
    (lf : LinearFunction) (lb ub : double) :
  cons_ rel !! ci = Some (mkConstraint lf lb ub) ->
  changeConstraint rel ci lf lb ub = Ok rel.
Proof.
  intros H. unfold changeConstraint, at_index. rewrite H. cbn [rbind].
  rewrite list_insert_id by exact H. now destruct rel.
Qed.

Lemma upSqCon_upToDate (it : VariablePtr * LinSqr) (s s' : State) :
  sqrUpToDate (rel_ s) it ->
  upSqCon_ (oeCon it.2) it.1 (sqY it.2) s = Ok s' ->
  p_ s' = p_ s /\ rel_ s' = rel_ s /\ p_mods s' = p_mods s.
Proof.
  intros (ci & vx & lf & rhs & Ho & Hx & Hlf & Hl). unfold upSqCon_.
  rewrite Ho. cbn [deref rbind]. unfold at_index at 1. rewrite Hl.
  cbn [rbind]. apply getVariable_Ok in Hx. rewrite Hx. cbn [rbind].
  destruct (assert _); cbn [rbind]; try discriminate.
  destruct (_ || _).
  - rewrite Hlf. cbn [rbind applyToProblem].
    rewrite (changeConstraint_same _ _ _ _ _ Hl). cbn [rbind].
    intros [= <-]. cbn. auto.
  - intros [= <-]. auto.
Qed.

Lemma upBilCon_one_upToDate (b : LinBil) (con : option nat)
    (binding : double -> double -> double -> bool) (v0 v1 : Var)
    (type : nat) (s s' : State) :
  bilConUpToDate (rel_ s) b con type ->
  vars_ (rel_ s) !! getX0 b = Some v0 ->
  vars_ (rel_ s) !! getX1 b = Some v1 ->
  upBilCon_one con binding (getX0 b) (getLb v0) (getUb v0)
    (getX1 b) (getLb v1) (getUb v1) (getY b) type s = Ok s' ->
  p_ s' = p_ s /\ rel_ s' = rel_ s /\ p_mods s' = p_mods s.
Proof.
  intros (ci & w0 & w1 & lf & rhs & Ho & H0 & H1 & Hlf & Hl) E0 E1.
  assert (w0 = v0) by congruence. assert (w1 = v1) by congruence. subst.
  unfold upBilCon_one. cbn [deref rbind]. unfold at_index at 1. rewrite Hl.
  cbn [rbind].
  destruct (binding _ _ _).
  - rewrite Hlf. cbn [rbind applyToProblem].
    rewrite (changeConstraint_same _ _ _ _ _ Hl). cbn [rbind].
    intros [= <-]. cbn. auto.
  - intros [= <-]. auto.
Qed.

Lemma upBilCon_upToDate (b : LinBil) (s s' : State) :
  bilUpToDate (rel_ s) b ->
  upBilCon_ b s = Ok s' ->
  p_ s' = p_ s /\ rel_ s' = rel_ s /\ p_mods s' = p_mods s.
Proof.
  intros (U0 & U1 & U2 & U3). unfold upBilCon_.
  destruct (getVariable (rel_ s) (getY b)); cbn [rbind]; try discriminate.
  destruct (getVariable (rel_ s) (getX0 b)) as [v0| |] eqn:E0; cbn [rbind];
    try discriminate.
  destruct (getVariable (rel_ s) (getX1 b)) as [v1| |] eqn:E1; cbn [rbind];
    try discriminate.
  apply getVariable_Ok in E0, E1.
  destruct (upBilCon_one (getC0 b) _ _ _ _ _ _ _ _ 0 s) as [s1| |] eqn:F0;
    cbn [rbind]; try discriminate.
  apply (upBilCon_one_upToDate b _ _ v0 v1 0 s s1 U0 E0 E1) in F0
    as (P0 & R0 & M0).
  rewrite <- R0 in U1, U2, U3, E0, E1.
  destruct (upBilCon_one (getC1 b) _ _ _ _ _ _ _ _ 1 s1) as [s2| |] eqn:F1;
    cbn [rbind]; try discriminate.
  apply (upBilCon_one_upToDate b _ _ v0 v1 1 s1 s2 U1 E0 E1) in F1
    as (P1 & R1 & M1).
  rewrite <- R1 in U2, U3, E0, E1.
  destruct (upBilCon_one (getC2 b) _ _ _ _ _ _ _ _ 2 s2) as [s3| |] eqn:F2;
    cbn [rbind]; try discriminate.
  apply (upBilCon_one_upToDate b _ _ v0 v1 2 s2 s3 U2 E0 E1) in F2
    as (P2 & R2 & M2).
  rewrite <- R2 in U3, E0, E1.
  destruct (upBilCon_one (getC3 b) _ _ _ _ _ _ _ _ 3 s3) as [s4| |] eqn:F3;
    cbn [rbind]; try discriminate.
  apply (upBilCon_one_upToDate b _ _ v0 v1 3 s3 s4 U3 E0 E1) in F3
    as (P3 & R3 & M3).
  intros [= <-]. repeat split; congruence.
Qed.

Lemma upSqCons_upToDate (its : list (VariablePtr * LinSqr)) (s s' : State) :
  Forall (sqrUpToDate (rel_ s)) its ->
  upSqCons its s = Ok s' ->
  p_ s' = p_ s /\ rel_ s' = rel_ s /\ p_mods s' = p_mods s.
Proof.
  revert s. induction its as [|it rest IH]; intros s Hall; cbn [upSqCons].
  - intros [= <-]. auto.
  - apply Forall_cons in Hall as [Hit Hrest].
    destruct (getVariable (rel_ s) it.1); cbn [rbind]; try discriminate.
    destruct (getVariable (rel_ s) (sqY it.2)); cbn [rbind];
      try discriminate.
    destruct (upSqCon_ _ _ _ s) as [s1| |] eqn:E; cbn [rbind];
      try discriminate.
    apply (upSqCon_upToDate it s s1 Hit) in E as (P & R & M).
    rewrite <- R in Hrest. intros H. apply (IH s1 Hrest) in H as (P' & R' & M').
    repeat split; congruence.
Qed.

Lemma upBilCons_upToDate (its : list LinBil) (s s' : State) :
  Forall (bilUpToDate (rel_ s)) its ->
  upBilCons its s = Ok s' ->
  p_ s' = p_ s /\ rel_ s' = rel_ s /\ p_mods s' = p_mods s.
Proof.
  revert s. induction its as [|it rest IH]; intros s Hall; cbn [upBilCons].
  - intros [= <-]. auto.
  - apply Forall_cons in Hall as [Hit Hrest].
    destruct (upBilCon_ it s) as [s1| |] eqn:E; cbn [rbind];
      try discriminate.
    apply (upBilCon_upToDate it s s1 Hit) in E as (P & R & M).
    rewrite <- R in Hrest. intros H. apply (IH s1 Hrest) in H as (P' & R' & M').
    repeat split; congruence.
Qed.

(** X18.  On a handler whose records are up to date, [presolveNode] changes
    neither the problem nor the relaxation: whenever [upSqCon_] or
    [upBilCon_] finds a constraint to be rewritten (their tests can hold for
    a constraint that is up to date), the replacement is the constraint that
    is already there.  So a refresh that directly follows [relax_] leaves the
    relaxation as [relax_] built it. *)
Theorem presolveNode_keeps_upToDate_relaxation (sqrtQ : Q -> Q) (fuel : nat)
    (h : QuadHandler) (s s' : State) (is_inf : bool) :
  upToDate h (rel_ s) ->
  presolveNode sqrtQ fuel h s = Ok (is_inf, s') ->
  is_inf = false /\ p_ s' = p_ s /\ rel_ s' = rel_ s /\
  p_mods s' = p_mods s /\ upToDate h (rel_ s').
Proof.
  intros [Hsq Hbil]. rewrite presolveNode_is_refresh.
  destruct (upSqCons _ s) as [s1| |] eqn:E1; cbn [rbind]; try discriminate.
  destruct (upBilCons _ s1) as [s2| |] eqn:E2; cbn [rbind]; try discriminate.
  intros [= <- <-].
  apply (upSqCons_upToDate _ s s1 Hsq) in E1 as (P1 & R1 & M1).
  rewrite <- R1 in Hbil.
  apply (upBilCons_upToDate _ s1 s2 Hbil) in E2 as (P2 & R2 & M2).
  split; [reflexivity|]. split; [congruence|]. split; [congruence|].
  split; [congruence|]. rewrite R2. split; [now rewrite R1 | exact Hbil].
Qed.

Lemma presolveNode_keeps_upToDate_relaxation_witness :
  relax_ mixed_handler mixed_problem = Ok mixed_relaxed /\
  exists s',
    presolveNode sqrtQ_approx 0 mixed_relaxed.1
      (mkState mixed_problem mixed_relaxed.2 [] []) = Ok (false, s') /\
    p_ s' = mixed_problem /\ rel_ s' = mixed_relaxed.2.
Proof.
  split; [vm_compute; reflexivity|].
  destruct (presolveNode sqrtQ_approx 0 mixed_relaxed.1
              (mkState mixed_problem mixed_relaxed.2 [] []))
    as [[is_inf s']| |] eqn:E;
    [|vm_compute in E; discriminate E|vm_compute in E; discriminate E].
  assert (U : upToDate mixed_relaxed.1 mixed_relaxed.2).
  { split; repeat constructor.
    - do 4 eexists. split; [reflexivity|]. split; [reflexivity|].
      split; vm_compute; reflexivity.
    - do 5 eexists. split; [reflexivity|]. split; [reflexivity|].
      split; [reflexivity|]. split; vm_compute; reflexivity.
    - do 5 eexists. split; [reflexivity|]. split; [reflexivity|].
      split; [reflexivity|]. split; vm_compute; reflexivity.
    - do 5 eexists. split; [reflexivity|]. split; [reflexivity|].
      split; [reflexivity|]. split; vm_compute; reflexivity.
    - do 5 eexists. split; [reflexivity|]. split; [reflexivity|].
      split; [reflexivity|]. split; vm_compute; reflexivity. }
  destruct (presolveNode_keeps_upToDate_relaxation sqrtQ_approx 0
              mixed_relaxed.1 (mkState mixed_problem mixed_relaxed.2 [] [])
              s' is_inf U E) as (-> & P & R & _).
  exists s'. split; [reflexivity|]. split; [exact P | exact R].
Defined.

(* ===================================================================== *)
(** ** The mutators of [Problem] *)
(* ===================================================================== *)

Lemma mkProblem_eta (p : Problem) : mkProblem (vars_ p) (cons_ p) = p.
Proof. now destruct p. Qed.

(** X19.  For a variable of the problem itself: changing its lower and then
    its upper bound, in either order, is the two-sided [changeBound]; of two
    changes of the same side the later one wins; changes of different
    variables commute; and a change succeeds and writes that side of that
    variable alone.  (The variable is given by its index in the problem; a
    pointer to a variable of another problem, on which the code stops at its
    assertion, has no counterpart here.) *)
Theorem changeBound_composition (p : Problem) (v w : VariablePtr)
    (lu lu' : BoundType) (a b : double) :
  (p1 <- changeBound p v Lower a ;; changeBound p1 v Upper b)
  = changeBound2 p v a b /\
  (p1 <- changeBound p v Upper b ;; changeBound p1 v Lower a)
  = changeBound2 p v a b /\
  (p1 <- changeBound p v lu a ;; changeBound p1 v lu b)
  = changeBound p v lu b /\
  (v <> w ->
   (p1 <- changeBound p v lu a ;; changeBound p1 w lu' b)
   = (p1 <- changeBound p w lu' b ;; changeBound p1 v lu a)) /\
  (forall var, vars_ p !! v = Some var ->
     exists p', changeBound p v lu a = Ok p' /\
       vars_ p' !! v = Some (setBound lu a var) /\
       (forall u, u <> v -> vars_ p' !! u = vars_ p !! u) /\
       cons_ p' = cons_ p).
Proof.
  unfold changeBound, changeBound2, getVariable, at_index.
  destruct (vars_ p !! v) as [var|] eqn:Ev; cbn [rbind vars_ cons_].
  - pose proof (lookup_lt_Some _ _ _ Ev) as Hlt.
    rewrite !list_lookup_insert_eq by exact Hlt. cbn [rbind].
    rewrite !list_insert_insert_eq.
    split; [reflexivity|]. split; [reflexivity|].
    split; [now destruct lu|].
    split.
    + intros Hne.
      rewrite list_lookup_insert_ne by exact Hne.
      destruct (vars_ p !! w) as [var'|] eqn:Ew; cbn [rbind vars_ cons_];
        [|reflexivity].
      rewrite list_lookup_insert_ne by congruence. rewrite Ev. cbn [rbind].
      f_equal. f_equal. apply list_insert_insert_ne. congruence.
    + intros var0 [= <-]. eexists. split; [reflexivity|]. cbn [vars_ cons_].
      split; [now apply list_lookup_insert_eq|].
      split; [|reflexivity].
      intros u Hu. apply list_lookup_insert_ne. congruence.
  - apply lookup_ge_None in Ev.
    split; [reflexivity|]. split; [reflexivity|]. split; [reflexivity|].
    split; [|intros var0 [=]].
    intros Hne.
    destruct (vars_ p !! w) as [var'|] eqn:Ew; cbn [rbind vars_ cons_];
      [|reflexivity].
    rewrite list_lookup_insert_ne by congruence.
    now rewrite (proj2 (lookup_ge_None _ _) Ev).
Qed.

(** X20.  [newConstraint] returns the index at which the new constraint is
    found afterwards, keeps every earlier constraint at its index and the
    variables as they are; [changeConstraint] at that index is the same as
    having created the constraint with the new data; and on a constraint of
    the problem itself [changeConstraint] succeeds and replaces that
    constraint alone.  (The constraint is given by its index and has a
    function; a constraint of another problem or without a function, on which
    the code stops at its assertions, has no counterpart here.) *)
Theorem newConstraint_changeConstraint (p : Problem)
    (lf lf' : LinearFunction) (lb ub lb' ub' : double) (i : nat)
    (c : Constraint) :
  let r := newConstraint p lf lb ub in
  cons_ r.2 !! r.1 = Some (mkConstraint lf lb ub) /\
  vars_ r.2 = vars_ p /\
  (cons_ p !! i = Some c -> cons_ r.2 !! i = Some c) /\
  changeConstraint r.2 r.1 lf' lb' ub' = Ok (newConstraint p lf' lb' ub').2 /\
  (cons_ p !! i = Some c ->
   exists p', changeConstraint p i lf lb ub = Ok p' /\
     cons_ p' !! i = Some (mkConstraint lf lb ub) /\
     (forall j, j <> i -> cons_ p' !! j = cons_ p !! j) /\
     vars_ p' = vars_ p).
Proof.
  cbn zeta. unfold newConstraint, changeConstraint, at_index.
  cbn [fst snd cons_ vars_].
  split; [rewrite lookup_app_r by lia; now rewrite Nat.sub_diag|].
  split; [reflexivity|].
  split; [intros H; now apply lookup_app_l_Some|].
  split.
  - rewrite lookup_app_r by lia. rewrite Nat.sub_diag. cbn [lookup rbind].
    cbn. f_equal. f_equal.
    rewrite insert_app_r_alt by lia. now rewrite Nat.sub_diag.
  - intros E. rewrite E. cbn [rbind]. eexists. split; [reflexivity|].
    cbn [cons_ vars_]. apply lookup_lt_Some in E.
    split; [now apply list_lookup_insert_eq|]. split; [|reflexivity].
    intros j Hj. apply list_lookup_insert_ne. congruence.
Qed.

(* ===================================================================== *)
(** ** Problem.cpp: the type of a problem *)
(* ===================================================================== *)

Lemma uadd_small (a b : N) : (a + b < UInt_range)%N -> uadd a b = (a + b)%N.
Proof. intros H. unfold uadd. now apply N.mod_small. Qed.

Lemma uadd_swap (a b c : N) : uadd (uadd a b) c = uadd (uadd a c) b.
Proof.
  unfold uadd. rewrite !N.Div0.add_mod_idemp_l. f_equal. lia.
Qed.

Lemma isPolyp_cons_false (fs : list (option FunctionType)) :
  isPolyp_cons fs = false.
Proof.
  induction fs as [|[t|] rest IH]; cbn [isPolyp_cons]; [reflexivity| |exact IH].
  now destruct (_ || _).
Qed.

Lemma isPolyp_false (obj : option (option FunctionType))
    (fs : list (option FunctionType)) :
  isPolyp_ obj fs = false.
Proof.
  unfold isPolyp_. destruct obj as [[t|]|]; try apply isPolyp_cons_false.
  destruct (_ || _); [reflexivity | apply isPolyp_cons_false].
Qed.

(** X21.  [isPolyp_] returns false on every path, so [findType] never
    answers POLYP or MIPOLYP (nor UnknownProblem), and it answers one of the
    mixed-integer types exactly when [bins + ints] is positive.  [isLinear]
    holds exactly when [findType] answers LP or MILP and [isQP] exactly when
    it answers QP or MIQP; but [isQuadratic] and [findType] disagree: for a
    size with a constant or linear objective on which [isQuadratic] holds,
    [findType] answers NLP or MINLP; with a quadratic or bilinear objective
    [isQuadratic] implies one of the answers QP, MIQP, QCQP and MIQCQP, and
    the answers QCQP and MIQCQP imply [isQuadratic].  Before the first
    [calculateSize] the three tests are false. *)
Theorem findType_and_the_tests (sz : ProblemSize)
    (obj : option (option FunctionType)) (fs : list (option FunctionType)) :
  let t := findType sz obj fs in
  isPolyp_ obj fs = false /\
  ~ In t [POLYP; MIPOLYP; UnknownProblem] /\
  (In t [MILP; MIQP; MIQCQP; MINLP]
   <-> (0 < uadd (bins sz) (ints sz))%N) /\
  (isLinear (Some sz) = true <-> In t [LP; MILP]) /\
  (isQP (Some sz) = true <-> In t [QP; MIQP]) /\
  (objType sz = Constant \/ objType sz = Linear ->
   isQuadratic (Some sz) = true -> In t [NLP; MINLP]) /\
  (objType sz = Quadratic \/ objType sz = Bilinear ->
   isQuadratic (Some sz) = true -> In t [QP; MIQP; QCQP; MIQCQP]) /\
  (In t [QCQP; MIQCQP] -> isQuadratic (Some sz) = true) /\
  isLinear None = false /\ isQP None = false /\ isQuadratic None = false.
Proof.
  cbn zeta. split; [apply isPolyp_false|].
  unfold findType, isQuadratic, isQP, isLinear.
  rewrite isPolyp_false.
  rewrite (uadd_swap (linCons sz) (quadCons sz) (bilinCons sz)).
  rewrite (N.eqb_sym (linCons sz) (szCons sz)).
  rewrite (N.eqb_sym (uadd _ _) (szCons sz)).
  rewrite <- N.ltb_lt.
  destruct (N.eqb_spec (szCons sz) (linCons sz)) as [E|E].
  - destruct (objType sz), (szCons sz =? uadd _ _)%N, (0 <? uadd _ _)%N;
      cbn; intuition (try discriminate; try congruence).
  - destruct (objType sz), (szCons sz =? uadd _ _)%N, (0 <? uadd _ _)%N;
      cbn; intuition (try discriminate; try congruence).
Qed.

Lemma countIf_le_length {A : Type} (P : A -> bool) (l : list A) :
  (countIf P l <= N.of_nat (length l))%N.
Proof.
  induction l as [|a rest IH]; cbn [countIf length]; [lia|].
  destruct (P a); lia.
Qed.

Lemma countIf_forallb {A : Type} (P : A -> bool) (l : list A) :
  (N.of_nat (length l) =? countIf P l)%N = forallb P l.
Proof.
  induction l as [|a rest IH]; cbn [countIf length forallb]; [reflexivity|].
  pose proof (countIf_le_length P rest) as Hle.
  destruct (P a); cbn [andb].
  - rewrite <- IH. destruct (N.eqb_spec (N.of_nat (length rest))
                               (countIf P rest)) as [E|E].
    + apply N.eqb_eq. lia.
    + apply N.eqb_neq. lia.
  - apply N.eqb_neq. lia.
Qed.

Lemma countIf_existsb {A : Type} (P : A -> bool) (l : list A) :
  (0 <? countIf P l)%N = existsb P l.
Proof.
  induction l as [|a rest IH]; cbn [countIf existsb]; [reflexivity|].
  destruct (P a); cbn [orb].
  - apply N.ltb_lt. lia.
  - rewrite <- IH. now rewrite N.add_0_l.
Qed.

(** The counters of [countConsTypes_] while no counter wraps around. *)
Lemma countConsTypes_loop_inv (ts : list FunctionType) (l b m q n : N) :
  (l + b + m + q + n + N.of_nat (length ts) < UInt_range)%N ->
  exists l' b' m' q' n',
    countConsTypes_loop ts (l, b, m, q, n) = (l', b', m', q', n') /\
    l' = (l + countIf atMostLinear ts)%N /\
    (l' + b' + q' = l + b + q + countIf atMostQuadratic ts)%N /\
    (l' + b' + m' + q' + n' = l + b + m + q + n + N.of_nat (length ts))%N.
Proof.
  revert l b m q n. induction ts as [|t rest IH]; intros l b m q n Hlt.
  - exists l, b, m, q, n. cbn. repeat split; lia.
  - cbn [length] in Hlt. rewrite Nat2N.inj_succ in Hlt.
    cbn [countConsTypes_loop countIf length]. rewrite Nat2N.inj_succ.
    destruct t; cbn [atMostLinear atMostQuadratic];
      rewrite uadd_small by lia;
      match goal with
      | |- context [countConsTypes_loop rest (?l1, ?b1, ?m1, ?q1, ?n1)] =>
          destruct (IH l1 b1 m1 q1 n1) as (l' & b' & m' & q' & n' & E & Hl
                                           & Hq & Hs); [lia|]
      end;
      exists l', b', m', q', n'; (split; [exact E|]); repeat split; lia.
Qed.

(** The counters of [countVarTypes_] while no counter wraps around. *)
Lemma countVarTypes_loop_inv (vs : list (VariableType * Var))
    (b i c f : N) :
  (b + i + c + N.of_nat (length vs) < UInt_range)%N ->
  exists b' i' c' f',
    countVarTypes_loop vs (b, i, c, f) = (b', i', c', f') /\
    (b' + i' = b + i + countIf (fun tv => isDiscrete tv.1) vs)%N /\
    (b' + i' + c' <= b + i + c + N.of_nat (length vs))%N.
Proof.
  revert b i c f. induction vs as [|[t v] rest IH]; intros b i c f Hlt.
  - exists b, i, c, f. cbn. repeat split; lia.
  - cbn [length] in Hlt. rewrite Nat2N.inj_succ in Hlt.
    cbn [countVarTypes_loop countIf length fst]. rewrite Nat2N.inj_succ.
    destruct t; cbn [isDiscrete]; rewrite ?uadd_small by lia;
      match goal with
      | |- context [countVarTypes_loop rest (?b1, ?i1, ?c1, ?f1)] =>
          destruct (IH b1 i1 c1 f1) as (b' & i' & c' & f' & E & Hd & Hs);
          [lia|]
      end;
      exists b', i', c', f'; (split; [exact E|]); split; lia.
Qed.

(** X22.  For a problem with fewer than [2^32] variables and constraints,
    [findType] on the size that [calculateSize] computes is the class read
    off the data: LP when every constraint is constant or linear and the
    objective is constant or linear; QP when every constraint is constant or
    linear and the objective is quadratic or bilinear; QCQP when that fails,
    every constraint is constant, linear, bilinear or quadratic and the
    objective is quadratic or bilinear; NLP in every other case (among them
    quadratic constraints under a constant or linear objective, and a
    multilinear or polynomial function anywhere); and the mixed-integer type
    of the same class exactly when a variable is Binary or Integer (ImplBin
    and ImplInt do not count). *)
Theorem findType_classifies (vs : list (VariableType * Var))
    (ts : list FunctionType) (ot : FunctionType)
    (obj : option (option FunctionType)) (fs : list (option FunctionType)) :
  (N.of_nat (length vs) < UInt_range)%N ->
  (N.of_nat (length ts) < UInt_range)%N ->
  findType (calculateSize vs ts ot) obj fs
  = classOf (forallb atMostLinear ts) (forallb atMostQuadratic ts) ot
      (existsb (fun tv => isDiscrete tv.1) vs).
Proof.
  intros Hv Ht. unfold calculateSize, countVarTypes_, countConsTypes_.
  destruct (countVarTypes_loop_inv vs 0 0 0 0) as (b & i & c & f & Ev & Hd & Hs);
    [lia|].
  destruct (countConsTypes_loop_inv ts 0 0 0 0 0)
    as (l & bl & ml & q & nl & Ec & Hl & Hq & Hsum); [lia|].
  rewrite Ev, Ec. unfold findType.
  cbn [szCons bins ints linCons bilinCons quadCons objType].
  rewrite isPolyp_false.
  rewrite (N.mod_small _ _ Ht).
  rewrite (uadd_small b i) by lia.
  rewrite (uadd_small l bl) by lia. rewrite (uadd_small (l + bl) q) by lia.
  rewrite Hd, Hq, Hl. rewrite !N.add_0_l.
  rewrite !countIf_forallb, countIf_existsb.
  destruct ot, (forallb atMostLinear ts), (forallb atMostQuadratic ts),
    (existsb _ vs); reflexivity.
Qed.

Lemma findType_classifies_witness :
  findType qcp_size None [] = NLP.
Proof.
  exact (findType_classifies [(Continuous, mkVariable (Fin 0) (Fin 1))]
           [Linear; Quadratic] Linear None [] eq_refl eq_refl).
Defined.

(* ===================================================================== *)
(** ** Problem.cpp: integrality of a solution *)
(* ===================================================================== *)

(** The test of [isSolIntegral] on one finite value below [2^52]: it fails
    to be above the tolerance exactly when an integer is within [1e-6] of the
    value. *)
Lemma near_integer_test (q : Q) :
  (Qabs q < inject_Z (2 ^ 52))%Q ->
  (fabs (floor (addHalf (Fin q)) - Fin q) >? intTol_) = false <->
  exists z : Z, (Qabs (q - inject_Z z) <= 1e-6)%Q.
Proof.
  intros Hsmall. unfold addHalf.
  replace (Qltb (Qabs q) (inject_Z (2 ^ 52))) with true
    by (symmetry; now apply Qltb_lt).
  unfold intTol_. cbn [dadd floor dsub fabs dltb].
  rewrite Qltb_ge. rewrite !Qred_correct.
  set (f := Qfloor (q + 0.5)).
  assert (Hf1 : (inject_Z f <= q + 0.5)%Q) by apply Qfloor_le.
  assert (Hf2 : (q + 0.5 < inject_Z (f + 1))%Q) by apply Qlt_floor.
  split.
  - intros H. exists f. now rewrite Qabs_Qminus.
  - intros [z Hz]. apply Qabs_Qle_condition in Hz as [Hz1 Hz2].
    assert (f = z) as ->.
    { assert (Hlt1 : (inject_Z f < inject_Z (z + 1))%Q).
      { rewrite inject_Z_plus. change (inject_Z 1) with 1%Q. qlra. }
      assert (Hlt2 : (inject_Z z < inject_Z (f + 1))%Q) by qlra.
      rewrite <- Zlt_Qlt in Hlt1, Hlt2. lia. }
    rewrite Qabs_Qminus. apply Qabs_Qle_condition. split; qlra.
Qed.

Lemma not_finite_test (a : double) :
  is_finite a = false ->
  (fabs (floor (addHalf a) - a) >? intTol_) = false.
Proof. destruct a; [reflexivity | reflexivity | discriminate | reflexivity]. Qed.

(** The test on an odd integer between [2^52] and [2^53]: the sum is rounded
    to the next integer and the test is above the tolerance. *)
Lemma large_odd_test (z : Z) :
  Z.odd z = true -> (2 ^ 52 <= Z.abs z < 2 ^ 53)%Z ->
  (fabs (floor (addHalf (Fin (inject_Z z))) - Fin (inject_Z z)) >? intTol_)
  = true.
Proof.
  intros Hodd [Hlo Hhi]. unfold addHalf.
  assert (Habs : (Qabs (inject_Z z) == inject_Z (Z.abs z))%Q) by reflexivity.
  replace (Qltb (Qabs (inject_Z z)) (inject_Z (2 ^ 52))) with false.
  2:{ symmetry. apply Qltb_ge. rewrite Habs. rewrite <- Zle_Qle. exact Hlo. }
  replace (Qltb (Qabs (inject_Z z)) (inject_Z (2 ^ 53))) with true.
  2:{ symmetry. apply Qltb_lt. rewrite Habs. rewrite <- Zlt_Qlt. exact Hhi. }
  rewrite Qfloor_Z, Hodd. unfold intTol_. cbn [andb dadd floor dsub fabs dltb].
  apply Qltb_lt. rewrite !Qred_correct.
  assert (E : (inject_Z (Qfloor (inject_Z z + 1)) - inject_Z z == 1)%Q).
  { change 1%Q with (inject_Z 1) at 1. rewrite <- inject_Z_plus, Qfloor_Z.
    rewrite inject_Z_plus. change (inject_Z 1) with 1%Q. ring. }
  rewrite E. vm_compute. reflexivity.
Qed.

Lemma isSolIntegral_from_spec (types : list VariableType) (x : nat -> double)
    (i : nat) :
  isSolIntegral_from types x i = true <->
  forall k t, types !! k = Some t -> isDiscrete t = true ->
    (fabs (floor (addHalf (x (i + k)%nat)) - x (i + k)%nat) >? intTol_)
    = false.
Proof.
  revert i. induction types as [|t rest IH]; intros i;
    cbn [isSolIntegral_from].
  - split; [intros _ k t Hk; discriminate Hk | reflexivity].
  - change (match t with Binary | Integer => true | _ => false end)
      with (isDiscrete t).
    destruct (isDiscrete t && _) eqn:E.
    + split; [discriminate|]. intros H.
      apply andb_true_iff in E as [Ed Et].
      specialize (H 0%nat t eq_refl Ed). rewrite Nat.add_0_r in H. congruence.
    + rewrite IH. split.
      * intros H [|k] t' Hk Hd.
        -- injection Hk as <-. rewrite Hd in E. cbn [andb] in E.
           now rewrite Nat.add_0_r.
        -- replace (i + S k)%nat with (S i + k)%nat by lia.
           now apply (H k t').
      * intros H k t' Hk Hd.
        replace (S i + k)%nat with (i + S k)%nat by lia.
        now apply (H (S k) t').
Qed.

(** X23.  On a finite solution whose Binary and Integer variables have
    values below [2^52] in absolute value, [isSolIntegral] accepts exactly
    when each of them has an integer within [1e-6] of its value; neither the
    bounds nor, for a Binary variable, the range [0, 1] play a part, and
    variables of the other types are not looked at.  A value that is not
    finite (NaN or an infinity) never fails the test: a solution with no
    finite value is accepted.  And an integer value is not always accepted:
    an odd integer from [2^52] up to [2^53] fails the test, because [x+0.5]
    is rounded to [x+1]. *)
Theorem isSolIntegral_nearest_integer (types : list VariableType)
    (q : nat -> Q) (x : nat -> double) (i : nat) (t : VariableType) (z : Z) :
  ((forall i t, types !! i = Some t -> isDiscrete t = true ->
      (Qabs (q i) < inject_Z (2 ^ 52))%Q) ->
   (isSolIntegral types (finite_point q) = true <->
    forall i t, types !! i = Some t -> isDiscrete t = true ->
      exists z : Z, (Qabs (q i - inject_Z z) <= 1e-6)%Q)) /\
  ((forall i, is_finite (x i) = false) -> isSolIntegral types x = true) /\
  (types !! i = Some t -> isDiscrete t = true -> x i = Fin (inject_Z z) ->
   Z.odd z = true -> (2 ^ 52 <= Z.abs z < 2 ^ 53)%Z ->
   isSolIntegral types x = false).
Proof.
  unfold isSolIntegral. split; [|split].
  - intros Hsmall. rewrite isSolIntegral_from_spec. cbn [Nat.add].
    unfold finite_point.
    split; intros H j u Hj Hd.
    + apply near_integer_test; [now apply (Hsmall j u) | now apply (H j u)].
    + apply near_integer_test; [now apply (Hsmall j u) | now apply (H j u)].
  - intros Hx. apply isSolIntegral_from_spec. intros k u _ _.
    apply not_finite_test, Hx.
  - intros Hi Hd Hx Hodd Hz.
    destruct (isSolIntegral_from types x 0) eqn:E; [|reflexivity].
    rewrite isSolIntegral_from_spec in E. specialize (E i t Hi Hd).
    cbn [Nat.add] in E. rewrite Hx, large_odd_test in E by assumption.
    discriminate E.
Qed.

(* ===================================================================== *)
(** ** Presolve: the flag tells the truth *)
(* ===================================================================== *)

Lemma dltb_asym (a b : double) : (a <? b) = true -> (b <? a) = false.
Proof.
  destruct a, b; cbn [dltb]; try discriminate; try reflexivity.
  rewrite Qltb_lt, Qltb_ge. apply Qlt_le_weak.
Qed.

Lemma dltb_neq (a b : double) : (a <? b) = true -> a <> b.
Proof.
  intros H ->. pose proof (dltb_asym _ _ H). congruence.
Qed.

Lemma sameOrAbove_antisym (a b : double) :
  sameOrAbove a b -> sameOrAbove b a -> a = b.
Proof.
  intros [->|H1] [H2|H2]; try congruence.
  pose proof (dltb_asym _ _ H1). congruence.
Qed.

Lemma tightened_antisym (p q : Problem) :
  tightened p q -> tightened q p -> q = p.
Proof.
  intros [Hc H1] [_ H2]. destruct p as [vp cp], q as [vq cq].
  cbn [vars_ cons_] in *. subst cq. f_equal.
  revert H2. induction H1 as [|a b l k [Ha Hb] _ IH]; intros H2;
    [reflexivity|].
  inversion H2 as [|? ? ? ? [Ha' Hb'] Hrest]; subst.
  f_equal; [|now apply IH].
  destruct a as [la ua], b as [lb ub]. cbn [getLb getUb] in *.
  f_equal; apply sameOrAbove_antisym; assumption.
Qed.

Lemma flagged_refl (a : bool * Problem) : flagged a a.
Proof. split; [apply tightened_refl | now left]. Qed.

Lemma flagged_trans (a b c : bool * Problem) :
  flagged a b -> flagged b c -> flagged a c.
Proof.
  intros [T1 H1] [T2 H2]. split; [eapply tightened_trans; eassumption|].
  destruct H1 as [[E1 P1]|[E1 P1]], H2 as [[E2 P2]|[E2 P2]].
  - left. split; congruence.
  - right. split; [exact E2 | congruence].
  - right. split; congruence.
  - right. split; [exact E2|]. intros E. apply P1.
    rewrite E in T2. now apply tightened_antisym.
Qed.

(** One write of [changeBound] in the presolve version of
    [updatePBounds_]. *)
Lemma changeBound_flagged (p : Problem) (v : VariablePtr) (var : Var)
    (lu : BoundType) (b : double) (changed : bool) :
  vars_ p !! v = Some var ->
  match lu with
  | Lower => (getLb var <? b) = true
  | Upper => (b <? getUb var) = true
  end ->
  flagged (changed, p)
    (true, mkProblem (<[v := setBound lu b var]> (vars_ p)) (cons_ p)).
Proof.
  intros Hv Hb. split; cbn [fst snd].
  - apply (tightened_insert _ _ var _ Hv); destruct lu;
      cbn [setBound getLb getUb]; try (now left); now right.
  - right. split; [reflexivity|]. intros E.
    apply (f_equal (fun q => vars_ q !! v)) in E. cbn [vars_] in E.
    rewrite list_lookup_insert_eq in E by (eapply lookup_lt_Some; exact Hv).
    rewrite Hv in E. injection E as E.
    destruct lu; cbn [setBound] in E.
    + apply (f_equal getLb) in E. cbn in E. apply dltb_neq in Hb. congruence.
    + apply (f_equal getUb) in E. cbn in E. apply dltb_neq in Hb. congruence.
Qed.

Lemma updatePBounds_pre_flagged (v : VariablePtr) (lb ub : double)
    (changed : bool) (p : Problem) (rc : Z) (changed' : bool)
    (p' : Problem) :
  updatePBounds_pre v lb ub changed p = Ok (rc, changed', p') ->
  flagged (changed, p) (changed', p').
Proof.
  unfold updatePBounds_pre.
  destruct (getVariable p v) as [var| |] eqn:Ev; cbn [rbind];
    try discriminate.
  apply getVariable_Ok in Ev.
  destruct (_ || _); [intros [= <- <- <-]; apply flagged_refl|].
  assert (H1 : exists c1 p1,
             (if ub <? getUb var - aTol_
              then p0 <- changeBound p v Upper ub ;; Ok (true, p0)
              else Ok (changed, p)) = Ok (c1, p1) /\
             flagged (changed, p) (c1, p1)).
  { destruct (ub <? getUb var - aTol_) eqn:E.
    - rewrite (changeBound_Ok _ _ _ _ var Ev). cbn [rbind].
      eexists _, _. split; [reflexivity|].
      apply (changeBound_flagged p v var Upper ub changed Ev).
      now apply dltb_sub_tol.
    - eexists _, _. split; [reflexivity | apply flagged_refl]. }
  destruct H1 as (c1 & p1 & -> & F1). cbn [rbind].
  destruct (getVariable p1 v) as [var1| |] eqn:Ev1; cbn [rbind];
    try discriminate.
  apply getVariable_Ok in Ev1.
  destruct (lb >? getLb var1 + aTol_) eqn:E.
  - rewrite (changeBound_Ok _ _ _ _ var1 Ev1). cbn [rbind].
    intros [= <- <- <-]. eapply flagged_trans; [exact F1|].
    apply (changeBound_flagged p1 v var1 Lower lb c1 Ev1).
    now apply dltb_add_tol.
  - cbn [rbind]. intros [= <- <- <-]. exact F1.
Qed.

(** Run the presolve version of [updatePBounds_] inside a proof. *)
Ltac run_update_pre H F :=
  match type of H with
  | context [updatePBounds_pre ?v ?lb ?ub ?ch ?p] =>
      let E := fresh "E" in
      let rc := fresh "rc" in
      let c := fresh "c" in
      let p1 := fresh "p" in
      destruct (updatePBounds_pre v lb ub ch p) as [[[rc c] p1]| |] eqn:E;
      cbn [rbind] in H; try discriminate H;
      pose proof (updatePBounds_pre_flagged _ _ _ _ _ _ _ _ E) as F;
      destruct (rc <? 0)%Z
  end.

Ltac run_lookup_pre H :=
  match type of H with
  | context [getVariable ?p ?v] =>
      destruct (getVariable p v); cbn [rbind] in H; try discriminate H
  end.

Lemma propSqrBnds_pre_flagged (sqrtQ : Q -> Q) (lx2 : VariablePtr * LinSqr)
    (changed : bool) (p : Problem) (is_inf changed' : bool) (p' : Problem) :
  propSqrBnds_pre sqrtQ lx2 changed p = Ok (is_inf, changed', p') ->
  flagged (changed, p) (changed', p').
Proof.
  unfold propSqrBnds_pre. intros H.
  run_lookup_pre H. destruct (BoundsOnSquare _ _) as [lb ub].
  run_update_pre H F1; [injection H as <- <- <-; exact F1|].
  run_lookup_pre H. run_lookup_pre H.
  destruct (_ >? aTol_).
  - destruct (assert _); cbn [rbind] in H; try discriminate H.
    run_update_pre H F2; injection H as <- <- <-;
      eapply flagged_trans; eassumption.
  - destruct (_ <? - aTol_); [injection H as <- <- <-; exact F1|].
    run_update_pre H F2; injection H as <- <- <-;
      eapply flagged_trans; eassumption.
Qed.

Lemma propBilBnds_pre_flagged (lx0x1 : LinBil) (changed : bool) (p : Problem)
    (is_inf changed' : bool) (p' : Problem) :
  propBilBnds_pre lx0x1 changed p = Ok (is_inf, changed', p') ->
  flagged (changed, p) (changed', p').
Proof.
  unfold propBilBnds_pre. intros H.
  run_lookup_pre H. run_lookup_pre H.
  destruct (BoundsOnProduct _ _ _ _) as [lb ub].
  run_update_pre H F1; [injection H as <- <- <-; exact F1|].
  run_lookup_pre H. run_lookup_pre H.
  destruct (BoundsOnDiv _ _ _ _) as [lb1 ub1].
  run_update_pre H F2;
    [injection H as <- <- <-; eapply flagged_trans; eassumption|].
  run_lookup_pre H. run_lookup_pre H.
  destruct (BoundsOnDiv _ _ _ _) as [lb2 ub2].
  run_update_pre H F3; injection H as <- <- <-;
    (eapply flagged_trans; [eapply flagged_trans|]; eassumption).
Qed.

Lemma varBndsSqr_flagged (sqrtQ : Q -> Q) (its : list (VariablePtr * LinSqr))
    (changed : bool) (p : Problem) (is_inf changed' : bool) (p' : Problem) :
  varBndsSqr sqrtQ its changed p = Ok (is_inf, changed', p') ->
  flagged (changed, p) (changed', p').
Proof.
  revert changed p. induction its as [|it rest IH]; intros changed p;
    cbn [varBndsSqr].
  - intros [= <- <- <-]. apply flagged_refl.
  - destruct (propSqrBnds_pre _ _ _ _) as [[[i1 c1] p1]| |] eqn:E;
      cbn [rbind]; try discriminate.
    apply propSqrBnds_pre_flagged in E.
    destruct i1; [intros [= <- <- <-]; exact E|].
    intros H. apply IH in H. eapply flagged_trans; eassumption.
Qed.

Lemma varBndsBil_flagged (its : list LinBil) (changed : bool) (p : Problem)
    (is_inf changed' : bool) (p' : Problem) :
  varBndsBil its changed p = Ok (is_inf, changed', p') ->
  flagged (changed, p) (changed', p').
Proof.
  revert changed p. induction its as [|it rest IH]; intros changed p;
    cbn [varBndsBil].
  - intros [= <- <- <-]. apply flagged_refl.
  - destruct (propBilBnds_pre _ _ _) as [[[i1 c1] p1]| |] eqn:E;
      cbn [rbind]; try discriminate.
    apply propBilBnds_pre_flagged in E.
    destruct i1; [intros [= <- <- <-]; exact E|].
    intros H. apply IH in H. eapply flagged_trans; eassumption.
Qed.

(** X24.  [presolve] answers Finished or SolvedInfeasible; it loosens no
    bound and leaves the constraints alone; and its flag is exact: [*changed]
    is true when it returns exactly when the problem is not the one it
    started from, also when the answer is SolvedInfeasible. *)
Theorem presolve_flag_is_exact (sqrtQ : Q -> Q) (h : QuadHandler)
    (p : Problem) (status : SolveStatus) (changed : bool) (p' : Problem) :
  presolve sqrtQ h p = Ok (status, changed, p') ->
  (status = Finished \/ status = SolvedInfeasible) /\
  tightened p p' /\
  (changed = true <-> p' <> p).
Proof.
  unfold presolve, varBndsFromCons_.
  destruct (varBndsSqr _ _ _ _) as [[[i1 c1] p1]| |] eqn:E1; cbn [rbind];
    try discriminate.
  apply varBndsSqr_flagged in E1.
  assert (F : forall i2, (if i1 then Ok (true, c1, p1)
                          else varBndsBil (x0x1Funs_ h) c1 p1)
                         = Ok (i2, changed, p') ->
                         flagged (false, p) (changed, p')).
  { intros i2. destruct i1.
    - intros [= <- <- <-]. exact E1.
    - intros H. apply varBndsBil_flagged in H.
      eapply flagged_trans; eassumption. }
  destruct (if i1 then _ else _) as [[[i2 c2] p2]| |] eqn:E2; cbn [rbind];
    try discriminate.
  intros [= <- <- <-].
  destruct (F i2 eq_refl) as [T [[Ec Ep]|[Ec Ep]]]; cbn [fst snd] in *.
  - split; [destruct i2; auto|]. split; [exact T|].
    subst. split; [discriminate | congruence].
  - split; [destruct i2; auto|]. split; [exact T|].
    split; [intros _; exact Ep | intros _; exact Ec].
Qed.

Lemma presolve_flag_is_exact_witness :
  exists status changed p',
    presolve sqrtQ_approx sqr_handler sqr_problem
    = Ok (status, changed, p') /\
    (status = Finished \/ status = SolvedInfeasible) /\
    tightened sqr_problem p' /\
    (changed = true <-> p' <> sqr_problem).
Proof.
  destruct (presolve sqrtQ_approx sqr_handler sqr_problem)
    as [[[status changed] p']| |] eqn:E;
    [|vm_compute in E; discriminate E|vm_compute in E; discriminate E].
  exists status, changed, p'. split; [reflexivity|].
  exact (presolve_flag_is_exact sqrtQ_approx sqr_handler sqr_problem
           status changed p' E).
Defined.

(* ===================================================================== *)
(** ** Which violated square terms are branched on *)
(* ===================================================================== *)

Lemma sqrBranchTest_iff (xv yv : Q) :
  sqrBranchTest (Fin xv) (Fin yv) = true <->
  (1e-4 * (Qabs yv + 1e-6) < yv - xv * xv)%Q.
Proof.
  unfold sqrBranchTest. dsimpl. unfold ddiv.
  assert (Hpos : (0 < Qred (Qred (Qabs yv) + 1e-6))%Q).
  { repeat rewrite Qred_correct. pose proof (Qabs_nonneg yv). qlra. }
  rewrite (Qeq_bool_pos _ Hpos). dsimpl. rewrite Qltb_lt.
  pose proof (Qlt_div_iff 1e-4 (Qred (yv - Qred (xv * xv)))
                (Qred (Qred (Qabs yv) + 1e-6)) Hpos) as Hiff.
  repeat rewrite Qred_correct in Hiff. repeat rewrite Qred_correct.
  exact Hiff.
Qed.

(** X25.  [getBranchingCandidates] offers the operand of a square term only
    for a point above the parabola ([y > x^2]), and it offers it for every
    such point that [isFeasible] counts as a violation of the term; the
    points below the parabola are left to [separate]. *)
Theorem violated_above_parabola_is_branched (xv yv : Q) :
  (sqrBranchTest (Fin xv) (Fin yv) = true -> (xv * xv < yv)%Q) /\
  (sqrViolated (Fin xv) (Fin yv) = true -> (xv * xv < yv)%Q ->
   sqrBranchTest (Fin xv) (Fin yv) = true).
Proof.
  rewrite sqrBranchTest_iff. pose proof (Qabs_nonneg yv) as Hy. split.
  - intros H. qlra.
  - intros Hviol Hlt.
    assert (Hn : ~ tolTestSqr yv xv).
    { intros Ht. apply sqrViolated_iff in Ht. congruence. }
    unfold tolTestSqr in Hn. rewrite Q.max_le_iff in Hn.
    rewrite Qabs_pos in Hn by qlra.
    apply Qnot_le_lt. intros H. apply Hn. right. exact H.
Qed.

(* ===================================================================== *)
(** ** Problem.cpp: changing the type of a variable *)
(* ===================================================================== *)

Lemma countIf_insert {A : Type} (P : A -> bool) (l : list A) (i : nat)
    (x y : A) :
  l !! i = Some x ->
  (countIf P (<[i := y]> l) + (if P x then 1 else 0)
   = countIf P l + (if P y then 1 else 0))%N.
Proof.
  revert i. induction l as [|a rest IH]; intros i Hi; [discriminate Hi|].
  destruct i as [|i]; cbn in Hi |- *.
  - injection Hi as ->. destruct (P x), (P y); lia.
  - specialize (IH i Hi). rewrite <- !N.add_assoc. f_equal. exact IH.
Qed.

(** Equality of tuples, component by component. *)
Ltac tuple_eq :=
  repeat match goal with |- (_, _) = (_, _) => f_equal end.

(** The counters of [countVarTypes_] are the numbers of Binary, Integer,
    Continuous and fixed variables, while no counter wraps around. *)
Lemma countVarTypes_loop_exact (vs : list (VariableType * Var))
    (b i c f : N) :
  (b + i + c + N.of_nat (length vs) < UInt_range)%N ->
  (f + N.of_nat (length vs) < UInt_range)%N ->
  countVarTypes_loop vs (b, i, c, f)
  = ((b + countIf isBinaryVar vs)%N, (i + countIf isIntegerVar vs)%N,
     (c + countIf isContinuousVar vs)%N, (f + countIf isFixedVar vs)%N).
Proof.
  revert b i c f. induction vs as [|[t v] rest IH]; intros b i c f Hlt Hf.
  - cbn. tuple_eq; lia.
  - cbn [length] in Hlt, Hf. rewrite Nat2N.inj_succ in Hlt, Hf.
    cbn [countVarTypes_loop countIf].
    unfold isBinaryVar at 1, isIntegerVar at 1, isContinuousVar at 1,
      isFixedVar at 1. cbn [fst snd].
    destruct (fabs (getUb v - getLb v) <? Fin 1e-9);
      destruct t; rewrite ?uadd_small by lia; rewrite IH by lia;
      tuple_eq; lia.
Qed.

Lemma udecr_spec (a : N) :
  (a < UInt_range)%N ->
  (a = 0 /\ udecr a = UInt_range - 1)%N \/ (0 < a /\ udecr a = a - 1)%N.
Proof.
  intros Ha. unfold udecr. destruct (N.eq_dec a 0) as [->|Hn].
  - left. split; [reflexivity|]. apply N.mod_small. now vm_compute.
  - right. split; [lia|].
    replace (a + (UInt_range - 1))%N with ((a - 1) + 1 * UInt_range)%N.
    + rewrite N.Div0.mod_add. apply N.mod_small. lia.
    + assert (1 <= UInt_range)%N by now vm_compute. lia.
Qed.

Lemma uincr_spec (a : N) :
  (a < UInt_range)%N ->
  (a = UInt_range - 1 /\ uadd a 1 = 0)%N
  \/ (a < UInt_range - 1 /\ uadd a 1 = a + 1)%N.
Proof.
  intros Ha. assert (HR : (1 <= UInt_range)%N) by now vm_compute.
  destruct (N.eq_dec a (UInt_range - 1)) as [->|Hn].
  - left. split; [reflexivity|]. unfold uadd.
    replace (UInt_range - 1 + 1)%N with (0 + 1 * UInt_range)%N by lia.
    rewrite N.Div0.mod_add. reflexivity.
  - right. split; [lia|]. apply uadd_small. lia.
Qed.

Lemma uadd_udecr (a : N) : (a < UInt_range)%N -> uadd (udecr a) 1 = a.
Proof.
  intros Ha. destruct (udecr_spec a Ha) as [[-> ->]|[H0 ->]].
  - unfold uadd. replace (UInt_range - 1 + 1)%N with (0 + 1 * UInt_range)%N.
    + now rewrite N.Div0.mod_add.
    + assert (1 <= UInt_range)%N by now vm_compute. lia.
  - rewrite uadd_small by lia. lia.
Qed.

(** Replace the wrapping operations of the goal and the context by their
    values, case by case. *)
Ltac unwrap :=
  repeat match goal with
  | H : context [uadd (udecr ?a) 1] |- _ =>
      rewrite (uadd_udecr a) in H by lia
  | |- context [uadd (udecr ?a) 1] => rewrite (uadd_udecr a) by lia
  end;
  repeat match goal with
  | H : context [udecr ?a] |- _ =>
      let E := fresh "E" in
      destruct (udecr_spec a ltac:(lia)) as [[? E]|[? E]];
      rewrite E in *; clear E
  | |- context [udecr ?a] =>
      let E := fresh "E" in
      destruct (udecr_spec a ltac:(lia)) as [[? E]|[? E]];
      rewrite E in *; clear E
  | H : context [uadd ?a 1] |- _ =>
      let E := fresh "E" in
      destruct (uincr_spec a ltac:(lia)) as [[? E]|[? E]];
      rewrite E in *; clear E
  | |- context [uadd ?a 1] =>
      let E := fresh "E" in
      destruct (uincr_spec a ltac:(lia)) as [[? E]|[? E]];
      rewrite E in *; clear E
  end.

(** X26.  [setVarType] keeps the counters of a size equal to a recount by
    [countVarTypes_] only as long as implied types stay out of it: it counts
    ImplBin with the binaries and ImplInt with the integers, which
    [countVarTypes_] counts nowhere.  Starting from counters that agree with
    the recount, the counters after [setVarType] agree with the recount of the
    new variables exactly when neither the old nor the new type is implied,
    or both are the same implied type. *)
Theorem setVarType_against_recount (vs vs' : list (VariableType * Var))
    (i : nat) (t t' : VariableType) (v : Var) (sz sz' : ProblemSize) :
  (N.of_nat (length vs) < UInt_range)%N ->
  vs !! i = Some (t, v) ->
  varCounters sz = countVarTypes_ vs ->
  setVarType (Some sz) vs i t' = Ok (Some sz', vs') ->
  vs' = <[i := (t', v)]> vs /\
  (varCounters sz' = countVarTypes_ vs' <->
   (isImplied t = false /\ isImplied t' = false)
   \/ (isImplied t = true /\ t' = t)).
Proof.
  intros Hlen Hi Hsz. unfold setVarType, at_index. rewrite Hi.
  cbn [rbind fst snd]. intros [= <- <-]. split; [reflexivity|].
  revert Hsz. unfold varCounters, countVarTypes_.
  assert (Hlen' : length (<[i := (t', v)]> vs) = length vs)
    by apply length_insert.
  rewrite !countVarTypes_loop_exact by (rewrite ?Hlen'; lia).
  rewrite !N.add_0_l.
  pose proof (countIf_insert isBinaryVar vs i (t, v) (t', v) Hi) as HB.
  pose proof (countIf_insert isIntegerVar vs i (t, v) (t', v) Hi) as HI.
  pose proof (countIf_insert isContinuousVar vs i (t, v) (t', v) Hi) as HC.
  pose proof (countIf_insert isFixedVar vs i (t, v) (t', v) Hi) as HF.
  change (isBinaryVar (t, v))
    with (match t with Binary => true | _ => false end) in HB.
  change (isBinaryVar (t', v))
    with (match t' with Binary => true | _ => false end) in HB.
  change (isIntegerVar (t, v))
    with (match t with Integer => true | _ => false end) in HI.
  change (isIntegerVar (t', v))
    with (match t' with Integer => true | _ => false end) in HI.
  change (isContinuousVar (t, v))
    with (match t with Continuous => true | _ => false end) in HC.
  change (isContinuousVar (t', v))
    with (match t' with Continuous => true | _ => false end) in HC.
  change (isFixedVar (t', v)) with (isFixedVar (t, v)) in HF.
  pose proof (countIf_le_length isBinaryVar vs) as LB.
  pose proof (countIf_le_length isIntegerVar vs) as LI.
  pose proof (countIf_le_length isContinuousVar vs) as LC.
  pose proof (countIf_le_length isBinaryVar (<[i := (t', v)]> vs)) as LB'.
  pose proof (countIf_le_length isIntegerVar (<[i := (t', v)]> vs)) as LI'.
  pose proof (countIf_le_length isContinuousVar (<[i := (t', v)]> vs))
    as LC'.
  rewrite Hlen' in LB', LI', LC'.
  assert (HR : (2 <= UInt_range)%N) by now vm_compute.
  intros [= EB EI EC EF].
  rewrite <- EB in HB, LB. rewrite <- EI in HI, LI. rewrite <- EC in HC, LC.
  rewrite <- EF in HF. clear EB EI EC EF.
  generalize dependent (countIf isBinaryVar (<[i := (t', v)]> vs)).
  generalize dependent (countIf isIntegerVar (<[i := (t', v)]> vs)).
  generalize dependent (countIf isContinuousVar (<[i := (t', v)]> vs)).
  generalize dependent (countIf isFixedVar (<[i := (t', v)]> vs)).
  generalize dependent (N.of_nat (length vs)).
  intros len Hlen LB LI LC f' HF c' HC LC' i' HI LI' b' HB LB'.
  destruct sz as [n b i0 c f l bl ml q nl ot].
  cbn [bins ints conts fixed] in *.
  destruct t, t';
    cbn [onCounter bins ints conts fixed isImplied] in *;
    first
      [ solve [ split;
                [ intros _;
                  first [ left; split; reflexivity
                        | right; split; reflexivity ]
                | intros _; unwrap; tuple_eq; lia ] ]
      | solve [ split;
                [ intros [= E1 E2 E3 E4]; exfalso; unwrap; lia
                | intros [[H1 H2]|[H1 H2]]; discriminate ] ] ].
Qed.

Lemma setVarType_against_recount_witness :
  exists sz' vs',
    setVarType (Some two_conts_size) two_conts 0 ImplBin = Ok (Some sz', vs') /\
    varCounters sz' <> countVarTypes_ vs'.
Proof.
  destruct (setVarType (Some two_conts_size) two_conts 0 ImplBin)
    as [[[sz'|] vs']| |] eqn:E;
    [|vm_compute in E; discriminate E|vm_compute in E; discriminate E
     |vm_compute in E; discriminate E].
  exists sz', vs'. split; [reflexivity|].
  destruct (setVarType_against_recount two_conts vs' 0 Continuous ImplBin
              (mkVariable (Fin 0) (Fin 1)) two_conts_size sz'
              eq_refl eq_refl eq_refl E) as [_ H].
  intros Heq. apply H in Heq as [[_ Hf]|[Hf _]]; discriminate Hf.
Defined.

(* ===================================================================== *)
(** ** Backward propagation on a square term *)
(* ===================================================================== *)







(* ===================================================================== *)
(** ** The search of [findLinPt_] on binary64 *)
(* ===================================================================== *)

Lemma loop64_S (fuel : nat) (xval yval : double) (s : Search64) :
  loop64 (S fuel) xval yval s
  = if open64 s then loop64 fuel xval yval (step64 xval yval s)
    else Ok (s_la s).
Proof.
  unfold loop64, open64, step64. cbn [findLinPt64_loop].
  destruct (ltb64 errlim64 (sub64 (s_b s) (s_a s))); [|reflexivity].
  destruct (ltb64 (s_mu_val s) (s_la_val s)); reflexivity.
Qed.

Lemma loop64_O (xval yval : double) (s : Search64) :
  loop64 0 xval yval s = if open64 s then OutOfFuel else Ok (s_la s).
Proof. reflexivity. Qed.

Lemma findLinPt64_start (fuel : nat) (xval yval : double) :
  findLinPt64_ fuel xval yval
  = (la <- loop64 fuel xval yval (start64 xval yval) ;; Ok (la, mul64 la la)).
Proof.
  unfold findLinPt64_, start64, loop64.
  destruct (ltb64 (Fin 0) xval); reflexivity.
Qed.

Lemma iter64_add (xval yval : double) (m n : nat) (s : Search64) :
  iter64 xval yval (m + n) s = iter64 xval yval n (iter64 xval yval m s).
Proof.
  revert s. induction m as [|m IH]; intros s; [reflexivity|].
  cbn [Nat.add iter64]. apply IH.
Qed.

Lemma allOpen64_open (xval yval : double) (n : nat) :
  forall (s : Search64) (m : nat),
    allOpen64 xval yval n s = true -> (m < n)%nat ->
    open64 (iter64 xval yval m s) = true.
Proof.
  induction n as [|n IH]; intros s m Hall Hm; [lia|].
  cbn [allOpen64] in Hall. apply andb_true_iff in Hall as [Hs Hall].
  destruct m as [|m]; [exact Hs|]. cbn [iter64]. apply IH; [exact Hall | lia].
Qed.

(** A loop whose guard holds for ever is out of fuel whatever the fuel. *)
Lemma loop64_never (xval yval : double) (fuel : nat) :
  forall s : Search64,
    (forall n, open64 (iter64 xval yval n s) = true) ->
    loop64 fuel xval yval s = OutOfFuel.
Proof.
  induction fuel as [|fuel IH]; intros s Hopen;
    pose proof (Hopen 0%nat) as H0; cbn [iter64] in H0.
  - rewrite loop64_O. now rewrite H0.
  - rewrite loop64_S, H0. apply IH.
    intros n. apply (Hopen (S n)).
Qed.

(** The guard holds for ever once the variables of the loop come back to
    values they had, with the guard holding all the way. *)
Lemma iter64_cycle (xval yval : double) (k p : nat) (s : Search64) :
  (0 < p)%nat ->
  iter64 xval yval (k + p) s = iter64 xval yval k s ->
  allOpen64 xval yval (k + p) s = true ->
  forall n, open64 (iter64 xval yval n s) = true.
Proof.
  intros Hp Hcyc Hall n.
  induction n as [n IH] using (well_founded_induction lt_wf).
  destruct (Nat.lt_ge_cases n (k + p)) as [Hn|Hn].
  - now apply (allOpen64_open xval yval (k + p)).
  - replace n with ((k + p) + (n - (k + p)))%nat by lia.
    rewrite iter64_add, Hcyc, <- iter64_add. apply IH. lia.
Qed.

(** X27.  On binary64 the search of [findLinPt_] need not end.  The solution
    [x = -2e12], [y = 1e24] passes the test of [separate].  After 76 rounds
    of the loop of [findLinPt_] the bracket has come down to two
    neighbouring doubles, [2^-13] apart, which is more than [errlim]; from
    there the variables of the loop come back to the same values every two
    rounds, and the loop is out of fuel whatever the fuel.  (As a check of
    the arithmetic: for [x = 2], [y = 1] the loop ends after exactly 20
    rounds, at the double [0x1.2a562361200d1p+0].) *)
Theorem findLinPt_stalls_on_binary64 :
  sepCandidate far_x far_y = true /\
  (forall fuel, findLinPt64_ fuel far_x far_y = OutOfFuel) /\
  (let s := iter64 far_x far_y 76 (start64 far_x far_y) in
   (s_b s - s_a s)%D = Fin (1 # 8192) /\
   (errlim64 <? Fin (1 # 8192))%D = true /\
   iter64 far_x far_y 2 s = s) /\
  findLinPt64_ 19 (Fin 2) (Fin 1) = OutOfFuel /\
  exists yl, findLinPt64_ 20 (Fin 2) (Fin 1)
             = Ok (Fin (5248390813319377 # 4503599627370496), yl).
Proof.
  split; [vm_compute; reflexivity|]. split; [|split].
  - intros fuel. rewrite findLinPt64_start.
    rewrite (loop64_never far_x far_y fuel); [reflexivity|].
    apply (iter64_cycle far_x far_y 76 2); [lia | |];
      vm_compute; reflexivity.
  - cbv zeta. split; [|split]; vm_compute; reflexivity.
  - split; [vm_compute; reflexivity|].
    eexists. vm_compute. reflexivity.
Qed.
